(** * Sudoku engine: generator, bounded solution counter, solver, conflict detector

    Shallow embedding of the puzzle engine (type [Board], [shuffle], [isValid],
    [fillBoard], [countSolutions], [generatePuzzle], [isValidPlacement],
    [getConflicts], [solvePuzzle]) and the proofs of its specification.

    Conventions of the embedding.
    - A cell of a JS board is [null] or a number; the filler writes the number
      [0] for an empty cell, the counter and the solver use [null].  Both are kept:
      [Null] and [Num 0] are different cells.
    - Row and column indices are the loop counters 0..8 (type [nat]); cell
      values are integers ([Z]).
    - Every index the source uses lies in 0..8.  The statements about board
      values are about boards of 9 rows of 9 cells ([shape9], [wf]), where no
      access is out of range; the defaults of [nth] and the no-op of [upd]
      outside a list are never reached there.
    - The recursive searches carry a fuel argument and return [OutOfFuel]
      when it is used up; the theorems show that the fuel handed over by the
      entry points always suffices.
    - [Math.random] is an oracle [rand : nat -> nat]: the [k]-th call yields
      the draw [rand k], and [Math.floor(Math.random() * (i + 1))] is
      [rand k mod (i + 1)], so every index in 0..i can come out.
    - Boards are passed as values, in-place assignments as explicit state.
      A second rendering of [solvePuzzle], [countSolutions] and
      [getConflicts] on a store of arrays ([hsolvePuzzle], ...) is used to
      state what happens to the caller's array, and is shown to agree with
      the first.
    - Of the React components, [SudokuGame] is the record [Game] of its
      state cells with one function per event handler, [SudokuBoard] the
      background and the text colour it gives a cell, [NumberPad] its digit
      counts, and [Timer] the text it shows; markup, styling and the timing
      of effects are left out. *)

From Stdlib Require Import String Ascii Decimal DecimalString DecimalNat.
From Stdlib Require Import List ZArith Lia Bool Arith PeanoNat Permutation Sorted.
Import ListNotations.

Set Implicit Arguments.

(** ** Cells and boards *)

Inductive Cell : Type :=
| Null
| Num (n : Z).

Definition Board := list (list Cell).

Inductive Difficulty : Type := easy | medium | hard | expert.

Definition DIFFICULTY_CLUES (d : Difficulty) : Z :=
  match d with
  | easy => 40
  | medium => 32
  | hard => 26
  | expert => 22
  end.

(** Result of a search that carries fuel. *)
Inductive outcome (A : Type) : Type :=
| OutOfFuel
| Ret (a : A).
Arguments OutOfFuel {A}.
Arguments Ret {A} a.

Definition cell_eqb (x y : Cell) : bool :=
  match x, y with
  | Null, Null => true
  | Num a, Num b => Z.eqb a b
  | _, _ => false
  end.

(** [board[r][c]] *)
Definition get (b : Board) (r c : nat) : Cell := nth c (nth r b []) Null.

(** [a[i] = x] inside the array *)
Fixpoint upd {A : Type} (i : nat) (x : A) (l : list A) : list A :=
  match l, i with
  | [], _ => []
  | _ :: t, O => x :: t
  | h :: t, S i' => h :: upd i' x t
  end.

(** [board[r][c] = v] *)
Definition set (b : Board) (r c : nat) (v : Cell) : Board :=
  upd r (upd c v (nth r b [])) b.

(** [board[r][c] === num] *)
Definition holds (x : Cell) (num : Z) : bool := cell_eqb x (Num num).

(** [board[r][c] === null] and [board[r][c] === 0] *)
Definition is_null (x : Cell) : bool := cell_eqb x Null.
Definition is_zero (x : Cell) : bool := cell_eqb x (Num 0).

(** The order of the two nested [for] loops over rows and columns. *)
Definition coords : list (nat * nat) := list_prod (seq 0 9) (seq 0 9).

(** First cell, in row-major order, that passes the test of the scan. *)
Definition first_cell (p : Cell -> bool) (b : Board) : option (nat * nat) :=
  find (fun rc => p (get b (fst rc) (snd rc))) coords.

Definition digits : list Z := [1; 2; 3; 4; 5; 6; 7; 8; 9]%Z.

(** ** [isValid] and [isValidPlacement] *)

Definition isValid (board : Board) (row col : nat) (num : Z) : bool :=
  if existsb (fun c => holds (get board row c) num) (seq 0 9) then false
  else if existsb (fun r => holds (get board r col) num) (seq 0 9) then false
  else
    let boxRow := row / 3 * 3 in
    let boxCol := col / 3 * 3 in
    if existsb (fun r =>
         existsb (fun c => holds (get board r c) num) (seq boxCol 3))
         (seq boxRow 3)
    then false else true.

Definition isValidPlacement (board : Board) (row col : nat) (num : Z) : bool :=
  if existsb (fun c => negb (c =? col) && holds (get board row c) num) (seq 0 9)
  then false
  else if existsb (fun r => negb (r =? row) && holds (get board r col) num) (seq 0 9)
  then false
  else
    let boxRow := row / 3 * 3 in
    let boxCol := col / 3 * 3 in
    if existsb (fun r =>
         existsb (fun c =>
           (negb (r =? row) || negb (c =? col)) && holds (get board r c) num)
           (seq boxCol 3))
         (seq boxRow 3)
    then false else true.

Definition isBoardComplete (board solution : Board) : bool :=
  forallb (fun rc =>
    cell_eqb (get board (fst rc) (snd rc)) (get solution (fst rc) (snd rc)))
    coords.

(** [board.map((r) => [...r])] *)
Definition copy (b : Board) : Board := map (fun r => map (fun v => v) r) b.

(** [b.map((r) => r.map((v) => (v === null ? 0 : v)))] *)
Definition null_to_zero (b : Board) : Board :=
  map (fun r => map (fun v => if is_null v then Num 0 else v) r) b.

(** [filled.map((r) => r.map((v) => v === 0 ? null : v))] *)
Definition zero_to_null (b : Board) : Board :=
  map (fun r => map (fun v => if is_zero v then Null else v) r) b.

(** ** [shuffle] (Fisher-Yates, driven by the random oracle) *)

(** [[a[i], a[j]] = [a[j], a[i]]] *)
Definition swap {T : Type} (a : list T) (i j : nat) : list T :=
  match nth_error a i, nth_error a j with
  | Some x, Some y => upd j x (upd i y a)
  | _, _ => a
  end.

Section Randomised.

(** [rand k] is the draw of the [k]-th call of [Math.random]. *)
Variable rand : nat -> nat.

(** The loop [for (let i = a.length - 1; i > 0; i--)]; [k] counts the calls
    of [Math.random] made so far. *)
Fixpoint shuffle_loop {T : Type} (i : nat) (a : list T) (k : nat) : list T * nat :=
  match i with
  | O => (a, k)
  | S i' =>
      let j := rand k mod (i + 1) in
      shuffle_loop i' (swap a i j) (S k)
  end.

Definition shuffle {T : Type} (arr : list T) (k : nat) : list T * nat :=
  shuffle_loop (length arr - 1) arr k.

(** ** [fillBoard] *)

(** The loop [for (const num of nums)] at the first empty cell [(row, col)];
    [rec] is the recursive call of [fillBoard].  The board is mutated in
    place and the random state advances, so both are threaded through. *)
Fixpoint fill_try (rec : nat -> Board -> outcome (bool * Board * nat))
    (row col : nat) (nums : list Z) (board : Board) (k : nat)
    : outcome (bool * Board * nat) :=
  match nums with
  | [] => Ret (false, board, k)
  | num :: rest =>
      if isValid board row col num then
        match rec k (set board row col (Num num)) with
        | OutOfFuel => OutOfFuel
        | Ret (true, b', k') => Ret (true, b', k')
        | Ret (false, b', k') =>
            fill_try rec row col rest (set b' row col (Num 0)) k'
        end
      else fill_try rec row col rest board k
  end.

Fixpoint fillBoard (fuel : nat) (k : nat) (board : Board)
    : outcome (bool * Board * nat) :=
  match fuel with
  | O => OutOfFuel
  | S fuel' =>
      match first_cell is_zero board with
      | Some (row, col) =>
          let (nums, k1) := shuffle digits k in
          fill_try (fillBoard fuel') row col nums board k1
      | None => Ret (true, board, k)
      end
  end.

End Randomised.

(** ** [countSolutions] *)

(** The loop [for (let num = 1; num <= 9; num++)] at the first empty cell;
    every branch works on its own copy [filled] of the board. *)
Fixpoint count_try (rec : Board -> Z -> outcome Z) (board : Board)
    (row col : nat) (limit : Z) (nums : list Z) (count : Z) : outcome Z :=
  match nums with
  | [] => Ret count
  | num :: rest =>
      let filled := copy board in
      if isValid filled row col num then
        match rec (zero_to_null (set filled row col (Num num)))
                  (limit - count)%Z with
        | OutOfFuel => OutOfFuel
        | Ret n =>
            let count' := (count + n)%Z in
            if (limit <=? count')%Z then Ret count'
            else count_try rec board row col limit rest count'
        end
      else count_try rec board row col limit rest count
  end.

Fixpoint countSolutions_fuel (fuel : nat) (board : Board) (limit : Z)
    : outcome Z :=
  match fuel with
  | O => OutOfFuel
  | S fuel' =>
      match first_cell is_null board with
      | Some (row, col) =>
          count_try (countSolutions_fuel fuel') board row col limit digits 0%Z
      | None => Ret 1%Z
      end
  end.

(** A board has 81 cells, so a chain of nested calls is at most 82 long. *)
Definition search_fuel : nat := 82.

Definition countSolutions (board : Board) (limit : Z) : outcome Z :=
  countSolutions_fuel search_fuel board limit.

(** ** [generatePuzzle] *)

(** The carving loop [for (const [row, col] of cells)]. *)
Fixpoint carve (cells : list (nat * nat)) (target : Z) (puzzle : Board)
    (removed : Z) : outcome Board :=
  match cells with
  | [] => Ret puzzle
  | (row, col) :: rest =>
      if (target <=? removed)%Z then Ret puzzle
      else
        let backup := get puzzle row col in
        let puzzle1 := set puzzle row col Null in
        let testBoard := copy puzzle1 in
        match countSolutions testBoard 2 with
        | OutOfFuel => OutOfFuel
        | Ret n =>
            if negb (n =? 1)%Z
            then carve rest target (set puzzle1 row col backup) removed
            else carve rest target puzzle1 (removed + 1)%Z
        end
  end.

(** [Array.from({ length: 9 }, () => Array(9).fill(0))] *)
Definition blank_board : Board := repeat (repeat (Num 0) 9) 9.

(** [Array.from({ length: 81 }, (_, i) => [Math.floor(i / 9), i % 9])] *)
Definition all_cells : list (nat * nat) :=
  map (fun i => (i / 9, i mod 9)) (seq 0 81).

Definition generatePuzzle (rand : nat -> nat) (k : nat) (difficulty : Difficulty)
    : outcome (Board * Board) :=
  match fillBoard rand search_fuel k blank_board with
  | OutOfFuel => OutOfFuel
  | Ret (_, solution, k1) =>
      let puzzle := copy solution in
      let (cells, _) := shuffle rand all_cells k1 in
      let clues := DIFFICULTY_CLUES difficulty in
      let target := (81 - clues)%Z in
      match carve cells target puzzle 0%Z with
      | OutOfFuel => OutOfFuel
      | Ret puzzle' => Ret (puzzle', copy solution)
      end
  end.

(** ** [getConflicts] *)

(** [`${r}-${c}`] *)
Definition key (r c : nat) : string :=
  (NilEmpty.string_of_uint (Nat.to_uint r) ++ "-"
   ++ NilEmpty.string_of_uint (Nat.to_uint c))%string.

(** [conflicts.add(s)] on a [Set<string>], kept in insertion order. *)
Definition set_add (s : string) (conflicts : list string) : list string :=
  if in_dec string_dec s conflicts then conflicts else conflicts ++ [s].

Definition getConflicts (board : Board) : list string :=
  fold_left (fun conflicts rc =>
    match get board (fst rc) (snd rc) with
    | Null => conflicts
    | Num val =>
        if negb (isValidPlacement board (fst rc) (snd rc) val)
        then set_add (key (fst rc) (snd rc)) conflicts
        else conflicts
    end) coords [].

(** ** [solvePuzzle] *)

(** The loop [for (let num = 1; num <= 9; num++)] of the inner [solve];
    [b] is the one working copy, mutated and restored in place. *)
Fixpoint solve_try (rec : Board -> outcome (bool * Board))
    (row col : nat) (nums : list Z) (b : Board) : outcome (bool * Board) :=
  match nums with
  | [] => Ret (false, b)
  | num :: rest =>
      let filled := null_to_zero b in
      if isValid filled row col num then
        match rec (set b row col (Num num)) with
        | OutOfFuel => OutOfFuel
        | Ret (true, b') => Ret (true, b')
        | Ret (false, b') => solve_try rec row col rest (set b' row col Null)
        end
      else solve_try rec row col rest b
  end.

Fixpoint solve (fuel : nat) (b : Board) : outcome (bool * Board) :=
  match fuel with
  | O => OutOfFuel
  | S fuel' =>
      match first_cell is_null b with
      | Some (row, col) => solve_try (solve fuel') row col digits b
      | None => Ret (true, b)
      end
  end.

(** [None] is the failure signal [null]. *)
Definition solvePuzzle (board : Board) : outcome (option Board) :=
  let b := copy board in
  match solve search_fuel b with
  | OutOfFuel => OutOfFuel
  | Ret (true, b') => Ret (Some b')
  | Ret (false, _) => Ret None
  end.

(** ** Vocabulary of the specification *)

Definition digit (v : Z) : Prop := (1 <= v <= 9)%Z.

(** Nine rows of nine cells. *)
Definition shape9 (b : Board) : Prop :=
  length b = 9 /\ Forall (fun row => length row = 9) b.

(** A grid whose cells are [blank] or a digit 1..9.  The filler's boards use
    [Num 0] as [blank], all other boards use [Null]. *)
Definition wf_with (blank : Cell) (b : Board) : Prop :=
  shape9 b /\
  forall r c, r < 9 -> c < 9 ->
    get b r c = blank \/ exists v, get b r c = Num v /\ digit v.

(** Well-formed grid: 9x9, every cell empty or 1..9. *)
Definition wf (b : Board) : Prop := wf_with Null b.

(** [(r', c')] is another cell of the row, the column or the box of [(r, c)]. *)
Definition peer (r c r' c' : nat) : Prop :=
  (r' <> r \/ c' <> c) /\
  (r' = r \/ c' = c \/ (r' / 3 = r / 3 /\ c' / 3 = c / 3)).

(** [(r', c')] lies in the row, the column or the box of [(r, c)]. *)
Definition sees (r c r' c' : nat) : Prop :=
  r' = r \/ c' = c \/ (r' / 3 = r / 3 /\ c' / 3 = c / 3).

Definition full (b : Board) : Prop :=
  forall r c, r < 9 -> c < 9 -> exists v, get b r c = Num v /\ digit v.

(** No other cell of the row, column or box of [(r, c)] holds its value. *)
Definition no_clash (s : Board) (r c : nat) : Prop :=
  forall r' c', r' < 9 -> c' < 9 -> peer r c r' c' -> get s r' c' <> get s r c.

Definition row_cells (b : Board) (r : nat) : list Cell :=
  map (fun c => get b r c) (seq 0 9).

Definition col_cells (b : Board) (c : nat) : list Cell :=
  map (fun r => get b r c) (seq 0 9).

(** The box in band [i] and stack [j] (each 0..2). *)
Definition box_cells (b : Board) (i j : nat) : list Cell :=
  map (fun rc => get b (fst rc) (snd rc))
      (list_prod (seq (3 * i) 3) (seq (3 * j) 3)).

(** Solution: every row, column and 3x3 box is a permutation of 1..9. *)
Definition Solution (s : Board) : Prop :=
  shape9 s /\
  (forall r, r < 9 -> Permutation (row_cells s r) (map Num digits)) /\
  (forall c, c < 9 -> Permutation (col_cells s c) (map Num digits)) /\
  (forall i j, i < 3 -> j < 3 -> Permutation (box_cells s i j) (map Num digits)).

(** The filled cells of [g] reappear unchanged in [s]. *)
Definition extends (g s : Board) : Prop :=
  forall r c, r < 9 -> c < 9 -> get g r c <> Null -> get s r c = get g r c.

(** [s] is a completion of [g] that is a valid Solution. *)
Definition completion (g s : Board) : Prop := Solution s /\ extends g s.

(** No row, column or box has a duplicate among the filled cells. *)
Definition consistent (g : Board) : Prop :=
  forall r c, r < 9 -> c < 9 -> get g r c <> Null -> no_clash g r c.

(** What a backtracking search can reach from [g]: a full grid that keeps
    the non-blank cells of [g] and in which every cell that was blank in [g]
    clashes with no peer.  Cells given in [g] are never checked against each
    other. *)
Definition reachable (blank : Cell) (g s : Board) : Prop :=
  shape9 s /\ full s /\
  (forall r c, r < 9 -> c < 9 -> get g r c <> blank -> get s r c = get g r c) /\
  (forall r c, r < 9 -> c < 9 -> get g r c = blank -> no_clash s r c).

(** Number of cells of the 9x9 window that pass a test. *)
Definition count_cells (p : Cell -> bool) (b : Board) : nat :=
  length (filter (fun rc => p (get b (fst rc) (snd rc))) coords).

(** A cell that holds a digit 1..9 (a clue of a puzzle). *)
Definition is_clue (x : Cell) : bool :=
  match x with
  | Num v => (1 <=? v)%Z && (v <=? 9)%Z
  | Null => false
  end.

Definition shape9b (b : Board) : bool :=
  (length b =? 9) && forallb (fun row => length row =? 9) b.

(** Executable test for [Solution]. *)
Definition is_solution (s : Board) : bool :=
  shape9b s &&
  forallb (fun rc =>
    match get s (fst rc) (snd rc) with
    | Num v => is_clue (Num v) && isValidPlacement s (fst rc) (snd rc) v
    | Null => false
    end) coords.

(** What a call of [solve] does on a well-formed board with enough fuel. *)
Definition solve_post (g : Board) (res : outcome (bool * Board)) : Prop :=
  (exists s, res = Ret (true, s) /\ reachable Null g s) \/
  (res = Ret (false, g) /\ forall s, ~ reachable Null g s).

(** What a call of [countSolutions] computes on a well-formed board [g] with
    enough fuel: the reachable grids form a finite duplicate-free list, and
    the result is its length capped at the limit. *)
Definition count_post (g : Board) (f : Z -> outcome Z) : Prop :=
  exists l, NoDup l /\ (forall s, In s l <-> reachable Null g s) /\
    forall limit, (1 <= limit)%Z ->
      f limit = Ret (Z.min limit (Z.of_nat (length l))).

Definition fill_post (g : Board) (res : outcome (bool * Board * nat)) : Prop :=
  (exists s k', res = Ret (true, s, k') /\ reachable (Num 0) g s) \/
  (exists k', res = Ret (false, g, k') /\ forall s, ~ reachable (Num 0) g s).

(** Invariant of the carving loop for the answer key [sol]: the puzzle keeps
    only cells of [sol], and [sol] is its only completion. *)
Definition carve_inv (sol p : Board) : Prop :=
  shape9 p /\
  (forall r c, r < 9 -> c < 9 -> get p r c = Null \/ get p r c = get sol r c) /\
  (forall s, completion p s -> s = sol).

(** Number of clues of a puzzle. *)
Definition clue_count (p : Board) : Z := Z.of_nat (count_cells is_clue p).

(** A solved grid, used to show that the empty grid can be completed. *)
Definition sample_solution : Board :=
  map (map Num)
    [ [1; 2; 3; 4; 5; 6; 7; 8; 9];
      [4; 5; 6; 7; 8; 9; 1; 2; 3];
      [7; 8; 9; 1; 2; 3; 4; 5; 6];
      [2; 3; 4; 5; 6; 7; 8; 9; 1];
      [5; 6; 7; 8; 9; 1; 2; 3; 4];
      [8; 9; 1; 2; 3; 4; 5; 6; 7];
      [3; 4; 5; 6; 7; 8; 9; 1; 2];
      [6; 7; 8; 9; 1; 2; 3; 4; 5];
      [9; 1; 2; 3; 4; 5; 6; 7; 8] ]%Z.

(** Executable tests for [wf] and [consistent]. *)
Definition wfb (b : Board) : bool :=
  shape9b b &&
  forallb (fun rc =>
    match get b (fst rc) (snd rc) with
    | Null => true
    | Num v => is_clue (Num v)
    end) coords.

Definition consistentb (g : Board) : bool :=
  forallb (fun rc =>
    match get g (fst rc) (snd rc) with
    | Null => true
    | Num v => isValidPlacement g (fst rc) (snd rc) v
    end) coords.

(** A full grid with a duplicate: [sample_solution] with a second 2 entered
    at the start of row 0. *)
Definition clash_grid : Board := set sample_solution 0 0 (Num 2).

(** [sample_solution] with its first row and first column blanked. *)
Definition sample_puzzle : Board :=
  map (fun row => upd 0 Null row) (upd 0 (repeat Null 9) sample_solution).

(** The all-empty grid of the counter and the solver. *)
Definition null_board : Board := repeat (repeat Null 9) 9.

(** Row 0 holds the value 3 in columns 0 and 1, everything else is empty. *)
Definition two_threes : Board := set (set null_board 0 0 (Num 3)) 0 1 (Num 3).

(** The test of [getConflicts] on one coordinate: the cell is filled and
    [isValidPlacement] rejects its value. *)
Definition flagged (g : Board) (rc : nat * nat) : Prop :=
  exists v, get g (fst rc) (snd rc) = Num v /\
            isValidPlacement g (fst rc) (snd rc) v = false.

(** Row 0 holds the value 5 in columns 0 and 1, everything else is empty. *)
Definition two_fives : Board := set (set null_board 0 0 (Num 5)) 0 1 (Num 5).

(** ** The engine on a store of arrays

    The definitions above pass boards as values.  To state that an operation
    leaves the array it is handed untouched, the three operations that take
    a caller's board are also given on a store: a heap of row arrays, a
    board being the array of the addresses of its rows.  Only row arrays are
    ever written ([x[row][col] = v]); the outer array of a board is never
    assigned to, so it is kept as a value.  Reads of a board go through its
    [snapshot]. *)

Definition Heap := list (list Cell).
Definition Ref := list nat.

(** The row array at an address. *)
Definition deref (h : Heap) (a : nat) : list Cell := nth a h [].

(** The contents of a board of the store. *)
Definition snapshot (h : Heap) (b : Ref) : Board := map (deref h) b.

(** A new row array. *)
Definition alloc (h : Heap) (row : list Cell) : Heap * nat :=
  (h ++ [row], length h).

(** [b[r][c] = v]: an assignment into the row array that [b[r]] refers to
    (no effect when [b] has no row [r]). *)
Definition write (h : Heap) (b : Ref) (r c : nat) (v : Cell) : Heap :=
  match nth_error b r with
  | Some a => upd a (upd c v (deref h a)) h
  | None => h
  end.

(** [b.map((r) => r.map(f))]: a new outer array of new row arrays. *)
Fixpoint map_rows (f : Cell -> Cell) (h : Heap) (b : Ref) : Heap * Ref :=
  match b with
  | [] => (h, [])
  | a :: rest =>
      let (h1, a') := alloc h (map f (deref h a)) in
      let (h2, rest') := map_rows f h1 rest in
      (h2, a' :: rest')
  end.

Fixpoint hcount_try (rec : Heap -> Ref -> Z -> outcome (Heap * Z))
    (h : Heap) (board : Ref) (row col : nat) (limit : Z) (nums : list Z)
    (count : Z) : outcome (Heap * Z) :=
  match nums with
  | [] => Ret (h, count)
  | num :: rest =>
      let (h1, filled) := map_rows (fun v => v) h board in
      if isValid (snapshot h1 filled) row col num then
        let h2 := write h1 filled row col (Num num) in
        let (h3, arg) :=
          map_rows (fun v => if is_zero v then Null else v) h2 filled in
        match rec h3 arg (limit - count)%Z with
        | OutOfFuel => OutOfFuel
        | Ret (h4, n) =>
            let count' := (count + n)%Z in
            if (limit <=? count')%Z then Ret (h4, count')
            else hcount_try rec h4 board row col limit rest count'
        end
      else hcount_try rec h1 board row col limit rest count
  end.

Fixpoint hcountSolutions (fuel : nat) (h : Heap) (board : Ref) (limit : Z)
    : outcome (Heap * Z) :=
  match fuel with
  | O => OutOfFuel
  | S fuel' =>
      match first_cell is_null (snapshot h board) with
      | Some (row, col) =>
          hcount_try (hcountSolutions fuel') h board row col limit digits 0%Z
      | None => Ret (h, 1%Z)
      end
  end.

(** The inner [solve] of [solvePuzzle]; [b] is the array bound by the
    enclosing call. *)
Fixpoint hsolve_try (rec : Heap -> outcome (Heap * bool)) (b : Ref)
    (row col : nat) (nums : list Z) (h : Heap) : outcome (Heap * bool) :=
  match nums with
  | [] => Ret (h, false)
  | num :: rest =>
      let (h1, filled) :=
        map_rows (fun v => if is_null v then Num 0 else v) h b in
      if isValid (snapshot h1 filled) row col num then
        match rec (write h1 b row col (Num num)) with
        | OutOfFuel => OutOfFuel
        | Ret (h2, true) => Ret (h2, true)
        | Ret (h2, false) =>
            hsolve_try rec b row col rest (write h2 b row col Null)
        end
      else hsolve_try rec b row col rest h1
  end.

Fixpoint hsolve (fuel : nat) (b : Ref) (h : Heap) : outcome (Heap * bool) :=
  match fuel with
  | O => OutOfFuel
  | S fuel' =>
      match first_cell is_null (snapshot h b) with
      | Some (row, col) => hsolve_try (hsolve fuel' b) b row col digits h
      | None => Ret (h, true)
      end
  end.

Definition hsolvePuzzle (h : Heap) (board : Ref)
    : outcome (Heap * option Ref) :=
  let (h1, b) := map_rows (fun v => v) h board in
  match hsolve search_fuel b h1 with
  | OutOfFuel => OutOfFuel
  | Ret (h2, true) => Ret (h2, Some b)
  | Ret (h2, false) => Ret (h2, None)
  end.

(** [getConflicts] has no assignment to an array at all. *)
Definition hgetConflicts (h : Heap) (board : Ref) : Heap * list string :=
  (h, getConflicts (snapshot h board)).

(** Every array of [h] is still there, unchanged, in [h']. *)
Definition frame (h h' : Heap) : Prop :=
  length h <= length h' /\
  forall a, a < length h -> deref h' a = deref h a.

(** The same, except for the rows of the board [b]. *)
Definition frame_except (b : Ref) (h h' : Heap) : Prop :=
  length h <= length h' /\
  forall a, a < length h -> ~ In a b -> deref h' a = deref h a.

(** Two runs end the same way, with related results. *)
Definition same_outcome {A B : Type} (R : A -> B -> Prop)
    (x : outcome A) (y : outcome B) : Prop :=
  match x, y with
  | OutOfFuel, OutOfFuel => True
  | Ret a, Ret b => R a b
  | _, _ => False
  end.

(** All rows of the board are arrays of the store. *)
Definition allocated (h : Heap) (b : Ref) : Prop :=
  Forall (fun a => a < length h) b.

(** A run of the solver on the store against the run on the contents of the
    working board [b]: the same answer, the same final contents of [b], and
    no array but the rows of [b] changed. *)
Definition solve_agree (b : Ref) (h : Heap) (x : Heap * bool)
    (y : bool * Board) : Prop :=
  snd x = fst y /\ snapshot (fst x) b = snd y /\ frame_except b h (fst x).

(** A run of the counter on the store against the run on the contents: the
    same count, and every array of before unchanged. *)
Definition count_agree (h : Heap) (x : Heap * Z) (n : Z) : Prop :=
  snd x = n /\ frame h (fst x).

(** [solvePuzzle] on the store against [solvePuzzle] on the contents: every
    array of before unchanged, and the returned board, if any, holds the
    returned contents. *)
Definition solvePuzzle_agree (h : Heap) (x : Heap * option Ref)
    (y : option Board) : Prop :=
  frame h (fst x) /\ option_map (snapshot (fst x)) (snd x) = y.

(** A store that holds the rows of [sample_puzzle] at the addresses 0..8,
    and the board made of them. *)
Definition sample_store : Heap := sample_puzzle.
Definition sample_ref : Ref := seq 0 9.

(** [s] comes before [s'] when the grids are read row by row: at the first
    cell where they differ, [s] holds the smaller digit. *)
Definition lex_lt (s s' : Board) : Prop :=
  exists r c, r < 9 /\ c < 9 /\
    (forall r' c', r' < 9 -> c' < 9 -> 9 * r' + c' < 9 * r + c ->
       get s r' c' = get s' r' c') /\
    exists v v', get s r c = Num v /\ get s' r c = Num v' /\ (v < v')%Z.

(** No clue of the puzzle [p] can be blanked without admitting a completion
    other than the answer key [sol]. *)
Definition irreducible (sol p : Board) : Prop :=
  forall r c, r < 9 -> c < 9 -> get p r c <> Null ->
  exists s, completion (set p r c Null) s /\ s <> sol.

(** ** The game component

    [SudokuGame] keeps its state in React state cells and changes it in event
    handlers.  The state is a record, a handler a function from the state of
    the render it was created in to the state after all its updates have
    been applied; the dependency lists of the handlers name every state cell
    they read, so each handler runs against the current state.  Rendering,
    the timer's interval and the 50 ms delay before [timerReset] falls are
    left out; the latter is the event [TimerResetDone]. *)

(** A JS object used as a map, in insertion order of its keys. *)
Fixpoint obj_get {K V : Type} (eqb : K -> K -> bool) (o : list (K * V)) (k : K)
    : option V :=
  match o with
  | [] => None
  | (k', v) :: rest => if eqb k k' then Some v else obj_get eqb rest k
  end.

(** [{ ...o, [k]: v }] and [o[k] = v] *)
Fixpoint obj_set {K V : Type} (eqb : K -> K -> bool) (o : list (K * V)) (k : K)
    (v : V) : list (K * V) :=
  match o with
  | [] => [(k, v)]
  | (k', v') :: rest =>
      if eqb k k' then (k', v) :: rest else (k', v') :: obj_set eqb rest k v
  end.

(** A [Set<number>], in insertion order. *)
Definition nset_has (s : list Z) (n : Z) : bool := existsb (Z.eqb n) s.
Definition nset_add (s : list Z) (n : Z) : list Z :=
  if nset_has s n then s else s ++ [n].
Definition nset_delete (s : list Z) (n : Z) : list Z :=
  filter (fun m => negb (Z.eqb n m)) s.

Definition Notes := list (string * list Z).

Definition notes_get (o : Notes) (k : string) : option (list Z) :=
  obj_get String.eqb o k.
Definition notes_set (o : Notes) (k : string) (v : list Z) : Notes :=
  obj_set String.eqb o k v.

Record Game : Type := mkGame {
  difficulty : Difficulty;
  board : Board;
  initialBoard : Board;
  solution : Board;
  selectedCell : option (nat * nat);
  conflicts : list string;
  isComplete : bool;
  timerRunning : bool;
  timerReset : bool;
  mistakes : Z;
  notes : Notes;
  noteMode : bool;
  history : list Board;
  showComplete : bool
}.

(** The state of the first render. *)
Definition initialGame : Game :=
  {| difficulty := medium; board := []; initialBoard := []; solution := [];
     selectedCell := None; conflicts := []; isComplete := false;
     timerRunning := false; timerReset := false; mistakes := 0%Z; notes := [];
     noteMode := false; history := []; showComplete := false |}.

(** [newGame(diff)]; [k] is the number of draws made before the call. *)
Definition newGame (rand : nat -> nat) (k : nat) (diff : Difficulty) (s : Game)
    : outcome Game :=
  match generatePuzzle rand k diff with
  | OutOfFuel => OutOfFuel
  | Ret (puzzle, sol) =>
      Ret {| difficulty := difficulty s;
             board := copy puzzle;
             initialBoard := copy puzzle;
             solution := copy sol;
             selectedCell := None;
             conflicts := [];
             isComplete := false;
             timerRunning := true;
             timerReset := true;
             mistakes := 0%Z;
             notes := [];
             noteMode := false;
             history := [];
             showComplete := false |}
  end.

(** [if (updated[k]) { const s = new Set(updated[k]); s.delete(n);
    updated[k] = s; }] *)
Definition drop_note (n : Z) (updated : Notes) (k : string) : Notes :=
  match notes_get updated k with
  | Some s => notes_set updated k (nset_delete s n)
  | None => updated
  end.

(** The updater that clears [n] from the notes of the row, the column and
    the box of [(r, c)]. *)
Definition clear_notes (prev : Notes) (r c : nat) (n : Z) : Notes :=
  let updated :=
    fold_left (fun updated i =>
      drop_note n (drop_note n updated (key r i)) (key i c))
      (seq 0 9) prev in
  let br := r / 3 * 3 in
  let bc := c / 3 * 3 in
  fold_left (fun updated rr =>
    fold_left (fun updated cc => drop_note n updated (key rr cc))
      (seq bc 3) updated)
    (seq br 3) updated.

Definition placeNumber (num : Z) (s : Game) : Game :=
  match selectedCell s with
  | None => s
  | Some (r, c) =>
      if isComplete s then s
      else if negb (is_null (get (initialBoard s) r c)) then s
      else if noteMode s then
        let k := key r c in
        let cell := match notes_get (notes s) k with
                    | Some x => x
                    | None => []
                    end in
        let cell' := if nset_has cell num then nset_delete cell num
                     else nset_add cell num in
        {| difficulty := difficulty s; board := board s;
           initialBoard := initialBoard s; solution := solution s;
           selectedCell := selectedCell s; conflicts := conflicts s;
           isComplete := isComplete s; timerRunning := timerRunning s;
           timerReset := timerReset s; mistakes := mistakes s;
           notes := notes_set (notes s) k cell';
           noteMode := noteMode s; history := history s;
           showComplete := showComplete s |}
      else
        let newBoard0 := copy (board s) in
        let newBoard :=
          set newBoard0 r c
            (if holds (get newBoard0 r c) num then Null else Num num) in
        let placed := negb (is_null (get newBoard r c)) in
        let wrong :=
          placed && negb (cell_eqb (get newBoard r c) (get (solution s) r c)) in
        let done := isBoardComplete newBoard (solution s) in
        {| difficulty := difficulty s; board := newBoard;
           initialBoard := initialBoard s; solution := solution s;
           selectedCell := selectedCell s;
           conflicts := getConflicts newBoard;
           isComplete := if done then true else isComplete s;
           timerRunning := if done then false else timerRunning s;
           timerReset := timerReset s;
           mistakes := if wrong then (mistakes s + 1)%Z else mistakes s;
           notes := if placed then clear_notes (notes s) r c num else notes s;
           noteMode := noteMode s;
           history := history s ++ [copy (board s)];
           showComplete := if done then true else showComplete s |}
  end.

Definition erase (s : Game) : Game :=
  match selectedCell s with
  | None => s
  | Some (r, c) =>
      if isComplete s then s
      else if negb (is_null (get (initialBoard s) r c)) then s
      else
        let k := key r c in
        let has_notes := match notes_get (notes s) k with
                         | Some x => negb (length x =? 0)
                         | None => false
                         end in
        if has_notes then
          {| difficulty := difficulty s; board := board s;
             initialBoard := initialBoard s; solution := solution s;
             selectedCell := selectedCell s; conflicts := conflicts s;
             isComplete := isComplete s; timerRunning := timerRunning s;
             timerReset := timerReset s; mistakes := mistakes s;
             notes := notes_set (notes s) k [];
             noteMode := noteMode s; history := history s;
             showComplete := showComplete s |}
        else
          let newBoard := set (copy (board s)) r c Null in
          {| difficulty := difficulty s; board := newBoard;
             initialBoard := initialBoard s; solution := solution s;
             selectedCell := selectedCell s;
             conflicts := getConflicts newBoard;
             isComplete := isComplete s; timerRunning := timerRunning s;
             timerReset := timerReset s; mistakes := mistakes s;
             notes := notes s; noteMode := noteMode s;
             history := history s ++ [copy (board s)];
             showComplete := showComplete s |}
  end.

Definition undo (s : Game) : Game :=
  match history s with
  | [] => s
  | _ :: _ =>
      let prev := last (history s) [] in
      {| difficulty := difficulty s; board := copy prev;
         initialBoard := initialBoard s; solution := solution s;
         selectedCell := selectedCell s;
         conflicts := getConflicts prev;
         isComplete := isComplete s; timerRunning := timerRunning s;
         timerReset := timerReset s; mistakes := mistakes s;
         notes := notes s; noteMode := noteMode s;
         history := removelast (history s);
         showComplete := showComplete s |}
  end.

Definition hint (s : Game) : Game :=
  match selectedCell s with
  | None => s
  | Some (r, c) =>
      if isComplete s then s
      else if negb (is_null (get (initialBoard s) r c)) then s
      else
        let newBoard := set (copy (board s)) r c (get (solution s) r c) in
        let done := isBoardComplete newBoard (solution s) in
        {| difficulty := difficulty s; board := newBoard;
           initialBoard := initialBoard s; solution := solution s;
           selectedCell := selectedCell s;
           conflicts := getConflicts newBoard;
           isComplete := if done then true else isComplete s;
           timerRunning := if done then false else timerRunning s;
           timerReset := timerReset s; mistakes := mistakes s;
           notes := notes s; noteMode := noteMode s;
           history := history s ++ [copy (board s)];
           showComplete := if done then true else showComplete s |}
  end.

Definition handleSolve (s : Game) : outcome Game :=
  match solvePuzzle (board s) with
  | OutOfFuel => OutOfFuel
  | Ret None => Ret s
  | Ret (Some solved) =>
      Ret {| difficulty := difficulty s; board := copy solved;
             initialBoard := initialBoard s; solution := solution s;
             selectedCell := selectedCell s;
             conflicts := [];
             isComplete := true; timerRunning := false;
             timerReset := timerReset s; mistakes := mistakes s;
             notes := notes s; noteMode := noteMode s;
             history := history s;
             showComplete := showComplete s |}
  end.

(** [onCellClick]: a click on the selected cell clears the selection. *)
Definition cellClick (r c : nat) (s : Game) : Game :=
  let sel := match selectedCell s with
             | Some (r0, c0) =>
                 if (r0 =? r) && (c0 =? c) then None else Some (r, c)
             | None => Some (r, c)
             end in
  {| difficulty := difficulty s; board := board s;
     initialBoard := initialBoard s; solution := solution s;
     selectedCell := sel; conflicts := conflicts s;
     isComplete := isComplete s; timerRunning := timerRunning s;
     timerReset := timerReset s; mistakes := mistakes s;
     notes := notes s; noteMode := noteMode s; history := history s;
     showComplete := showComplete s |}.

(** The table [moves] of the key handler, looked up at [e.key]. *)
Definition arrowTarget (k : string) (r c : nat) : option (nat * nat) :=
  if String.eqb k "ArrowUp" then Some (Z.to_nat (Z.max 0 (Z.of_nat r - 1)), c)
  else if String.eqb k "ArrowDown" then Some (Z.to_nat (Z.min 8 (Z.of_nat r + 1)), c)
  else if String.eqb k "ArrowLeft" then Some (r, Z.to_nat (Z.max 0 (Z.of_nat c - 1)))
  else if String.eqb k "ArrowRight" then Some (r, Z.to_nat (Z.min 8 (Z.of_nat c + 1)))
  else None.

Definition arrowKey (k : string) (s : Game) : Game :=
  match selectedCell s with
  | None => s
  | Some (r, c) =>
      match arrowTarget k r c with
      | None => s
      | Some target =>
          {| difficulty := difficulty s; board := board s;
             initialBoard := initialBoard s; solution := solution s;
             selectedCell := Some target; conflicts := conflicts s;
             isComplete := isComplete s; timerRunning := timerRunning s;
             timerReset := timerReset s; mistakes := mistakes s;
             notes := notes s; noteMode := noteMode s; history := history s;
             showComplete := showComplete s |}
      end
  end.

Definition toggleNoteMode (s : Game) : Game :=
  {| difficulty := difficulty s; board := board s;
     initialBoard := initialBoard s; solution := solution s;
     selectedCell := selectedCell s; conflicts := conflicts s;
     isComplete := isComplete s; timerRunning := timerRunning s;
     timerReset := timerReset s; mistakes := mistakes s;
     notes := notes s; noteMode := negb (noteMode s); history := history s;
     showComplete := showComplete s |}.

Definition timerResetDone (s : Game) : Game :=
  {| difficulty := difficulty s; board := board s;
     initialBoard := initialBoard s; solution := solution s;
     selectedCell := selectedCell s; conflicts := conflicts s;
     isComplete := isComplete s; timerRunning := timerRunning s;
     timerReset := false; mistakes := mistakes s;
     notes := notes s; noteMode := noteMode s; history := history s;
     showComplete := showComplete s |}.

Definition closeModal (s : Game) : Game :=
  {| difficulty := difficulty s; board := board s;
     initialBoard := initialBoard s; solution := solution s;
     selectedCell := selectedCell s; conflicts := conflicts s;
     isComplete := isComplete s; timerRunning := timerRunning s;
     timerReset := timerReset s; mistakes := mistakes s;
     notes := notes s; noteMode := noteMode s; history := history s;
     showComplete := false |}.

(** The difficulty buttons: [setDifficulty(d); newGame(d)]. *)
Definition chooseDifficulty (rand : nat -> nat) (k : nat) (d : Difficulty)
    (s : Game) : outcome Game :=
  match newGame rand k d s with
  | OutOfFuel => OutOfFuel
  | Ret s' =>
      Ret {| difficulty := d; board := board s';
             initialBoard := initialBoard s'; solution := solution s';
             selectedCell := selectedCell s'; conflicts := conflicts s';
             isComplete := isComplete s'; timerRunning := timerRunning s';
             timerReset := timerReset s'; mistakes := mistakes s';
             notes := notes s'; noteMode := noteMode s'; history := history s';
             showComplete := showComplete s' |}
  end.

(** What the player and the environment can do. *)
Inductive Event : Type :=
| PlaceNumber (num : Z)
| Erase
| Undo
| Hint
| Solve
| NewGame (k : nat)
| ChooseDifficulty (d : Difficulty) (k : nat)
| CellClick (r c : nat)
| ArrowKey (k : string)
| ToggleNoteMode
| TimerResetDone
| CloseModal.

Definition step (rand : nat -> nat) (e : Event) (s : Game) : outcome Game :=
  match e with
  | PlaceNumber num => Ret (placeNumber num s)
  | Erase => Ret (erase s)
  | Undo => Ret (undo s)
  | Hint => Ret (hint s)
  | Solve => handleSolve s
  | NewGame k => newGame rand k (difficulty s) s
  | ChooseDifficulty d k => chooseDifficulty rand k d s
  | CellClick r c => Ret (cellClick r c s)
  | ArrowKey k => Ret (arrowKey k s)
  | ToggleNoteMode => Ret (toggleNoteMode s)
  | TimerResetDone => Ret (timerResetDone s)
  | CloseModal => Ret (closeModal s)
  end.

(** The events the interface can produce: the buttons of the number pad and
    the keys 1 to 9 give a digit 1..9, only cells of the grid can be
    clicked. *)
Definition event_ok (e : Event) : Prop :=
  match e with
  | PlaceNumber num => digit num
  | CellClick r c => r < 9 /\ c < 9
  | _ => True
  end.

(** What holds of the state from the first [newGame] on: the solution is a
    Solution and the only completion of the initial board; the board and
    the boards of the undo history are well-formed and hold every given
    clue; the selection lies in the grid. *)
Definition game_ok (s : Game) : Prop :=
  Solution (solution s) /\
  carve_inv (solution s) (initialBoard s) /\
  (wf (board s) /\ extends (initialBoard s) (board s)) /\
  Forall (fun b => wf b /\ extends (initialBoard s) b) (history s) /\
  match selectedCell s with
  | Some (r, c) => r < 9 /\ c < 9
  | None => True
  end.

(** The states of a session: the component mounts with [newGame(difficulty)]
    on the state of the first render, and from then on every event the
    interface can produce gives the next state. *)
Inductive played (rand : nat -> nat) : Game -> Prop :=
| played_mount (k : nat) (s : Game) :
    newGame rand k medium initialGame = Ret s -> played rand s
| played_step (e : Event) (s s' : Game) :
    played rand s -> event_ok e -> step rand e s = Ret s' -> played rand s'.

(** The events whose handlers write to the board and push to the history. *)
Definition edits (e : Event) : bool :=
  match e with
  | PlaceNumber _ | Erase | Hint => true
  | _ => false
  end.

(** The notes of a cell, as the handlers read them: [prev[key] ?? []]. *)
Definition cell_notes (o : Notes) (r c : nat) : list Z :=
  match notes_get o (key r c) with
  | Some x => x
  | None => []
  end.

(** A game on [sample_puzzle] with the cell (0, 0) selected. *)
Definition sample_game : Game :=
  {| difficulty := medium; board := sample_puzzle;
     initialBoard := sample_puzzle; solution := sample_solution;
     selectedCell := Some (0, 0); conflicts := []; isComplete := false;
     timerRunning := true; timerReset := false; mistakes := 0%Z; notes := [];
     noteMode := false; history := []; showComplete := false |}.

(** How the status flags of a state hang together: the clock runs exactly
    while the game is not complete, the win dialog is shown only for a
    complete game, a game that is not complete does not show the solution,
    no board of the undo history is the solution, and the mistake counter
    is not negative. *)
Definition status_ok (s : Game) : Prop :=
  timerRunning s = negb (isComplete s) /\
  (showComplete s = true -> isComplete s = true) /\
  (isComplete s = false -> board s <> solution s) /\
  Forall (fun b => b <> solution s) (history s) /\
  (0 <= mistakes s)%Z.

(** The state after the mount with the oracle that always draws 0. *)
Definition first_game : Game :=
  match newGame (fun _ => 0) 0 medium initialGame with
  | Ret s => s
  | OutOfFuel => initialGame
  end.

(** A game one move before its end: only the cell (0, 0) is open. *)
Definition last_move_game : Game :=
  {| difficulty := medium; board := set sample_solution 0 0 Null;
     initialBoard := set sample_solution 0 0 Null;
     solution := sample_solution;
     selectedCell := Some (0, 0); conflicts := []; isComplete := false;
     timerRunning := true; timerReset := false; mistakes := 0%Z; notes := [];
     noteMode := false; history := []; showComplete := false |}.

(** The same game after the player has entered a 2 where a 1 belongs. *)
Definition clash_game : Game :=
  {| difficulty := medium; board := clash_grid;
     initialBoard := set sample_solution 0 0 Null;
     solution := sample_solution;
     selectedCell := Some (0, 0); conflicts := getConflicts clash_grid;
     isComplete := false;
     timerRunning := true; timerReset := false; mistakes := 1%Z; notes := [];
     noteMode := false; history := [set sample_solution 0 0 Null];
     showComplete := false |}.

(** ** The board component

    [SudokuBoard] draws every cell from the props it gets from the game
    state; of the drawing, the background and the text colour of a cell are
    modelled. *)

Inductive Background : Type :=
| CellBg | SelectedBg | ConflictBg | SameNumBg | RelatedBg.

Inductive TextColor : Type :=
| InitialColor | ConflictColor | CorrectColor | UserColor.

Definition isSelected (s : Game) (r c : nat) : bool :=
  match selectedCell s with
  | Some (r0, c0) => (r0 =? r) && (c0 =? c)
  | None => false
  end.

Definition isInitial (s : Game) (r c : nat) : bool :=
  negb (is_null (get (initialBoard s) r c)).

(** [conflicts.has(key)] *)
Definition isConflict (s : Game) (r c : nat) : bool :=
  existsb (String.eqb (key r c)) (conflicts s).

Definition isSameNum (s : Game) (r c : nat) : bool :=
  match selectedCell s with
  | Some (r0, c0) =>
      negb (is_null (get (board s) r0 c0))
      && cell_eqb (get (board s) r c) (get (board s) r0 c0)
  | None => false
  end.

Definition isRelated (s : Game) (r c : nat) : bool :=
  match selectedCell s with
  | Some (r0, c0) =>
      (r0 =? r) || (c0 =? c) || ((r0 / 3 =? r / 3) && (c0 / 3 =? c / 3))
  | None => false
  end.

Definition isCorrect (s : Game) (r c : nat) : bool :=
  negb (is_null (get (board s) r c))
  && cell_eqb (get (board s) r c) (get (solution s) r c).

Definition cell_bg (s : Game) (r c : nat) : Background :=
  if isSelected s r c then SelectedBg
  else if isConflict s r c then ConflictBg
  else if isSameNum s r c && negb (isSelected s r c) then SameNumBg
  else if isRelated s r c then RelatedBg
  else CellBg.

Definition cell_text (s : Game) (r c : nat) : TextColor :=
  if negb (isInitial s r c) then
    if isConflict s r c then ConflictColor
    else if isCorrect s r c then CorrectColor
    else UserColor
  else InitialColor.

(** ** The number pad *)

(** [counts[v] || 0] *)
Definition count_or_zero (counts : list (Z * Z)) (v : Z) : Z :=
  match obj_get Z.eqb counts v with
  | Some n => if (n =? 0)%Z then 0%Z else n
  | None => 0%Z
  end.

(** The object [counts] after the two loops: [if (v) counts[v] = ...] skips
    [null] and 0. *)
Definition counts (board : Board) : list (Z * Z) :=
  fold_left (fun counts r =>
    fold_left (fun counts c =>
      match get board r c with
      | Null => counts
      | Num v =>
          if (v =? 0)%Z then counts
          else obj_set Z.eqb counts v (count_or_zero counts v + 1)%Z
      end) (seq 0 9) counts)
    (seq 0 9) [].



(** ** The timer *)

(** [String(n)] for a natural number (below 2^53, where JS numbers are
    exact and are printed with all their digits). *)
Definition String_of_nat (n : nat) : string :=
  NilEmpty.string_of_uint (Nat.to_uint n).

(** [s.padStart(n, "0")] *)
Definition padStart0 (n : nat) (s : string) : string :=
  (string_of_list_ascii (repeat "0"%char (n - String.length s)) ++ s)%string.

(** The text of the timer after [seconds] ticks: [{mm}:{ss}]. *)
Definition timer_text (seconds : nat) : string :=
  (padStart0 2 (String_of_nat (seconds / 60)) ++ ":" ++
   padStart0 2 (String_of_nat (seconds mod 60)))%string.

(** Reading a decimal numeral, leading zeros allowed. *)
Definition read_nat (s : string) : option nat :=
  option_map Nat.of_uint (NilEmpty.uint_of_string s).

(** While the mistake counter shows 0, every entry on the board and on the
    boards of the undo history is the digit of the solution, and no conflict
    is on display. *)
Definition clean (s : Game) : Prop :=
  mistakes s = 0%Z ->
  extends (board s) (solution s) /\
  Forall (fun b => extends b (solution s)) (history s) /\
  conflicts s = [].

(** * Properties *)

(** ** Lists and boards *)

Lemma length_upd {A : Type} (i : nat) (x : A) (l : list A) :
  length (upd i x l) = length l.
Proof.
  revert i; induction l as [|h t IH]; intros [|i]; simpl; auto.
Qed.

Lemma nth_upd_same {A : Type} (i : nat) (x d : A) (l : list A) :
  i < length l -> nth i (upd i x l) d = x.
Proof.
  revert i; induction l as [|h t IH]; intros [|i]; simpl; intros H;
    try lia; auto.
  apply IH; lia.
Qed.

Lemma nth_upd_other {A : Type} (i j : nat) (x d : A) (l : list A) :
  i <> j -> nth j (upd i x l) d = nth j l d.
Proof.
  revert i j; induction l as [|h t IH]; intros [|i] [|j]; simpl; intros H;
    try lia; auto.
Qed.

Lemma shape9_row (b : Board) (r : nat) :
  shape9 b -> r < 9 -> length (nth r b []) = 9.
Proof.
  intros [Hl Hf] Hr. rewrite Forall_forall in Hf.
  apply Hf, nth_In; lia.
Qed.

Lemma get_set_same (b : Board) (r c : nat) (v : Cell) :
  shape9 b -> r < 9 -> c < 9 -> get (set b r c v) r c = v.
Proof.
  intros Hs Hr Hc. unfold get, set.
  rewrite nth_upd_same by (destruct Hs; lia).
  apply nth_upd_same. rewrite shape9_row; auto.
Qed.

Lemma get_set_other (b : Board) (r c r' c' : nat) (v : Cell) :
  r' <> r \/ c' <> c -> get (set b r c v) r' c' = get b r' c'.
Proof.
  intros H. unfold get, set.
  destruct (Nat.eq_dec r r') as [->|Hr].
  - destruct (Nat.lt_ge_cases r' (length b)) as [Hlt|Hge].
    + rewrite nth_upd_same by assumption. apply nth_upd_other. lia.
    + assert (E : forall l : list Cell, length b <= r' -> upd r' l b = b).
      { clear. revert r'. induction b as [|h t IH]; intros [|i] l Hl; simpl in *;
          try lia; auto. f_equal. apply IH. lia. }
      rewrite E by assumption. reflexivity.
  - rewrite nth_upd_other by assumption. reflexivity.
Qed.

Lemma shape9_set (b : Board) (r c : nat) (v : Cell) :
  shape9 b -> shape9 (set b r c v).
Proof.
  intros Hs. pose proof Hs as [Hl Hf]. unfold set. split.
  - rewrite length_upd. assumption.
  - rewrite Forall_forall in *. intros row Hin.
    destruct (In_nth _ _ [] Hin) as [i [Hi Hrow]].
    rewrite length_upd in Hi. subst row.
    destruct (Nat.eq_dec r i) as [->|Hne].
    + rewrite nth_upd_same by assumption. rewrite length_upd.
      apply Hf, nth_In. assumption.
    + rewrite nth_upd_other by assumption. apply Hf, nth_In. assumption.
Qed.

Lemma board_ext (a b : Board) :
  shape9 a -> shape9 b ->
  (forall r c, r < 9 -> c < 9 -> get a r c = get b r c) -> a = b.
Proof.
  intros Ha Hb H.
  apply (nth_ext a b [] []).
  - destruct Ha, Hb; congruence.
  - intros r Hr. assert (Hr9 : r < 9) by (destruct Ha; lia).
    apply (nth_ext _ _ Null Null).
    + rewrite !shape9_row; auto.
    + intros c Hc. rewrite shape9_row in Hc by auto. apply (H r c); auto.
Qed.

Lemma set_restore (b : Board) (r c : nat) (v : Cell) :
  shape9 b -> r < 9 -> c < 9 -> set (set b r c v) r c (get b r c) = b.
Proof.
  intros Hs Hr Hc. apply board_ext; auto using shape9_set.
  intros r' c' Hr' Hc'.
  destruct (Nat.eq_dec r' r) as [->|Hne].
  - destruct (Nat.eq_dec c' c) as [->|Hne].
    + apply get_set_same; auto using shape9_set.
    + rewrite !get_set_other; auto.
  - rewrite !get_set_other; auto.
Qed.

Lemma set_restore_eq (b : Board) (r c : nat) (v x : Cell) :
  shape9 b -> r < 9 -> c < 9 -> get b r c = x -> set (set b r c v) r c x = b.
Proof.
  intros Hs Hr Hc <-. apply set_restore; assumption.
Qed.

Lemma copy_id (b : Board) : copy b = b.
Proof.
  unfold copy. rewrite <- (map_id b) at 2. apply map_ext.
  intros row. apply map_id.
Qed.

Lemma get_map (f : Cell -> Cell) (b : Board) (r c : nat) :
  shape9 b -> r < 9 -> c < 9 ->
  get (map (fun row => map f row) b) r c = f (get b r c).
Proof.
  intros Hs Hr Hc. unfold get.
  rewrite (nth_indep _ [] (map f [])) by (rewrite length_map; destruct Hs; lia).
  rewrite (map_nth (fun row => map f row) b []).
  rewrite (nth_indep _ Null (f Null))
    by (rewrite length_map, shape9_row; auto).
  apply map_nth.
Qed.

Lemma shape9_map (f : Cell -> Cell) (b : Board) :
  shape9 b -> shape9 (map (fun row => map f row) b).
Proof.
  intros [Hl Hf]. split.
  - rewrite length_map. assumption.
  - rewrite Forall_forall in *. intros row Hin.
    apply in_map_iff in Hin. destruct Hin as [row0 [<- Hin0]].
    rewrite length_map. auto.
Qed.

(** ** The constraint checker *)

Lemma cell_eqb_eq (x y : Cell) : cell_eqb x y = true <-> x = y.
Proof.
  destruct x as [|a], y as [|b]; simpl; split; intros H;
    try discriminate; auto.
  - apply Z.eqb_eq in H. congruence.
  - inversion H. apply Z.eqb_refl.
Qed.

Lemma cell_eqb_neq (x y : Cell) : cell_eqb x y = false <-> x <> y.
Proof.
  rewrite <- cell_eqb_eq. destruct (cell_eqb x y); split; congruence.
Qed.

Lemma holds_false (x : Cell) (v : Z) : holds x v = false <-> x <> Num v.
Proof. apply cell_eqb_neq. Qed.

Lemma existsb_false {A : Type} (f : A -> bool) (l : list A) :
  existsb f l = false <-> forall x, In x l -> f x = false.
Proof.
  induction l as [|h t IH]; simpl.
  - split; auto. intros _ x [].
  - rewrite orb_false_iff, IH. split.
    + intros [Hh Ht] x [<-|Hin]; auto.
    + intros H. split; auto.
Qed.

(** The quotient and remainder of [n] by [k], as facts for [lia]. *)
Ltac div_facts n k :=
  pose proof (Nat.div_mod_eq n k); pose proof (Nat.mod_upper_bound n k).

Lemma in_box (r r' : nat) : In r' (seq (r / 3 * 3) 3) <-> r' / 3 = r / 3.
Proof.
  rewrite in_seq.
  div_facts r 3.
  div_facts r' 3.
  lia.
Qed.

Lemma box_lt9 (r r' : nat) : r < 9 -> r' / 3 = r / 3 -> r' < 9.
Proof.
  intros Hr H.
  div_facts r 3.
  div_facts r' 3.
  lia.
Qed.

Lemma in_coords (r c : nat) : In (r, c) coords <-> r < 9 /\ c < 9.
Proof.
  unfold coords. rewrite in_prod_iff, !in_seq. lia.
Qed.

Lemma three_tests (a b c : bool) :
  (if a then false else if b then false else if c then false else true) = true
  <-> a = false /\ b = false /\ c = false.
Proof. destruct a, b, c; simpl; intuition congruence. Qed.

Lemma isValid_spec (b : Board) (r c : nat) (v : Z) :
  r < 9 -> c < 9 ->
  (isValid b r c v = true <->
   forall r' c', r' < 9 -> c' < 9 -> sees r c r' c' -> get b r' c' <> Num v).
Proof.
  intros Hr Hc. unfold isValid. cbv zeta. rewrite three_tests.
  rewrite !existsb_false. split.
  - intros [H1 [H2 H3]] r' c' Hr' Hc' [->|[->|[Er Ec]]]; apply holds_false.
    + apply H1, in_seq; lia.
    + apply H2, in_seq; lia.
    + specialize (H3 r' (proj2 (in_box r r') Er)).
      rewrite existsb_false in H3. apply H3, in_box; assumption.
  - intros H. repeat split.
    + intros c' Hc'. apply in_seq in Hc'. apply holds_false, H; try lia.
      left; reflexivity.
    + intros r' Hr'. apply in_seq in Hr'. apply holds_false, H; try lia.
      right; left; reflexivity.
    + intros r' Hr'. apply in_box in Hr'. apply existsb_false.
      intros c' Hc'. apply in_box in Hc'. apply holds_false, H.
      * apply (@box_lt9 r r'); assumption.
      * apply (@box_lt9 c c'); assumption.
      * right; right; split; assumption.
Qed.

Lemma guarded_false (g : bool) (x : Cell) (v : Z) :
  g && holds x v = false <-> (g = true -> x <> Num v).
Proof.
  rewrite <- holds_false. destruct g; simpl; intuition congruence.
Qed.

Lemma isValidPlacement_spec (b : Board) (r c : nat) (v : Z) :
  r < 9 -> c < 9 ->
  (isValidPlacement b r c v = true <->
   forall r' c', r' < 9 -> c' < 9 -> peer r c r' c' -> get b r' c' <> Num v).
Proof.
  intros Hr Hc. unfold isValidPlacement. cbv zeta. rewrite three_tests.
  rewrite !existsb_false. split.
  - intros [H1 [H2 H3]] r' c' Hr' Hc' [Hne [->|[->|[Er Ec]]]].
    + assert (Hin : In c' (seq 0 9)) by (apply in_seq; lia).
      apply (proj1 (guarded_false _ _ _) (H1 c' Hin)).
      apply negb_true_iff, Nat.eqb_neq. lia.
    + assert (Hin : In r' (seq 0 9)) by (apply in_seq; lia).
      apply (proj1 (guarded_false _ _ _) (H2 r' Hin)).
      apply negb_true_iff, Nat.eqb_neq. lia.
    + specialize (H3 r' (proj2 (in_box r r') Er)).
      rewrite existsb_false in H3.
      apply (proj1 (guarded_false _ _ _) (H3 c' (proj2 (in_box c c') Ec))).
      apply orb_true_iff. rewrite !negb_true_iff, !Nat.eqb_neq. lia.
  - intros H. repeat split.
    + intros c' Hc'. apply in_seq in Hc'. apply guarded_false.
      rewrite negb_true_iff, Nat.eqb_neq. intros Hne.
      apply H; try lia. split; [right; assumption | left; reflexivity].
    + intros r' Hr'. apply in_seq in Hr'. apply guarded_false.
      rewrite negb_true_iff, Nat.eqb_neq. intros Hne.
      apply H; try lia. split; [left; assumption | right; left; reflexivity].
    + intros r' Hr'. apply in_box in Hr'. apply existsb_false.
      intros c' Hc'. apply in_box in Hc'. apply guarded_false.
      rewrite orb_true_iff, !negb_true_iff, !Nat.eqb_neq. intros Hne.
      apply H.
      * apply (@box_lt9 r r'); assumption.
      * apply (@box_lt9 c c'); assumption.
      * split; [assumption | right; right; split; assumption].
Qed.

Lemma peer_sym (r c r' c' : nat) : peer r c r' c' -> peer r' c' r c.
Proof. unfold peer. intuition (try congruence; auto). Qed.

Lemma peer_sees (r c r' c' : nat) : peer r c r' c' -> sees r c r' c'.
Proof. unfold peer, sees. tauto. Qed.

Lemma sees_self (r c : nat) : sees r c r c.
Proof. left; reflexivity. Qed.

(** ** The scan for the first empty cell *)

Lemma first_cell_some (blank : Cell) (b : Board) (r c : nat) :
  first_cell (fun x => cell_eqb x blank) b = Some (r, c) ->
  r < 9 /\ c < 9 /\ get b r c = blank.
Proof.
  unfold first_cell. intros H. apply find_some in H. destruct H as [Hin Hp].
  apply in_coords in Hin. simpl in Hp. apply cell_eqb_eq in Hp. tauto.
Qed.

Lemma first_cell_none (blank : Cell) (b : Board) :
  first_cell (fun x => cell_eqb x blank) b = None ->
  forall r c, r < 9 -> c < 9 -> get b r c <> blank.
Proof.
  unfold first_cell. intros H r c Hr Hc.
  pose proof (find_none _ _ H (r, c) (proj2 (in_coords r c) (conj Hr Hc))) as Hp.
  simpl in Hp. apply cell_eqb_neq in Hp. assumption.
Qed.

(** Filling a blank cell lowers the number of blank cells. *)
Lemma count_cells_set (blank : Cell) (b : Board) (r c : nat) (x : Cell) :
  shape9 b -> r < 9 -> c < 9 -> get b r c = blank -> x <> blank ->
  count_cells (fun y => cell_eqb y blank) (set b r c x)
  < count_cells (fun y => cell_eqb y blank) b.
Proof.
  intros Hs Hr Hc Hb Hx. unfold count_cells.
  assert (Hin : In (r, c) coords) by (apply in_coords; auto).
  revert Hin. generalize coords as l.
  assert (Hle : forall l : list (nat * nat),
    length (filter (fun rc => cell_eqb (get (set b r c x) (fst rc) (snd rc)) blank) l)
    <= length (filter (fun rc => cell_eqb (get b (fst rc) (snd rc)) blank) l)).
  { induction l as [|[r' c'] t IH]; simpl; auto.
    destruct (Nat.eq_dec r' r) as [->|Hne1].
    - destruct (Nat.eq_dec c' c) as [->|Hne2].
      + rewrite get_set_same by auto. rewrite Hb.
        rewrite (proj2 (cell_eqb_neq x blank) Hx).
        rewrite (proj2 (cell_eqb_eq blank blank) eq_refl). simpl. lia.
      + rewrite get_set_other by auto.
        destruct (cell_eqb (get b r c') blank); simpl; lia.
    - rewrite get_set_other by auto.
      destruct (cell_eqb (get b r' c') blank); simpl; lia. }
  induction l as [|[r' c'] t IH]; simpl; intros Hin; [contradiction|].
  destruct Hin as [E|Hin].
  - inversion E; subst r' c'. rewrite get_set_same by auto. rewrite Hb.
    rewrite (proj2 (cell_eqb_neq x blank) Hx).
    rewrite (proj2 (cell_eqb_eq blank blank) eq_refl). simpl.
    specialize (Hle t). lia.
  - specialize (IH Hin).
    destruct (Nat.eq_dec r' r) as [->|Hne1].
    + destruct (Nat.eq_dec c' c) as [->|Hne2].
      * rewrite get_set_same by auto. rewrite Hb.
        rewrite (proj2 (cell_eqb_neq x blank) Hx).
        rewrite (proj2 (cell_eqb_eq blank blank) eq_refl). simpl. lia.
      * rewrite get_set_other by auto.
        destruct (cell_eqb (get b r c') blank); simpl; lia.
    + rewrite get_set_other by auto.
      destruct (cell_eqb (get b r' c') blank); simpl; lia.
Qed.

Lemma count_cells_le81 (p : Cell -> bool) (b : Board) : count_cells p b <= 81.
Proof.
  unfold count_cells.
  eapply Nat.le_trans; [apply filter_length_le|]. reflexivity.
Qed.

(** ** Grids a backtracking search can reach *)

Lemma digit_in_digits (v : Z) : digit v <-> In v digits.
Proof.
  unfold digit, digits. simpl. lia.
Qed.

Section Reach.

Variable blank : Cell.
Hypothesis blank_not_digit : forall v, digit v -> blank <> Num v.

Lemma wf_with_set (g : Board) (r c : nat) (v : Z) :
  wf_with blank g -> r < 9 -> c < 9 -> digit v ->
  wf_with blank (set g r c (Num v)).
Proof.
  intros [Hs Hc] Hr Hcc Hv. split; [apply shape9_set; assumption|].
  intros r' c' Hr' Hc'.
  destruct (Nat.eq_dec r' r) as [->|Hne].
  - destruct (Nat.eq_dec c' c) as [->|Hne].
    + rewrite get_set_same by auto. right. exists v. auto.
    + rewrite get_set_other by auto. auto.
  - rewrite get_set_other by auto. auto.
Qed.

Lemma reachable_done (g s : Board) :
  wf_with blank g ->
  (forall r c, r < 9 -> c < 9 -> get g r c <> blank) ->
  (reachable blank g s <-> s = g).
Proof.
  intros [Hs Hc] Hnb. split.
  - intros [Hss [_ [Hk _]]]. apply board_ext; auto.
  - intros ->. repeat split; try (destruct Hs; assumption); auto.
    + intros r c Hr Hcc. destruct (Hc r c Hr Hcc) as [E|E]; auto.
      exfalso. apply (Hnb r c); assumption.
    + intros r c Hr Hcc E. exfalso. apply (Hnb r c); assumption.
Qed.

Lemma reachable_step (g s : Board) (r c : nat) (v : Z) :
  shape9 g -> r < 9 -> c < 9 -> get g r c = blank -> digit v ->
  isValid g r c v = true ->
  (reachable blank (set g r c (Num v)) s <->
   reachable blank g s /\ get s r c = Num v).
Proof.
  intros Hs Hr Hc Hb Hv Hval.
  rewrite isValid_spec in Hval by assumption.
  split.
  - intros [Hss [Hf [Hk Hn]]].
    assert (Hv' : get s r c = Num v).
    { rewrite (Hk r c Hr Hc); rewrite get_set_same by auto; auto.
      intros E. symmetry in E. revert E. apply blank_not_digit. assumption. }
    split; [|assumption]. repeat split; try (destruct Hss; assumption); auto.
    + intros r' c' Hr' Hc' Hne.
      destruct (Nat.eq_dec r' r) as [->|Hne1];
        [destruct (Nat.eq_dec c' c) as [->|Hne2]|]; try congruence.
      * rewrite (Hk r c') by (rewrite ?get_set_other; auto).
        apply get_set_other; auto.
      * rewrite (Hk r' c') by (rewrite ?get_set_other; auto).
        apply get_set_other; auto.
    + intros r' c' Hr' Hc' E.
      destruct (Nat.eq_dec r' r) as [->|Hne1];
        [destruct (Nat.eq_dec c' c) as [->|Hne2]|].
      * intros r2 c2 Hr2 Hc2 Hp. rewrite Hv'. intros E2.
        destruct (cell_eqb (get g r2 c2) blank) eqn:Eb.
        -- apply cell_eqb_eq in Eb.
           assert (Hn2 : no_clash s r2 c2).
           { apply Hn; auto. rewrite get_set_other; auto. destruct Hp; auto. }
           apply (Hn2 r c Hr Hc (peer_sym Hp)). congruence.
        -- apply cell_eqb_neq in Eb.
           assert (E3 : get s r2 c2 = get g r2 c2).
           { rewrite (Hk r2 c2) by
               (rewrite ?get_set_other; auto; destruct Hp; auto).
             apply get_set_other. destruct Hp; auto. }
           apply (Hval r2 c2 Hr2 Hc2 (peer_sees Hp)). congruence.
      * apply Hn; auto. rewrite get_set_other; auto.
      * apply Hn; auto. rewrite get_set_other; auto.
  - intros [[Hss [Hf [Hk Hn]]] Hv'].
    repeat split; try (destruct Hss; assumption); auto.
    + intros r' c' Hr' Hc' Hne.
      destruct (Nat.eq_dec r' r) as [->|Hne1];
        [destruct (Nat.eq_dec c' c) as [->|Hne2]|].
      * rewrite get_set_same by auto. assumption.
      * rewrite get_set_other in * by auto. auto.
      * rewrite get_set_other in * by auto. auto.
    + intros r' c' Hr' Hc' E.
      destruct (Nat.eq_dec r' r) as [->|Hne1];
        [destruct (Nat.eq_dec c' c) as [->|Hne2]|].
      * apply Hn; auto.
      * rewrite get_set_other in E by auto. auto.
      * rewrite get_set_other in E by auto. auto.
Qed.

Lemma reachable_invalid (g s : Board) (r c : nat) (v : Z) :
  r < 9 -> c < 9 -> get g r c = blank -> digit v ->
  isValid g r c v = false -> reachable blank g s -> get s r c <> Num v.
Proof.
  intros Hr Hc Hb Hv Hval [Hss [Hf [Hk Hn]]] Hv'.
  assert (Ht : isValid g r c v = true); [|congruence].
  apply isValid_spec; auto.
  intros r' c' Hr' Hc' Hsee E.
  assert (Hnb : get g r' c' <> blank).
  { rewrite E. intros E2. symmetry in E2. revert E2.
    apply blank_not_digit. assumption. }
  destruct (Nat.eq_dec r' r) as [->|Hne1];
    [destruct (Nat.eq_dec c' c) as [->|Hne2]|]; try congruence.
  - apply (Hn r c Hr Hc Hb r c'); auto.
    + split; auto.
    + rewrite (Hk r c'); auto. congruence.
  - apply (Hn r c Hr Hc Hb r' c'); auto.
    + split; auto.
    + rewrite (Hk r' c'); auto. congruence.
Qed.

Lemma reachable_value (g s : Board) (r c : nat) :
  r < 9 -> c < 9 -> reachable blank g s ->
  exists v, In v digits /\ get s r c = Num v.
Proof.
  intros Hr Hc [_ [Hf _]]. destruct (Hf r c Hr Hc) as [v [E Hv]].
  exists v. split; [apply digit_in_digits|]; assumption.
Qed.

End Reach.

Lemma null_not_digit (v : Z) : digit v -> Null <> Num v.
Proof. discriminate. Qed.

Lemma zero_not_digit (v : Z) : digit v -> Num 0 <> Num v.
Proof. unfold digit. intros H E. inversion E. lia. Qed.

Lemma isValid_ext (a b : Board) (r c : nat) (v : Z) :
  r < 9 -> c < 9 ->
  (forall r' c', r' < 9 -> c' < 9 ->
     (get a r' c' = Num v <-> get b r' c' = Num v)) ->
  isValid a r c v = isValid b r c v.
Proof.
  intros Hr Hc H.
  destruct (isValid a r c v) eqn:Ea, (isValid b r c v) eqn:Eb; auto.
  - rewrite isValid_spec in Ea by auto.
    rewrite <- Eb. symmetry. apply isValid_spec; auto.
    intros r' c' Hr' Hc' Hs E. apply (Ea r' c'); auto. apply H; auto.
  - rewrite isValid_spec in Eb by auto.
    rewrite <- Ea. apply isValid_spec; auto.
    intros r' c' Hr' Hc' Hs E. apply (Eb r' c'); auto. apply H; auto.
Qed.

Lemma isValid_null_to_zero (b : Board) (r c : nat) (v : Z) :
  shape9 b -> r < 9 -> c < 9 -> digit v ->
  isValid (null_to_zero b) r c v = isValid b r c v.
Proof.
  intros Hs Hr Hc Hv. apply isValid_ext; auto.
  intros r' c' Hr' Hc'. unfold null_to_zero. rewrite get_map by auto.
  destruct (get b r' c') as [|n]; simpl; [|tauto].
  unfold digit in Hv. split; intros E; inversion E. lia.
Qed.

Lemma zero_to_null_wf (b : Board) : wf b -> zero_to_null b = b.
Proof.
  intros [Hs Hc]. apply board_ext; auto.
  - apply shape9_map; assumption.
  - intros r c Hr Hcc. unfold zero_to_null. rewrite get_map by auto.
    destruct (Hc r c Hr Hcc) as [->|[v [-> Hv]]]; simpl; auto.
    unfold digit in Hv. destruct (v =? 0)%Z eqn:E; auto.
    apply Z.eqb_eq in E. lia.
Qed.

(** ** The solver *)


Lemma solve_try_spec (rec : Board -> outcome (bool * Board))
    (g : Board) (r c : nat) :
  wf g -> r < 9 -> c < 9 -> get g r c = Null ->
  (forall v, digit v -> solve_post (set g r c (Num v)) (rec (set g r c (Num v)))) ->
  forall nums, (forall v, In v nums -> digit v) ->
  (exists s, solve_try rec r c nums g = Ret (true, s) /\ reachable Null g s) \/
  (solve_try rec r c nums g = Ret (false, g) /\
   forall s, reachable Null g s -> forall v, In v nums -> get s r c <> Num v).
Proof.
  intros Hwf Hr Hc Hb Hrec. pose proof Hwf as [Hs _].
  induction nums as [|num rest IH]; intros Hd.
  - right. split; [reflexivity|]. intros s _ v [].
  - assert (Hnum : digit num) by (apply Hd; left; reflexivity).
    assert (Hd' : forall v, In v rest -> digit v) by (intros v Hv; apply Hd; right; assumption).
    specialize (IH Hd'). simpl.
    rewrite isValid_null_to_zero by assumption.
    destruct (isValid g r c num) eqn:Eval.
    + destruct (Hrec num Hnum) as [[s [-> Hreach]]|[-> Hnone]].
      * left. exists s. split; [reflexivity|].
        apply (reachable_step null_not_digit) in Hreach; tauto.
      * rewrite (set_restore_eq (Num num) Hs Hr Hc Hb).
        destruct IH as [IH|[E IH]]; [left; assumption|].
        right. split; [assumption|].
        intros s Hreach v [<-|Hin]; [|apply IH; assumption].
        intros Hv. apply (Hnone s).
        apply (reachable_step null_not_digit); auto.
    + destruct IH as [IH|[E IH]]; [left; assumption|].
      right. split; [assumption|].
      intros s Hreach v [<-|Hin]; [|apply IH; assumption].
      apply (reachable_invalid null_not_digit) with (g := g); auto.
Qed.

Lemma solve_spec (fuel : nat) :
  forall g, wf g -> count_cells is_null g < fuel -> solve_post g (solve fuel g).
Proof.
  induction fuel as [|fuel IH]; intros g Hwf Hfuel; [lia|].
  simpl. destruct (first_cell is_null g) as [[r c]|] eqn:Efirst.
  - apply (first_cell_some Null) in Efirst. destruct Efirst as [Hr [Hc Hb]].
    pose proof Hwf as [Hs _].
    destruct (@solve_try_spec (solve fuel) g r c Hwf Hr Hc Hb) with (nums := digits)
      as [Hok|[E Hno]].
    + intros v Hv. apply IH.
      * apply wf_with_set; assumption.
      * assert (Hne : Num v <> Null) by discriminate.
        pose proof (@count_cells_set Null g r c (Num v) Hs Hr Hc Hb Hne) as Hlt.
        unfold is_null in *. change (fun y => cell_eqb y Null) with is_null in *.
        unfold is_null in *. lia.
    + intros v. apply digit_in_digits.
    + left. assumption.
    + right. split; [assumption|]. intros s Hreach.
      destruct (reachable_value Hr Hc Hreach) as [v [Hin Hv]].
      apply (Hno s Hreach v Hin Hv).
  - left. exists g. split; [reflexivity|].
    apply (reachable_done); [assumption | | reflexivity].
    apply first_cell_none. assumption.
Qed.

(** ** Solutions *)

Lemma NoDup_map_in_inj {A B : Type} (f : A -> B) (l : list A) (a b : A) :
  NoDup (map f l) -> In a l -> In b l -> f a = f b -> a = b.
Proof.
  induction l as [|h t IH]; simpl; intros Hnd Ha Hb E; [contradiction|].
  inversion Hnd as [|x xs Hnotin Hnd']; subst.
  destruct Ha as [->|Ha], Hb as [->|Hb]; auto.
  - exfalso. apply Hnotin. rewrite E. apply in_map. assumption.
  - exfalso. apply Hnotin. rewrite <- E. apply in_map. assumption.
Qed.

Lemma NoDup_list_prod {A B : Type} (l1 : list A) (l2 : list B) :
  NoDup l1 -> NoDup l2 -> NoDup (list_prod l1 l2).
Proof.
  intros H1 H2. induction H1 as [|a l1 Hnotin H1 IH]; simpl; [constructor|].
  apply NoDup_app; auto.
  - apply NoDup_map_NoDup_ForallPairs; auto.
    intros x y _ _ E. inversion E. reflexivity.
  - intros [x y] Hin1 Hin2. apply in_map_iff in Hin1.
    destruct Hin1 as [y' [E _]]. inversion E; subst.
    apply in_prod_iff in Hin2. tauto.
Qed.

Lemma NoDup_digit_cells : NoDup (map Num digits).
Proof.
  apply NoDup_map_NoDup_ForallPairs.
  - intros x y _ _ E. inversion E. reflexivity.
  - unfold digits. repeat (constructor; [simpl; lia|]). constructor.
Qed.

Lemma in_digit_cells (x : Cell) :
  In x (map Num digits) <-> exists v, x = Num v /\ digit v.
Proof.
  rewrite in_map_iff. split; intros [v [E H]]; exists v;
    rewrite digit_in_digits in *; auto.
Qed.

Lemma in_box_cells (i j r c : nat) :
  In (r, c) (list_prod (seq (3 * i) 3) (seq (3 * j) 3)) <->
  r / 3 = i /\ c / 3 = j.
Proof.
  rewrite in_prod_iff, !in_seq.
  div_facts r 3.
  div_facts c 3.
  lia.
Qed.

Lemma div3_lt (r : nat) : r < 9 <-> r / 3 < 3.
Proof.
  div_facts r 3. lia.
Qed.

(** A grid is a [Solution] exactly when it is full and no cell clashes. *)
Lemma Solution_iff (s : Board) :
  Solution s <->
  shape9 s /\ full s /\ forall r c, r < 9 -> c < 9 -> no_clash s r c.
Proof.
  split.
  - intros [Hs [Hrow [Hcol Hbox]]]. split; [assumption|]. split.
    + intros r c Hr Hc. apply in_digit_cells.
      apply (Permutation_in _ (Hrow r Hr)).
      unfold row_cells. apply (in_map (fun c => get s r c)), in_seq. lia.
    + intros r c Hr Hc r' c' Hr' Hc' [Hne [->|[->|[Er Ec]]]] E.
      * assert (c' = c); [|lia].
        apply (@NoDup_map_in_inj _ _ (fun c => get s r c) (seq 0 9));
          try (apply in_seq; lia); auto.
        apply (Permutation_NoDup (Permutation_sym (Hrow r Hr))).
        apply NoDup_digit_cells.
      * assert (r' = r); [|lia].
        apply (@NoDup_map_in_inj _ _ (fun r => get s r c) (seq 0 9));
          try (apply in_seq; lia); auto.
        apply (Permutation_NoDup (Permutation_sym (Hcol c Hc))).
        apply NoDup_digit_cells.
      * assert ((r', c') = (r, c)) as E2; [|inversion E2; lia].
        apply (@NoDup_map_in_inj _ _ (fun rc => get s (fst rc) (snd rc))
                 (list_prod (seq (3 * (r / 3)) 3) (seq (3 * (c / 3)) 3)));
          try (apply in_box_cells; auto); auto.
        apply (Permutation_NoDup
                 (Permutation_sym (Hbox (r / 3) (c / 3)
                    (proj1 (div3_lt r) Hr) (proj1 (div3_lt c) Hc)))).
        apply NoDup_digit_cells.
  - intros [Hs [Hf Hn]]. split; [assumption|]. repeat split.
    + intros r Hr. apply NoDup_Permutation_bis.
      * apply NoDup_map_NoDup_ForallPairs; [|apply seq_NoDup].
        intros a b Ha Hb E. apply in_seq in Ha, Hb.
        destruct (Nat.eq_dec a b) as [|Hne]; [assumption|]. exfalso.
        apply (Hn r b Hr ltac:(lia) r a Hr ltac:(lia)); [|assumption].
        split; auto.
      * reflexivity.
      * intros x Hx. apply in_map_iff in Hx. destruct Hx as [c [<- Hc]].
        apply in_seq in Hc. apply in_digit_cells, Hf; lia.
    + intros c Hc. apply NoDup_Permutation_bis.
      * apply NoDup_map_NoDup_ForallPairs; [|apply seq_NoDup].
        intros a b Ha Hb E. apply in_seq in Ha, Hb.
        destruct (Nat.eq_dec a b) as [|Hne]; [assumption|]. exfalso.
        apply (Hn b c ltac:(lia) Hc a c ltac:(lia) Hc); [|assumption].
        split; auto.
      * reflexivity.
      * intros x Hx. apply in_map_iff in Hx. destruct Hx as [r [<- Hr]].
        apply in_seq in Hr. apply in_digit_cells, Hf; lia.
    + intros i j Hi Hj. apply NoDup_Permutation_bis.
      * apply NoDup_map_NoDup_ForallPairs;
          [|apply NoDup_list_prod; apply seq_NoDup].
        intros [r c] [r' c'] Ha Hb E. simpl in E.
        apply in_box_cells in Ha, Hb. destruct Ha as [Ha1 Ha2], Hb as [Hb1 Hb2].
        assert (r < 9) by (apply div3_lt; lia).
        assert (c < 9) by (apply div3_lt; lia).
        assert (r' < 9) by (apply div3_lt; lia).
        assert (c' < 9) by (apply div3_lt; lia).
        destruct (Nat.eq_dec r r') as [->|Hne1];
          [destruct (Nat.eq_dec c c') as [->|Hne2]|]; auto; exfalso.
        -- apply (Hn r' c' ltac:(lia) ltac:(lia) r' c); auto. split; auto.
        -- apply (Hn r' c' ltac:(lia) ltac:(lia) r c); auto.
           split; auto. right; right. lia.
      * reflexivity.
      * intros x Hx. apply in_map_iff in Hx. destruct Hx as [[r c] [<- Hrc]].
        apply in_box_cells in Hrc. simpl.
        apply in_digit_cells, Hf; apply div3_lt; lia.
Qed.

(** On a grid without duplicates among its givens, the grids a search can
    reach are exactly the completions that are valid Solutions. *)
Lemma reachable_completion (g s : Board) :
  consistent g -> (reachable Null g s <-> completion g s).
Proof.
  intros Hcons. unfold completion. rewrite Solution_iff. split.
  - intros [Hs [Hf [Hk Hn]]]. split; [|exact Hk].
    repeat split; try (destruct Hs; assumption); auto.
    intros r c Hr Hc.
    destruct (cell_eqb (get g r c) Null) eqn:E.
    + apply cell_eqb_eq in E. auto.
    + apply cell_eqb_neq in E. intros r' c' Hr' Hc' Hp.
      destruct (cell_eqb (get g r' c') Null) eqn:E'.
      * apply cell_eqb_eq in E'. intros E2.
        apply (Hn r' c' Hr' Hc' E' r c Hr Hc (peer_sym Hp)). congruence.
      * apply cell_eqb_neq in E'. rewrite (Hk r c), (Hk r' c') by auto.
        apply Hcons; auto.
  - intros [[Hs [Hf Hn]] Hk]. repeat split; try (destruct Hs; assumption); auto.
Qed.

(** ** The bounded solution counter *)


Lemma count_try_cons (rec : Board -> Z -> outcome Z) (board : Board)
    (row col : nat) (limit num : Z) (rest : list Z) (count : Z) :
  count_try rec board row col limit (num :: rest) count =
  if isValid (copy board) row col num then
    match rec (zero_to_null (set (copy board) row col (Num num)))
              (limit - count)%Z with
    | OutOfFuel => OutOfFuel
    | Ret n =>
        if (limit <=? count + n)%Z then Ret (count + n)%Z
        else count_try rec board row col limit rest (count + n)%Z
    end
  else count_try rec board row col limit rest count.
Proof. reflexivity. Qed.

Lemma count_try_spec (rec : Board -> Z -> outcome Z) (g : Board) (r c : nat) :
  wf g -> r < 9 -> c < 9 -> get g r c = Null ->
  (forall v, digit v -> count_post (set g r c (Num v)) (rec (set g r c (Num v)))) ->
  forall nums, NoDup nums -> (forall v, In v nums -> digit v) ->
  exists l, NoDup l /\
    (forall s, In s l <->
       reachable Null g s /\ exists v, In v nums /\ get s r c = Num v) /\
    forall limit count, (0 <= count < limit)%Z ->
      count_try rec g r c limit nums count
      = Ret (Z.min limit (count + Z.of_nat (length l))).
Proof.
  intros Hwf Hr Hc Hb Hrec. pose proof Hwf as [Hs _].
  induction nums as [|num rest IH]; intros Hnd Hd.
  - exists []. split; [constructor|]. split.
    + intros s. simpl. split; [tauto|]. intros [_ [v [[] _]]].
    + intros limit count Hcount. simpl. f_equal. lia.
  - inversion Hnd as [|x xs Hnotin Hnd']; subst.
    assert (Hnum : digit num) by (apply Hd; left; reflexivity).
    assert (Hd' : forall v, In v rest -> digit v)
      by (intros v Hv; apply Hd; right; assumption).
    destruct (IH Hnd' Hd') as [lr [NDr [Inr Eqr]]].
    destruct (isValid g r c num) eqn:Eval.
    + destruct (Hrec num Hnum) as [lv [NDv [Inv Eqv]]].
      exists (lv ++ lr). split; [|split].
      * apply NoDup_app; auto. intros s Hv Hrest.
        apply Inv, (reachable_step null_not_digit) in Hv; auto.
        apply Inr in Hrest. destruct Hrest as [_ [v [Hin Hv']]].
        destruct Hv as [_ Hv]. rewrite Hv in Hv'. inversion Hv'. subst v.
        contradiction.
      * intros s. rewrite in_app_iff, Inv, Inr.
        rewrite (reachable_step null_not_digit) by auto. split.
        -- intros [[Hreach Hv]|[Hreach [v [Hin Hv]]]].
           ++ split; auto. exists num. split; [left; reflexivity | assumption].
           ++ split; auto. exists v. split; [right|]; assumption.
        -- intros [Hreach [v [[<-|Hin] Hv]]]; [left; auto|].
           right. split; auto. exists v. auto.
      * intros limit count Hcount.
        rewrite count_try_cons, copy_id, Eval.
        rewrite zero_to_null_wf
          by (apply (wf_with_set (blank := Null)); assumption).
        rewrite Eqv by lia. rewrite length_app, Nat2Z.inj_add.
        destruct (limit <=? count + Z.min (limit - count) (Z.of_nat (length lv)))%Z
          eqn:Ecap.
        -- apply Z.leb_le in Ecap. f_equal. lia.
        -- apply Z.leb_gt in Ecap. rewrite Eqr by lia. f_equal. lia.
    + exists lr. split; [assumption|]. split.
      * intros s. rewrite Inr. split.
        -- intros [Hreach [v [Hin Hv]]]. split; auto. exists v.
           split; [right|]; assumption.
        -- intros [Hreach [v [[<-|Hin] Hv]]].
           ++ exfalso. revert Hv.
              apply (reachable_invalid null_not_digit) with (g := g); auto.
           ++ split; auto. exists v. auto.
      * intros limit count Hcount.
        rewrite count_try_cons, copy_id, Eval. apply Eqr. assumption.
Qed.

Lemma NoDup_digits : NoDup digits.
Proof.
  unfold digits. repeat (constructor; [simpl; lia|]). constructor.
Qed.

Lemma countSolutions_fuel_S (fuel : nat) (board : Board) (limit : Z) :
  countSolutions_fuel (S fuel) board limit =
  match first_cell is_null board with
  | Some (row, col) =>
      count_try (countSolutions_fuel fuel) board row col limit digits 0%Z
  | None => Ret 1%Z
  end.
Proof. reflexivity. Qed.

Lemma count_spec (fuel : nat) :
  forall g, wf g -> count_cells is_null g < fuel ->
  count_post g (countSolutions_fuel fuel g).
Proof.
  induction fuel as [|fuel IH]; intros g Hwf Hfuel; [lia|].
  pose proof Hwf as [Hs _].
  destruct (first_cell is_null g) as [[r c]|] eqn:Efirst.
  - pose proof (first_cell_some Null _ Efirst) as [Hr [Hc Hb]].
    destruct (@count_try_spec (countSolutions_fuel fuel) g r c Hwf Hr Hc Hb)
      with (nums := digits) as [l [ND [Hin Heq]]].
    + intros v Hv. apply IH.
      * apply wf_with_set; assumption.
      * assert (Hne : Num v <> Null) by discriminate.
        pose proof (@count_cells_set Null g r c (Num v) Hs Hr Hc Hb Hne) as Hlt.
        change (fun y => cell_eqb y Null) with is_null in Hlt. lia.
    + apply NoDup_digits.
    + intros v. apply digit_in_digits.
    + exists l. split; [assumption|]. split.
      * intros s. rewrite Hin. split; [tauto|]. intros Hreach. split; auto.
        apply (reachable_value Hr Hc Hreach).
      * intros limit Hlimit. rewrite countSolutions_fuel_S, Efirst.
        rewrite Heq by lia. f_equal.
  - exists [g]. split; [repeat constructor; auto|]. split.
    + intros s. rewrite reachable_done; auto.
      * simpl. intuition congruence.
      * apply first_cell_none. assumption.
    + intros limit Hlimit. rewrite countSolutions_fuel_S, Efirst.
      simpl length. f_equal. lia.
Qed.

(** ** The shuffle *)

Lemma upd_swap_head {T : Type} (h y : T) (t : list T) (j : nat) :
  nth_error t j = Some y -> Permutation (y :: upd j h t) (h :: t).
Proof.
  revert j. induction t as [|z t IH]; intros [|j] H; simpl in *;
    try discriminate.
  - inversion H; subst. apply perm_swap.
  - eapply perm_trans; [apply perm_swap|].
    eapply perm_trans; [apply perm_skip, IH, H|]. apply perm_swap.
Qed.

Lemma swap_perm {T : Type} (a : list T) (i j : nat) :
  Permutation (swap a i j) a.
Proof.
  unfold swap.
  destruct (nth_error a i) as [x|] eqn:Ei; [|reflexivity].
  destruct (nth_error a j) as [y|] eqn:Ej; [|reflexivity].
  revert i j x y Ei Ej. induction a as [|h t IH]; intros [|i] [|j] x y Ei Ej;
    simpl in *; try discriminate.
  - inversion Ei; inversion Ej; subst. reflexivity.
  - inversion Ei; subst. apply upd_swap_head. assumption.
  - inversion Ej; subst. apply upd_swap_head. assumption.
  - apply perm_skip. apply IH; assumption.
Qed.

Lemma shuffle_loop_perm (rand : nat -> nat) {T : Type} (i : nat) :
  forall (a : list T) (k : nat), Permutation (fst (shuffle_loop rand i a k)) a.
Proof.
  induction i as [|i IH]; intros a k; simpl; [reflexivity|].
  eapply perm_trans; [apply IH|]. apply swap_perm.
Qed.

Lemma shuffle_perm (rand : nat -> nat) {T : Type} (arr : list T) (k : nat) :
  Permutation (fst (shuffle rand arr k)) arr.
Proof. apply shuffle_loop_perm. Qed.

(** ** The filler *)


Lemma fill_try_spec (rec : nat -> Board -> outcome (bool * Board * nat))
    (g : Board) (r c : nat) :
  wf_with (Num 0) g -> r < 9 -> c < 9 -> get g r c = Num 0 ->
  (forall v k, digit v ->
     fill_post (set g r c (Num v)) (rec k (set g r c (Num v)))) ->
  forall nums, (forall v, In v nums -> digit v) -> forall k,
  (exists s k', fill_try rec r c nums g k = Ret (true, s, k') /\
                reachable (Num 0) g s) \/
  (exists k', fill_try rec r c nums g k = Ret (false, g, k') /\
   forall s, reachable (Num 0) g s ->
     forall v, In v nums -> get s r c <> Num v).
Proof.
  intros Hwf Hr Hc Hb Hrec. pose proof Hwf as [Hs _].
  induction nums as [|num rest IH]; intros Hd k.
  - right. exists k. split; [reflexivity|]. intros s _ v [].
  - assert (Hnum : digit num) by (apply Hd; left; reflexivity).
    assert (Hd' : forall v, In v rest -> digit v)
      by (intros v Hv; apply Hd; right; assumption).
    specialize (IH Hd'). simpl.
    destruct (isValid g r c num) eqn:Eval.
    + destruct (Hrec num k Hnum) as [[s [k' [-> Hreach]]]|[k' [-> Hnone]]].
      * left. exists s, k'. split; [reflexivity|].
        apply (reachable_step zero_not_digit) in Hreach; tauto.
      * rewrite (set_restore_eq (Num num) Hs Hr Hc Hb).
        destruct (IH k') as [Hok|[k2 [E Hno]]]; [left; assumption|].
        right. exists k2. split; [assumption|].
        intros s Hreach v [<-|Hin]; [|apply Hno; assumption].
        intros Hv. apply (Hnone s).
        apply (reachable_step zero_not_digit); auto.
    + destruct (IH k) as [Hok|[k2 [E Hno]]]; [left; assumption|].
      right. exists k2. split; [assumption|].
      intros s Hreach v [<-|Hin]; [|apply Hno; assumption].
      apply (reachable_invalid zero_not_digit) with (g := g); auto.
Qed.

Lemma fillBoard_S (rand : nat -> nat) (fuel k : nat) (board : Board) :
  fillBoard rand (S fuel) k board =
  match first_cell is_zero board with
  | Some (row, col) =>
      let (nums, k1) := shuffle rand digits k in
      fill_try (fillBoard rand fuel) row col nums board k1
  | None => Ret (true, board, k)
  end.
Proof. reflexivity. Qed.

Lemma fill_spec (rand : nat -> nat) (fuel : nat) :
  forall g k, wf_with (Num 0) g -> count_cells is_zero g < fuel ->
  fill_post g (fillBoard rand fuel k g).
Proof.
  induction fuel as [|fuel IH]; intros g k Hwf Hfuel; [lia|].
  rewrite fillBoard_S. destruct (first_cell is_zero g) as [[r c]|] eqn:Efirst.
  - apply (first_cell_some (Num 0)) in Efirst. destruct Efirst as [Hr [Hc Hb]].
    pose proof Hwf as [Hs _].
    pose proof (shuffle_perm rand digits k) as Hperm.
    destruct (shuffle rand digits k) as [nums k1]. simpl in Hperm.
    destruct (@fill_try_spec (fillBoard rand fuel) g r c Hwf Hr Hc Hb)
      with (nums := nums) (k := k1) as [Hok|[k2 [E Hno]]].
    + intros v k' Hv. apply IH.
      * apply wf_with_set; auto using zero_not_digit.
      * assert (Hne : Num v <> Num 0) by (intros E; symmetry in E; revert E; apply zero_not_digit; assumption).
        pose proof (@count_cells_set (Num 0) g r c (Num v) Hs Hr Hc Hb Hne) as Hlt.
        change (fun y => cell_eqb y (Num 0)) with is_zero in Hlt. lia.
    + intros v Hv. apply digit_in_digits.
      apply (Permutation_in _ Hperm). assumption.
    + left. assumption.
    + right. exists k2. split; [assumption|]. intros s Hreach.
      destruct (reachable_value Hr Hc Hreach) as [v [Hin Hv]].
      apply (Hno s Hreach v); [|assumption].
      apply (Permutation_in _ (Permutation_sym Hperm)). assumption.
  - left. exists g, k. split; [reflexivity|].
    apply reachable_done; [assumption | | reflexivity].
    apply first_cell_none. assumption.
Qed.

(** ** The executable test for solutions *)

Lemma shape9b_spec (b : Board) : shape9b b = true <-> shape9 b.
Proof.
  unfold shape9b, shape9. rewrite andb_true_iff, Nat.eqb_eq, forallb_forall,
    Forall_forall.
  split; intros [H1 H2]; split; auto; intros x Hx; apply Nat.eqb_eq; auto.
Qed.

Lemma is_clue_spec (x : Cell) :
  is_clue x = true <-> exists v, x = Num v /\ digit v.
Proof.
  destruct x as [|n]; simpl.
  - split; [discriminate|]. intros [v [E _]]. discriminate.
  - rewrite andb_true_iff, !Z.leb_le. unfold digit. split.
    + intros H. exists n. auto.
    + intros [v [E H]]. inversion E. subst. assumption.
Qed.

Lemma is_solution_spec (s : Board) : is_solution s = true <-> Solution s.
Proof.
  rewrite Solution_iff. unfold is_solution.
  rewrite andb_true_iff, shape9b_spec, forallb_forall. split.
  - intros [Hs H].
    assert (H' : forall r c, r < 9 -> c < 9 ->
      exists v, get s r c = Num v /\ digit v /\ isValidPlacement s r c v = true).
    { intros r c Hr Hc. specialize (H (r, c) (proj2 (in_coords r c) (conj Hr Hc))).
      simpl in H. destruct (get s r c) as [|v] eqn:E; [discriminate|].
      apply andb_true_iff in H. destruct H as [H1 H2].
      exists v. split; [reflexivity|]. split; [|assumption].
      apply (is_clue_spec (Num v)) in H1. destruct H1 as [v' [E' Hv']].
      inversion E'. subst. assumption. }
    split; [assumption|]. split.
    + intros r c Hr Hc. destruct (H' r c Hr Hc) as [v [E [Hv _]]]. eauto.
    + intros r c Hr Hc r' c' Hr' Hc' Hp.
      destruct (H' r c Hr Hc) as [v [E [_ Hval]]]. rewrite E.
      rewrite isValidPlacement_spec in Hval by assumption. auto.
  - intros [Hs [Hf Hn]]. split; [assumption|].
    intros [r c] Hin. apply in_coords in Hin. destruct Hin as [Hr Hc]. simpl.
    destruct (Hf r c Hr Hc) as [v [E Hv]]. rewrite E.
    apply andb_true_iff. split.
    + apply (is_clue_spec (Num v)). eauto.
    + apply isValidPlacement_spec; auto. intros r' c' Hr' Hc' Hp.
      rewrite <- E. apply Hn; assumption.
Qed.

(** ** The filler on the empty grid *)

Lemma sample_solution_ok : Solution sample_solution.
Proof. apply is_solution_spec. vm_compute. reflexivity. Qed.

Lemma blank_board_get (r c : nat) : r < 9 -> c < 9 -> get blank_board r c = Num 0.
Proof.
  intros Hr Hc.
  do 9 (destruct r as [|r]; [do 9 (destruct c as [|c]; [reflexivity|]); lia|]).
  lia.
Qed.

Lemma blank_board_wf : wf_with (Num 0) blank_board.
Proof.
  split.
  - apply shape9b_spec. reflexivity.
  - intros r c Hr Hc. left. apply blank_board_get; assumption.
Qed.

Lemma blank_board_cells : count_cells is_zero blank_board = 81.
Proof. reflexivity. Qed.

(** Every Solution can be reached from the empty grid. *)
Lemma blank_board_reach (s : Board) :
  reachable (Num 0) blank_board s <-> Solution s.
Proof.
  rewrite Solution_iff. split.
  - intros [Hs [Hf [_ Hn]]]. repeat split; try (destruct Hs; assumption); auto.
    intros r c Hr Hc. apply Hn; auto using blank_board_get.
  - intros [Hs [Hf Hn]]. repeat split; try (destruct Hs; assumption); auto.
    intros r c Hr Hc Hne. exfalso. apply Hne. apply blank_board_get; assumption.
Qed.

(** The filler, started on the empty grid with the fuel of the generator,
    ends with a Solution. *)
Lemma fill_blank_board (rand : nat -> nat) (k : nat) :
  exists s k', fillBoard rand search_fuel k blank_board = Ret (true, s, k') /\
               Solution s.
Proof.
  destruct (@fill_spec rand search_fuel blank_board k blank_board_wf)
    as [[s [k' [E Hreach]]]|[k' [_ Hnone]]].
  - rewrite blank_board_cells. unfold search_fuel. lia.
  - exists s, k'. split; [assumption|]. apply blank_board_reach. assumption.
  - exfalso. apply (Hnone sample_solution).
    apply blank_board_reach, sample_solution_ok.
Qed.

(** C4: for every sequence of random draws, [fillBoard] on the all-empty
    grid returns within a recursion depth bounded by the number of empty
    cells, reports success, and leaves a fully filled grid (which is a valid
    Solution). *)
Theorem fillBoard_never_fails (rand : nat -> nat) (k fuel : nat) :
  count_cells is_zero blank_board < fuel ->
  exists s k', fillBoard rand fuel k blank_board = Ret (true, s, k') /\
               full s /\ Solution s.
Proof.
  intros Hfuel.
  destruct (@fill_spec rand fuel blank_board k blank_board_wf Hfuel)
    as [[s [k' [E Hreach]]]|[k' [_ Hnone]]].
  - exists s, k'. split; [assumption|].
    apply blank_board_reach in Hreach. split; [|assumption].
    apply Solution_iff in Hreach. tauto.
  - exfalso. apply (Hnone sample_solution).
    apply blank_board_reach, sample_solution_ok.
Qed.

Lemma fillBoard_never_fails_witness :
  count_cells is_zero blank_board < search_fuel /\
  exists s k', fillBoard (fun _ => 0) search_fuel 0 blank_board = Ret (true, s, k') /\
               full s /\ Solution s.
Proof.
  assert (H : count_cells is_zero blank_board < search_fuel)
    by (vm_compute; lia).
  split; [exact H|].
  apply (@fillBoard_never_fails (fun _ => 0) 0 search_fuel H).
Defined.

(** ** The carving loop *)

Lemma filter_length_same {A : Type} (P P' : A -> bool) (l : list A) :
  (forall y, In y l -> P y = P' y) ->
  length (filter P l) = length (filter P' l).
Proof.
  induction l as [|h t IH]; intros H; simpl; [reflexivity|].
  rewrite <- (H h (or_introl eq_refl)).
  assert (E : length (filter P t) = length (filter P' t))
    by (apply IH; intros y Hy; apply H; right; assumption).
  destruct (P h); simpl; lia.
Qed.

(** Changing the test at one place of a duplicate-free list moves the count
    by at most one. *)
Lemma filter_length_change {A : Type} (P P' : A -> bool) (a : A) (l : list A) :
  (forall x y : A, {x = y} + {x <> y}) ->
  NoDup l -> (forall y, In y l -> y <> a -> P y = P' y) ->
  length (filter P l) <= length (filter P' l) + 1.
Proof.
  intros dec Hnd. induction Hnd as [|h t Hnotin Hnd IH]; intros H; simpl; [lia|].
  destruct (dec h a) as [->|Hne].
  - assert (E : length (filter P t) = length (filter P' t)).
    { apply filter_length_same. intros y Hy.
      apply H; [right; assumption|]. intros ->. contradiction. }
    destruct (P a), (P' a); simpl; lia.
  - rewrite <- (H h (or_introl eq_refl) Hne).
    assert (IH' : length (filter P t) <= length (filter P' t) + 1)
      by (apply IH; intros y Hy; apply H; right; assumption).
    destruct (P h); simpl; lia.
Qed.

Lemma all_cells_coords : all_cells = coords.
Proof. reflexivity. Qed.

Section Carving.

Variable sol : Board.
Hypothesis sol_ok : Solution sol.

Lemma sol_shape : shape9 sol.
Proof. destruct sol_ok; assumption. Qed.

Lemma sol_full : full sol.
Proof. apply Solution_iff in sol_ok. tauto. Qed.

Lemma sol_no_clash (r c : nat) : r < 9 -> c < 9 -> no_clash sol r c.
Proof. apply Solution_iff in sol_ok. destruct sol_ok as [_ [_ H]]. apply H. Qed.

Lemma carve_inv_init : carve_inv sol sol.
Proof.
  split; [apply sol_shape|]. split; [auto|].
  intros s [Hs Hext]. apply board_ext; [destruct Hs; assumption | apply sol_shape |].
  intros r c Hr Hc. apply Hext; auto.
  destruct (sol_full Hr Hc) as [v [E _]]. rewrite E. discriminate.
Qed.

Lemma carve_inv_wf (p : Board) : carve_inv sol p -> wf p.
Proof.
  intros [Hs [Hsub _]]. split; [assumption|].
  intros r c Hr Hc. destruct (Hsub r c Hr Hc) as [E|E]; [left; assumption|].
  right. rewrite E. apply sol_full; assumption.
Qed.

Lemma carve_inv_consistent (p : Board) : carve_inv sol p -> consistent p.
Proof.
  intros [Hs [Hsub _]] r c Hr Hc Hne r' c' Hr' Hc' Hp.
  destruct (Hsub r c Hr Hc) as [E|E]; [contradiction|].
  destruct (Hsub r' c' Hr' Hc') as [E'|E'].
  - rewrite E'. auto.
  - rewrite E, E'. apply sol_no_clash; assumption.
Qed.

Lemma carve_inv_extends (p : Board) : carve_inv sol p -> completion p sol.
Proof.
  intros [Hs [Hsub _]]. split; [exact sol_ok|].
  intros r c Hr Hc Hne. destruct (Hsub r c Hr Hc) as [E|E]; congruence.
Qed.

(** The two-solution test of the carver on a board that keeps only cells of
    the answer key: it returns, and the answer 1 means the answer key is the
    only completion. *)
Lemma countSolutions_unique (p : Board) :
  shape9 p ->
  (forall r c, r < 9 -> c < 9 -> get p r c = Null \/ get p r c = get sol r c) ->
  exists n, countSolutions p 2 = Ret n /\
    (n = 1%Z -> forall s, completion p s -> s = sol).
Proof.
  intros Hs Hsub.
  assert (Hwf : wf p).
  { split; [assumption|]. intros r c Hr Hc.
    destruct (Hsub r c Hr Hc) as [E|E]; [left; assumption|].
    right. rewrite E. apply sol_full; assumption. }
  assert (Hcons : consistent p).
  { intros r c Hr Hc Hne r' c' Hr' Hc' Hp.
    destruct (Hsub r c Hr Hc) as [E|E]; [contradiction|].
    destruct (Hsub r' c' Hr' Hc') as [E'|E'].
    - rewrite E'. auto.
    - rewrite E, E'. apply sol_no_clash; assumption. }
  assert (Hsol : completion p sol).
  { split; [exact sol_ok|]. intros r c Hr Hc Hne.
    destruct (Hsub r c Hr Hc) as [E|E]; congruence. }
  destruct (@count_spec search_fuel p Hwf) as [l [ND [Hin Heq]]].
  { pose proof (count_cells_le81 is_null p). unfold search_fuel. lia. }
  exists (Z.min 2 (Z.of_nat (length l))). split.
  - apply Heq. lia.
  - clear Heq. intros Hone s Hcomp.
    apply (reachable_completion _ Hcons), Hin in Hcomp.
    apply (reachable_completion _ Hcons), Hin in Hsol.
    destruct l as [|x [|y l']]; simpl in Hone, Hcomp, Hsol; try lia.
    intuition congruence.
Qed.

Lemma clue_count_blank (p : Board) (r c : nat) :
  (clue_count p <= clue_count (set p r c Null) + 1)%Z.
Proof.
  unfold clue_count, count_cells.
  pose proof (@filter_length_change _
    (fun rc => is_clue (get p (fst rc) (snd rc)))
    (fun rc => is_clue (get (set p r c Null) (fst rc) (snd rc)))
    (r, c) coords) as H.
  assert (length (filter (fun rc => is_clue (get p (fst rc) (snd rc))) coords)
          <= length (filter (fun rc =>
               is_clue (get (set p r c Null) (fst rc) (snd rc))) coords) + 1);
    [|lia].
  apply H.
  - intros [x1 y1] [x2 y2].
    destruct (Nat.eq_dec x1 x2) as [->|Hne]; [|right; congruence].
    destruct (Nat.eq_dec y1 y2) as [->|Hne]; [left; reflexivity|right; congruence].
  - apply NoDup_list_prod; apply seq_NoDup.
  - intros [r' c'] _ Hne. simpl. rewrite get_set_other; [reflexivity|].
    destruct (Nat.eq_dec r' r) as [->|Hne1]; [right|left; assumption].
    intros ->. apply Hne. reflexivity.
Qed.

(** The carving loop keeps the invariant: a removal is kept only when the
    answer key stays the only completion. *)
Lemma carve_unique (cells : list (nat * nat)) (target : Z) :
  (forall rc, In rc cells -> fst rc < 9 /\ snd rc < 9) ->
  forall p removed, carve_inv sol p ->
  exists p', carve cells target p removed = Ret p' /\ carve_inv sol p'.
Proof.
  induction cells as [|[row col] rest IH]; intros Hcells p removed Hinv.
  - exists p. split; [reflexivity | assumption].
  - cbn [carve]. destruct (target <=? removed)%Z.
    + exists p. split; [reflexivity | assumption].
    + destruct (Hcells (row, col) (or_introl eq_refl)) as [Hr Hc]. simpl in Hr, Hc.
      assert (Hrest : forall rc, In rc rest -> fst rc < 9 /\ snd rc < 9)
        by (intros rc Hrc; apply Hcells; right; assumption).
      pose proof Hinv as [Hs [Hsub Huniq]].
      rewrite copy_id.
      assert (Hsub1 : forall r c, r < 9 -> c < 9 ->
        get (set p row col Null) r c = Null \/
        get (set p row col Null) r c = get sol r c).
      { intros r c Hr' Hc'.
        destruct (Nat.eq_dec r row) as [->|Hne1];
          [destruct (Nat.eq_dec c col) as [->|Hne2]|].
        - left. apply get_set_same; assumption.
        - rewrite get_set_other by auto. auto.
        - rewrite get_set_other by auto. auto. }
      destruct (@countSolutions_unique (set p row col Null)
                  (shape9_set row col Null Hs) Hsub1) as [n [-> Hone]].
      destruct (n =? 1)%Z eqn:En; cbn [negb].
      * apply Z.eqb_eq in En. apply IH; auto.
        split; [apply shape9_set; assumption|]. split; auto.
      * rewrite set_restore by assumption. apply IH; auto.
Qed.

End Carving.

(** The carving loop never blanks more than [target] cells. *)
Lemma carve_clues (cells : list (nat * nat)) (target : Z) :
  (forall rc, In rc cells -> fst rc < 9 /\ snd rc < 9) ->
  forall p removed p', shape9 p ->
  (removed <= target)%Z -> (81 - clue_count p <= removed)%Z ->
  carve cells target p removed = Ret p' ->
  (81 - clue_count p' <= target)%Z.
Proof.
  induction cells as [|[row col] rest IH];
    intros Hcells p removed p' Hs Hrem Hclues Hrun.
  - cbn [carve] in Hrun. inversion Hrun; subst. lia.
  - cbn [carve] in Hrun. destruct (target <=? removed)%Z eqn:Ebreak.
    + inversion Hrun; subst. lia.
    + apply Z.leb_gt in Ebreak.
      destruct (Hcells (row, col) (or_introl eq_refl)) as [Hr Hc]. simpl in Hr, Hc.
      assert (Hrest : forall rc, In rc rest -> fst rc < 9 /\ snd rc < 9)
        by (intros rc Hrc; apply Hcells; right; assumption).
      destruct (countSolutions (copy (set p row col Null)) 2) as [|n];
        [discriminate|].
      destruct (n =? 1)%Z; cbn [negb] in Hrun.
      * apply (IH Hrest _ _ _ (shape9_set row col Null Hs)) in Hrun; auto.
        -- lia.
        -- pose proof (clue_count_blank p row col). lia.
      * rewrite set_restore in Hrun by assumption.
        apply (IH Hrest _ _ _ Hs) in Hrun; auto.
Qed.

Lemma clue_count_full (s : Board) : full s -> clue_count s = 81%Z.
Proof.
  intros Hf. unfold clue_count, count_cells.
  rewrite (@filter_length_same _ _ (fun _ => true) coords).
  - reflexivity.
  - intros [r c] Hin. apply in_coords in Hin. simpl.
    apply is_clue_spec. apply Hf; tauto.
Qed.

Lemma shuffle_in (rand : nat -> nat) {T : Type} (arr a : list T) (k k' : nat) :
  shuffle rand arr k = (a, k') -> forall x, In x a -> In x arr.
Proof.
  intros E x Hin. pose proof (shuffle_perm rand arr k) as P.
  rewrite E in P. apply (Permutation_in _ P). assumption.
Qed.

Lemma all_cells_in_range (rc : nat * nat) :
  In rc all_cells -> fst rc < 9 /\ snd rc < 9.
Proof.
  unfold all_cells. rewrite in_map_iff. intros [i [<- Hi]].
  apply in_seq in Hi. cbn [fst snd].
  div_facts i 9. lia.
Qed.

(** ** The generator *)

Lemma generatePuzzle_spec (rand : nat -> nat) (k : nat) (d : Difficulty) :
  exists puzzle solution,
    generatePuzzle rand k d = Ret (puzzle, solution) /\
    Solution solution /\ carve_inv solution puzzle /\
    (DIFFICULTY_CLUES d <= clue_count puzzle)%Z.
Proof.
  unfold generatePuzzle.
  destruct (fill_blank_board rand k) as [sol [k1 [E Hsol]]].
  assert (Hf : full sol) by (apply Solution_iff in Hsol; tauto).
  rewrite E, copy_id.
  destruct (shuffle rand all_cells k1) as [cells k2] eqn:Esh.
  assert (Hrange : forall rc, In rc cells -> fst rc < 9 /\ snd rc < 9).
  { intros rc Hin. apply all_cells_in_range.
    apply (shuffle_in _ _ _ Esh). assumption. }
  destruct (@carve_unique sol Hsol cells (81 - DIFFICULTY_CLUES d)%Z Hrange sol 0%Z
              (carve_inv_init Hsol)) as [p' [Hrun Hinv]].
  rewrite Hrun. exists p', sol. split; [reflexivity|]. split; [assumption|].
  split; [assumption|].
  assert (81 - clue_count p' <= 81 - DIFFICULTY_CLUES d)%Z; [|lia].
  apply (@carve_clues cells (81 - DIFFICULTY_CLUES d)%Z Hrange sol 0%Z p').
  - destruct Hsol; assumption.
  - destruct d; simpl; lia.
  - rewrite clue_count_full by assumption. lia.
  - assumption.
Qed.

(** C1: for every difficulty tier, the puzzle returned by [generatePuzzle]
    has exactly one completion that is a valid Solution, namely the solution
    returned with it; the carving loop keeps a removal only when the answer
    key stays the only completion ([carve_unique]). *)
Theorem generatePuzzle_unique_completion (rand : nat -> nat) (k : nat)
    (d : Difficulty) :
  exists puzzle solution,
    generatePuzzle rand k d = Ret (puzzle, solution) /\
    Solution solution /\
    completion puzzle solution /\
    (forall s, completion puzzle s -> s = solution).
Proof.
  destruct (generatePuzzle_spec rand k d) as [p [sol [E [Hsol [Hinv _]]]]].
  exists p, sol. split; [assumption|]. split; [assumption|]. split.
  - apply carve_inv_extends; assumption.
  - apply Hinv.
Qed.

Lemma solvePuzzle_of_unique (p sol : Board) :
  Solution sol -> carve_inv sol p -> solvePuzzle p = Ret (Some sol).
Proof.
  intros Hsol Hinv. unfold solvePuzzle. rewrite copy_id.
  pose proof (carve_inv_wf Hsol Hinv) as Hwf.
  pose proof (carve_inv_consistent Hsol Hinv) as Hcons.
  destruct (@solve_spec search_fuel p Hwf) as [[s [-> Hreach]]|[_ Hnone]].
  - pose proof (count_cells_le81 is_null p). unfold search_fuel. lia.
  - apply (reachable_completion _ Hcons) in Hreach.
    destruct Hinv as [_ [_ Huniq]]. rewrite (Huniq s Hreach). reflexivity.
  - exfalso. apply (Hnone sol). apply (reachable_completion _ Hcons).
    apply carve_inv_extends; assumption.
Qed.

(** C2: [solvePuzzle] applied to a generated puzzle succeeds and returns the
    solution generated with it. *)
Theorem solvePuzzle_generated (rand : nat -> nat) (k : nat) (d : Difficulty) :
  exists puzzle solution,
    generatePuzzle rand k d = Ret (puzzle, solution) /\
    solvePuzzle puzzle = Ret (Some solution).
Proof.
  destruct (generatePuzzle_spec rand k d) as [p [sol [E [Hsol [Hinv _]]]]].
  exists p, sol. split; [assumption|].
  apply solvePuzzle_of_unique; assumption.
Qed.

(** C3: a generated puzzle has at least as many clues as the target of its
    tier, and each of its filled cells holds the value of the solution. *)
Theorem generatePuzzle_clues (rand : nat -> nat) (k : nat) (d : Difficulty) :
  exists puzzle solution,
    generatePuzzle rand k d = Ret (puzzle, solution) /\
    (DIFFICULTY_CLUES d <= clue_count puzzle)%Z /\
    (forall r c, r < 9 -> c < 9 ->
       get puzzle r c <> Null -> get puzzle r c = get solution r c).
Proof.
  destruct (generatePuzzle_spec rand k d) as [p [sol [E [Hsol [Hinv Hclues]]]]].
  exists p, sol. split; [assumption|]. split; [assumption|].
  intros r c Hr Hc Hne. destruct Hinv as [_ [Hsub _]].
  destruct (Hsub r c Hr Hc); [contradiction | assumption].
Qed.

(** ** Executable tests for well-formedness and consistency *)

Lemma wfb_spec (b : Board) : wfb b = true <-> wf b.
Proof.
  unfold wfb, wf, wf_with.
  rewrite andb_true_iff, shape9b_spec, forallb_forall. split.
  - intros [Hs H]. split; [assumption|]. intros r c Hr Hc.
    specialize (H (r, c) (proj2 (in_coords r c) (conj Hr Hc))). simpl in H.
    destruct (get b r c) as [|v]; [left; reflexivity|].
    right. apply (is_clue_spec (Num v)). assumption.
  - intros [Hs H]. split; [assumption|]. intros [r c] Hin.
    apply in_coords in Hin. destruct Hin as [Hr Hc]. simpl.
    destruct (H r c Hr Hc) as [->|[v [-> Hv]]]; [reflexivity|].
    apply (is_clue_spec (Num v)). eauto.
Qed.

Lemma consistentb_spec (g : Board) : consistentb g = true <-> consistent g.
Proof.
  unfold consistentb, consistent. rewrite forallb_forall. split.
  - intros H r c Hr Hc Hne r' c' Hr' Hc' Hp.
    specialize (H (r, c) (proj2 (in_coords r c) (conj Hr Hc))). simpl in H.
    destruct (get g r c) as [|v]; [contradiction|].
    rewrite isValidPlacement_spec in H by assumption. auto.
  - intros H [r c] Hin. apply in_coords in Hin. destruct Hin as [Hr Hc]. simpl.
    destruct (get g r c) as [|v] eqn:E; [reflexivity|].
    apply isValidPlacement_spec; auto. intros r' c' Hr' Hc' Hp.
    rewrite <- E. apply H; auto. rewrite E. discriminate.
Qed.

Lemma Solution_wf (s : Board) : Solution s -> wf s.
Proof.
  intros H. apply Solution_iff in H. destruct H as [Hs [Hf _]].
  split; [assumption|]. intros r c Hr Hc. right. apply Hf; assumption.
Qed.

Lemma Solution_consistent (s : Board) : Solution s -> consistent s.
Proof.
  intros H. apply Solution_iff in H. destruct H as [_ [_ Hn]].
  intros r c Hr Hc _. apply Hn; assumption.
Qed.

(** A full grid has itself as only candidate completion. *)
Lemma completion_full (g s : Board) :
  shape9 g -> full g -> completion g s -> s = g.
Proof.
  intros Hs Hf [Hsol Hext]. apply board_ext; auto.
  - destruct Hsol; assumption.
  - intros r c Hr Hc. apply Hext; auto.
    destruct (Hf r c Hr Hc) as [v [E _]]. rewrite E. discriminate.
Qed.

Lemma completion_self (s : Board) : Solution s -> completion s s.
Proof. intros H. split; [assumption|]. intros r c _ _ _. reflexivity. Qed.

Lemma clash_grid_wf : wf clash_grid.
Proof. apply wfb_spec. reflexivity. Qed.

Lemma clash_grid_full : full clash_grid.
Proof.
  intros r c Hr Hc. apply (is_clue_spec (get clash_grid r c)).
  do 9 (destruct r as [|r]; [do 9 (destruct c as [|c]; [reflexivity|]); lia|]).
  lia.
Qed.

Lemma clash_grid_no_completion : forall s, ~ completion clash_grid s.
Proof.
  intros s H. pose proof H as [Hsol _].
  apply completion_full in H; [|apply clash_grid_wf | apply clash_grid_full].
  subst s. apply is_solution_spec in Hsol. vm_compute in Hsol. discriminate.
Qed.

(** ** The counter against the number of valid completions *)

(** C5, as stated, fails on a full grid with a duplicate: there is no valid
    completion, yet the counter answers 1. *)
Lemma countSolutions_full_clash :
  wf clash_grid /\
  NoDup (@nil Board) /\
  (forall s, In s [] <-> completion clash_grid s) /\
  countSolutions clash_grid 2
    <> Ret (Z.min 2 (Z.of_nat (length (@nil Board)))).
Proof.
  split; [apply clash_grid_wf|]. split; [constructor|]. split.
  - intros s. split; [intros []|]. apply clash_grid_no_completion.
  - vm_compute. discriminate.
Qed.

(** C5 (amended): on a well-formed grid without duplicates among its filled
    cells, and for a limit of at least 1, [countSolutions] returns the number
    of distinct completions that are valid Solutions, capped at the limit;
    the result lies in [0, limit]. *)
Theorem countSolutions_counts_completions (g : Board) (limit : Z)
    (l : list Board) :
  wf g -> consistent g -> (1 <= limit)%Z ->
  NoDup l -> (forall s, In s l <-> completion g s) ->
  countSolutions g limit = Ret (Z.min limit (Z.of_nat (length l))) /\
  (0 <= Z.min limit (Z.of_nat (length l)) <= limit)%Z.
Proof.
  intros Hwf Hcons Hlimit Hnd Hin. split; [|lia].
  destruct (@count_spec search_fuel g Hwf) as [l' [Hnd' [Hin' Heq]]].
  { pose proof (count_cells_le81 is_null g). unfold search_fuel. lia. }
  unfold countSolutions. rewrite Heq by assumption.
  assert (Hlen : length l = length l'); [|rewrite Hlen; reflexivity].
  apply Permutation_length, NoDup_Permutation; auto.
  intros s. rewrite Hin, Hin'. symmetry. apply reachable_completion. assumption.
Qed.

Lemma countSolutions_counts_completions_witness :
  wf sample_solution /\ consistent sample_solution /\ (1 <= 2)%Z /\
  NoDup [sample_solution] /\
  (forall s, In s [sample_solution] <-> completion sample_solution s) /\
  countSolutions sample_solution 2
    = Ret (Z.min 2 (Z.of_nat (length [sample_solution]))) /\
  (0 <= Z.min 2 (Z.of_nat (length [sample_solution])) <= 2)%Z.
Proof.
  assert (H1 : wf sample_solution) by (apply wfb_spec; vm_compute; reflexivity).
  assert (H2 : consistent sample_solution)
    by (apply consistentb_spec; vm_compute; reflexivity).
  assert (H3 : (1 <= 2)%Z) by lia.
  assert (H4 : NoDup [sample_solution]) by (repeat constructor; simpl; tauto).
  assert (H5 : forall s, In s [sample_solution] <-> completion sample_solution s).
  { intros s. simpl. split.
    - intros [<-|[]]. apply completion_self, sample_solution_ok.
    - intros H. left. symmetry.
      apply (@completion_full sample_solution s); auto.
      + destruct sample_solution_ok; assumption.
      + pose proof sample_solution_ok as Hs. apply Solution_iff in Hs. tauto. }
  split; [exact H1|]. split; [exact H2|]. split; [exact H3|].
  split; [exact H4|]. split; [exact H5|].
  apply (@countSolutions_counts_completions sample_solution 2 [sample_solution]
           H1 H2 H3 H4 H5).
Defined.

(** ** The solver against the valid completions *)

Lemma solvePuzzle_cases (g : Board) :
  wf g ->
  (exists s, solvePuzzle g = Ret (Some s) /\ reachable Null g s) \/
  (solvePuzzle g = Ret None /\ forall s, ~ reachable Null g s).
Proof.
  intros Hwf. unfold solvePuzzle. rewrite copy_id.
  destruct (@solve_spec search_fuel g Hwf) as [[s [-> Hreach]]|[-> Hnone]].
  - pose proof (count_cells_le81 is_null g). unfold search_fuel. lia.
  - left. exists s. split; [reflexivity | assumption].
  - right. split; [reflexivity | assumption].
Qed.

(** C6, as stated, fails on a full grid with a duplicate: no valid
    completion exists, yet the solver reports success. *)
Lemma solvePuzzle_full_clash :
  wf clash_grid /\
  (~ exists s, completion clash_grid s) /\
  solvePuzzle clash_grid = Ret (Some clash_grid).
Proof.
  split; [apply clash_grid_wf|]. split.
  - intros [s H]. apply (clash_grid_no_completion H).
  - vm_compute. reflexivity.
Qed.

(** C6 (amended): on every well-formed grid [solvePuzzle] returns, and a
    success carries a fully filled grid; when no two filled cells of the
    grid clash, it returns the failure signal exactly when the grid has no
    completion that is a valid Solution. *)
Theorem solvePuzzle_fails_iff (g : Board) :
  wf g ->
  (exists res, solvePuzzle g = Ret res) /\
  (forall s, solvePuzzle g = Ret (Some s) -> full s) /\
  (consistent g ->
     (solvePuzzle g = Ret None <-> ~ exists s, completion g s)).
Proof.
  intros Hwf.
  destruct (solvePuzzle_cases Hwf) as [[s [E Hreach]]|[E Hnone]].
  - split; [eauto|]. split.
    + intros s' E'. rewrite E in E'. inversion E'; subst.
      destruct Hreach as [_ [Hf _]]. assumption.
    + intros Hcons. rewrite E. split; [discriminate|].
      intros Hno. exfalso. apply Hno. exists s.
      apply (reachable_completion _ Hcons). assumption.
  - split; [eauto|]. split.
    + intros s' E'. rewrite E in E'. discriminate.
    + intros Hcons. split; [|intros _; assumption].
      intros _ [s Hs]. apply (Hnone s).
      apply (reachable_completion _ Hcons). assumption.
Qed.

Lemma solvePuzzle_fails_iff_witness :
  wf sample_puzzle /\
  (exists res, solvePuzzle sample_puzzle = Ret res) /\
  (forall s, solvePuzzle sample_puzzle = Ret (Some s) -> full s) /\
  (consistent sample_puzzle ->
     (solvePuzzle sample_puzzle = Ret None <->
      ~ exists s, completion sample_puzzle s)).
Proof.
  assert (H : wf sample_puzzle) by (apply wfb_spec; vm_compute; reflexivity).
  split; [exact H|]. apply (@solvePuzzle_fails_iff sample_puzzle H).
Defined.

(** C10: a successful [solvePuzzle] keeps every given cell of its input. *)
Theorem solvePuzzle_keeps_clues (g s : Board) :
  wf g -> solvePuzzle g = Ret (Some s) ->
  forall r c, r < 9 -> c < 9 -> get g r c <> Null -> get s r c = get g r c.
Proof.
  intros Hwf E.
  destruct (solvePuzzle_cases Hwf) as [[s' [E' Hreach]]|[E' _]];
    rewrite E in E'; [|discriminate].
  inversion E'; subst s'. destruct Hreach as [_ [_ [Hk _]]]. exact Hk.
Qed.

Lemma solvePuzzle_keeps_clues_witness :
  wf sample_puzzle /\
  solvePuzzle sample_puzzle = Ret (Some sample_solution) /\
  1 < 9 /\ 1 < 9 /\ get sample_puzzle 1 1 <> Null /\
  get sample_solution 1 1 = get sample_puzzle 1 1.
Proof.
  assert (H1 : wf sample_puzzle) by (apply wfb_spec; vm_compute; reflexivity).
  assert (H2 : solvePuzzle sample_puzzle = Ret (Some sample_solution))
    by (vm_compute; reflexivity).
  assert (H3 : 1 < 9) by lia.
  assert (H4 : get sample_puzzle 1 1 <> Null) by (vm_compute; discriminate).
  split; [exact H1|]. split; [exact H2|]. split; [exact H3|].
  split; [exact H3|]. split; [exact H4|].
  apply (@solvePuzzle_keeps_clues sample_puzzle sample_solution H1 H2 1 1 H3 H3 H4).
Defined.

(** ** Two equal values in row 0 of an otherwise empty grid *)

Lemma row_perm (s : Board) (r : nat) :
  full s -> r < 9 -> (forall c, c < 9 -> no_clash s r c) ->
  Permutation (row_cells s r) (map Num digits).
Proof.
  intros Hf Hr Hn. apply NoDup_Permutation_bis.
  - apply NoDup_map_NoDup_ForallPairs; [|apply seq_NoDup].
    intros a b Ha Hb E. apply in_seq in Ha, Hb.
    destruct (Nat.eq_dec a b) as [|Hne]; [assumption|]. exfalso.
    apply (Hn b ltac:(lia) r a Hr ltac:(lia)); [|assumption].
    split; auto.
  - reflexivity.
  - intros x Hx. apply in_map_iff in Hx. destruct Hx as [c [<- Hc]].
    apply in_seq in Hc. apply in_digit_cells, Hf; lia.
Qed.

(** A row without clashes holds every digit. *)
Lemma row_has (s : Board) (r : nat) (v : Z) :
  full s -> r < 9 -> (forall c, c < 9 -> no_clash s r c) -> digit v ->
  exists c, c < 9 /\ get s r c = Num v.
Proof.
  intros Hf Hr Hn Hv.
  assert (Hin : In (Num v) (row_cells s r)).
  { apply (Permutation_in _ (Permutation_sym (row_perm Hf Hr Hn))).
    apply in_digit_cells. eauto. }
  apply in_map_iff in Hin. destruct Hin as [c [E Hc]].
  apply in_seq in Hc. exists c. split; [lia | assumption].
Qed.

Lemma forall_exists_list {A B : Type} (Q : A -> B -> Prop) (l : list A) :
  (forall a, In a l -> exists b, Q a b) -> exists bs, Forall2 Q l bs.
Proof.
  induction l as [|a l IH]; intros H.
  - exists []. constructor.
  - destruct (H a (or_introl eq_refl)) as [b Hb].
    destruct IH as [bs Hbs]; [intros x Hx; apply H; right; assumption|].
    exists (b :: bs). constructor; assumption.
Qed.

Lemma Forall2_in_right {A B : Type} (Q : A -> B -> Prop) (l : list A)
    (bs : list B) (b : B) :
  Forall2 Q l bs -> In b bs -> exists a, In a l /\ Q a b.
Proof.
  induction 1 as [|a b' l bs Hab Hrest IH]; intros Hin; [contradiction|].
  destruct Hin as [->|Hin].
  - exists a. split; [left; reflexivity | assumption].
  - destruct (IH Hin) as [a' [Ha' Hq]]. exists a'. split; [right|]; assumption.
Qed.

Lemma Forall2_NoDup_right {A B : Type} (Q : A -> B -> Prop) (l : list A)
    (bs : list B) :
  Forall2 Q l bs -> NoDup l ->
  (forall a a' b, Q a b -> Q a' b -> a = a') -> NoDup bs.
Proof.
  induction 1 as [|a b l bs Hab Hrest IH]; intros Hnd Hinj; [constructor|].
  inversion Hnd as [|x xs Hnotin Hnd']; subst. constructor; auto.
  intros Hin. destruct (@Forall2_in_right _ _ _ _ _ _ Hrest Hin) as [a' [Ha' Hq]].
  rewrite (Hinj a a' b Hab Hq) in Hnotin. contradiction.
Qed.

Section TwoInRowZero.

Variables (g : Board) (c1 c2 : nat).
Hypothesis g_shape : shape9 g.
Hypothesis c1_lt : c1 < 9.
Hypothesis c2_lt : c2 < 9.
Hypothesis c1_c2 : c1 <> c2.
Hypothesis g_c1 : get g 0 c1 = Num 3.
Hypothesis g_c2 : get g 0 c2 = Num 3.
Hypothesis g_empty :
  forall r c, r < 9 -> c < 9 -> r <> 0 \/ (c <> c1 /\ c <> c2) ->
  get g r c = Null.

Lemma two_in_row_wf : wf g.
Proof.
  split; [assumption|]. intros r c Hr Hc.
  destruct (Nat.eq_dec r 0) as [->|Hr0].
  - destruct (Nat.eq_dec c c1) as [->|H1].
    + right. exists 3%Z. split; [assumption | unfold digit; lia].
    + destruct (Nat.eq_dec c c2) as [->|H2].
      * right. exists 3%Z. split; [assumption | unfold digit; lia].
      * left. apply g_empty; auto.
  - left. apply g_empty; auto.
Qed.

(** Each of the rows 1..8 needs a 3 in a column of its own, and the columns
    [c1] and [c2] are taken: eight rows do not fit into seven columns. *)
Lemma two_in_row_unreachable : forall s, ~ reachable Null g s.
Proof.
  intros s [Hss [Hf [Hk Hn]]].
  assert (Hs1 : get s 0 c1 = Num 3).
  { rewrite Hk; [exact g_c1 | lia | assumption | rewrite g_c1; discriminate]. }
  assert (Hs2 : get s 0 c2 = Num 3).
  { rewrite Hk; [exact g_c2 | lia | assumption | rewrite g_c2; discriminate]. }
  assert (Hlow : forall r c, 1 <= r < 9 -> c < 9 -> no_clash s r c).
  { intros r c Hr Hc. apply Hn; try lia. apply g_empty; lia. }
  destruct (@forall_exists_list _ _
              (fun r c => 1 <= r < 9 /\ c < 9 /\ get s r c = Num 3) (seq 1 8))
    as [cs Hcs].
  { intros r Hr. apply in_seq in Hr.
    destruct (@row_has s r 3%Z Hf) as [c [Hc E]]; try lia.
    - intros c Hc. apply Hlow; lia.
    - unfold digit; lia.
    - exists c. repeat split; auto; lia. }
  assert (Hfree : forall c0, c0 < 9 -> get s 0 c0 = Num 3 -> ~ In c0 cs).
  { intros c0 Hc0 E0 Hin.
    destruct (@Forall2_in_right _ _ _ _ _ _ Hcs Hin) as [r [_ [Hr [_ E]]]].
    apply (Hlow r c0 Hr Hc0 0 c0); try lia.
    - split; [left; lia | right; left; reflexivity].
    - congruence. }
  assert (Hnd : NoDup (c1 :: c2 :: cs)).
  { constructor; [|constructor].
    - intros [E|Hin]; [congruence|]. revert Hin. apply Hfree; assumption.
    - apply Hfree; assumption.
    - apply (Forall2_NoDup_right Hcs); [apply seq_NoDup|].
      intros r r' c [Hr [Hc E]] [Hr' [_ E']].
      destruct (Nat.eq_dec r r') as [|Hne]; [assumption|]. exfalso.
      apply (Hlow r c Hr Hc r' c); try lia.
      + split; [left; auto | right; left; reflexivity].
      + congruence. }
  assert (Hincl : incl (c1 :: c2 :: cs) (seq 0 9)).
  { intros x [<-|[<-|Hin]]; apply in_seq; try lia.
    destruct (@Forall2_in_right _ _ _ _ _ _ Hcs Hin) as [r [_ [_ [Hx _]]]]. lia. }
  pose proof (NoDup_incl_length Hnd Hincl) as Hlen.
  pose proof (Forall2_length Hcs) as Hlen'.
  simpl in Hlen, Hlen'. lia.
Qed.

End TwoInRowZero.

(** C7: on a grid whose row 0 holds the value 3 in exactly two cells and
    which is empty everywhere else, [countSolutions] returns 0 and
    [solvePuzzle] returns the failure signal. *)
Theorem two_threes_in_row0 (g : Board) (c1 c2 : nat) :
  shape9 g -> c1 < 9 -> c2 < 9 -> c1 <> c2 ->
  get g 0 c1 = Num 3 -> get g 0 c2 = Num 3 ->
  (forall r c, r < 9 -> c < 9 -> r <> 0 \/ (c <> c1 /\ c <> c2) ->
     get g r c = Null) ->
  countSolutions g 2 = Ret 0%Z /\ solvePuzzle g = Ret None.
Proof.
  intros Hs H1 H2 Hne E1 E2 Hempty.
  assert (Hwf : wf g) by (apply (@two_in_row_wf g c1 c2); assumption).
  assert (Hnone : forall s, ~ reachable Null g s)
    by (apply (@two_in_row_unreachable g c1 c2); assumption).
  split.
  - destruct (@count_spec search_fuel g Hwf) as [l [_ [Hin Heq]]].
    { pose proof (count_cells_le81 is_null g). unfold search_fuel. lia. }
    unfold countSolutions. rewrite Heq by lia.
    destruct l as [|x l']; [reflexivity|]. exfalso.
    apply (Hnone x), Hin. left. reflexivity.
  - destruct (solvePuzzle_cases Hwf) as [[s [_ Hreach]]|[E _]]; [|assumption].
    exfalso. apply (Hnone s Hreach).
Qed.

Lemma two_threes_in_row0_witness :
  shape9 two_threes /\ 0 < 9 /\ 1 < 9 /\ 0 <> 1 /\
  get two_threes 0 0 = Num 3 /\ get two_threes 0 1 = Num 3 /\
  (forall r c, r < 9 -> c < 9 -> r <> 0 \/ (c <> 0 /\ c <> 1) ->
     get two_threes r c = Null) /\
  countSolutions two_threes 2 = Ret 0%Z /\ solvePuzzle two_threes = Ret None.
Proof.
  assert (H1 : shape9 two_threes) by (apply shape9b_spec; vm_compute; reflexivity).
  assert (H2 : 0 < 9) by lia.
  assert (H3 : 1 < 9) by lia.
  assert (H4 : 0 <> 1) by lia.
  assert (H5 : get two_threes 0 0 = Num 3) by (vm_compute; reflexivity).
  assert (H6 : get two_threes 0 1 = Num 3) by (vm_compute; reflexivity).
  assert (H7 : forall r c, r < 9 -> c < 9 -> r <> 0 \/ (c <> 0 /\ c <> 1) ->
                 get two_threes r c = Null).
  { intros r c Hr Hc H.
    do 9 (destruct r as [|r];
          [do 9 (destruct c as [|c]; [try reflexivity; exfalso; lia|]); lia|]).
    lia. }
  split; [exact H1|]. split; [exact H2|]. split; [exact H3|].
  split; [exact H4|]. split; [exact H5|]. split; [exact H6|]. split; [exact H7|].
  apply (@two_threes_in_row0 two_threes 0 1 H1 H2 H3 H4 H5 H6 H7).
Defined.

(** ** The conflict detector *)

Lemma three_tests_false (a b c : bool) :
  (if a then false else if b then false else if c then false else true) = false
  <-> a = true \/ b = true \/ c = true.
Proof. destruct a, b, c; simpl; intuition congruence. Qed.

Lemma holds_true (x : Cell) (v : Z) : holds x v = true <-> x = Num v.
Proof. apply cell_eqb_eq. Qed.

Lemma isValidPlacement_false (b : Board) (r c : nat) (v : Z) :
  r < 9 -> c < 9 ->
  (isValidPlacement b r c v = false <->
   exists r' c', r' < 9 /\ c' < 9 /\ peer r c r' c' /\ get b r' c' = Num v).
Proof.
  intros Hr Hc. split.
  - unfold isValidPlacement. cbv zeta. rewrite three_tests_false.
    rewrite !existsb_exists. intros [[c' [Hin H]]|[[r' [Hin H]]|[r' [Hin H]]]].
    + apply in_seq in Hin. apply andb_true_iff in H. destruct H as [Hne Hv].
      apply negb_true_iff, Nat.eqb_neq in Hne. apply holds_true in Hv.
      exists r, c'. split; [assumption|]. split; [lia|]. split; [|assumption].
      split; [right; assumption | left; reflexivity].
    + apply in_seq in Hin. apply andb_true_iff in H. destruct H as [Hne Hv].
      apply negb_true_iff, Nat.eqb_neq in Hne. apply holds_true in Hv.
      exists r', c. split; [lia|]. split; [assumption|]. split; [|assumption].
      split; [left; assumption | right; left; reflexivity].
    + apply in_box in Hin. apply existsb_exists in H.
      destruct H as [c' [Hin' H]]. apply in_box in Hin'.
      apply andb_true_iff in H. destruct H as [Hne Hv].
      apply orb_true_iff in Hne. rewrite !negb_true_iff, !Nat.eqb_neq in Hne.
      apply holds_true in Hv.
      exists r', c'. split; [apply (@box_lt9 r r'); assumption|].
      split; [apply (@box_lt9 c c'); assumption|].
      split; [|assumption]. split; [assumption|]. right; right. split; assumption.
  - intros [r' [c' [Hr' [Hc' [Hp Hv]]]]].
    destruct (isValidPlacement b r c v) eqn:E; [|reflexivity].
    rewrite isValidPlacement_spec in E by assumption.
    exfalso. apply (E r' c' Hr' Hc' Hp Hv).
Qed.

Lemma set_add_in (s k : string) (l : list string) :
  In k (set_add s l) <-> In k l \/ k = s.
Proof.
  unfold set_add. destruct (in_dec string_dec s l) as [Hin|Hnotin].
  - split; [left; assumption|]. intros [H| ->]; assumption.
  - rewrite in_app_iff. simpl. intuition congruence.
Qed.

Lemma key_chars (r c : nat) :
  r < 9 -> c < 9 ->
  key r c = String (ascii_of_nat (48 + r))
              (String "-" (String (ascii_of_nat (48 + c)) EmptyString)).
Proof.
  intros Hr Hc.
  do 9 (destruct r as [|r]; [do 9 (destruct c as [|c]; [reflexivity|]); lia|]).
  lia.
Qed.

(** The keys of different coordinates are different strings. *)
Lemma key_inj (r c r' c' : nat) :
  r < 9 -> c < 9 -> r' < 9 -> c' < 9 ->
  key r c = key r' c' -> r = r' /\ c = c'.
Proof.
  intros Hr Hc Hr' Hc' E. rewrite !key_chars in E by assumption.
  inversion E as [[E1 E2]].
  apply (f_equal nat_of_ascii) in E1, E2.
  rewrite !nat_ascii_embedding in E1, E2 by lia. lia.
Qed.

Lemma getConflicts_fold (g : Board) (l : list (nat * nat)) :
  forall (acc : list string) (k : string),
  In k (fold_left (fun conflicts rc =>
          match get g (fst rc) (snd rc) with
          | Null => conflicts
          | Num val =>
              if negb (isValidPlacement g (fst rc) (snd rc) val)
              then set_add (key (fst rc) (snd rc)) conflicts
              else conflicts
          end) l acc)
  <-> In k acc \/
      exists rc, In rc l /\ k = key (fst rc) (snd rc) /\ flagged g rc.
Proof.
  induction l as [|rc l IH]; intros acc k; simpl.
  - split; [left; assumption|]. intros [H|[rc [[] _]]]. assumption.
  - rewrite IH. clear IH. unfold flagged.
    destruct (get g (fst rc) (snd rc)) as [|val] eqn:Eg.
    + split.
      * intros [H|[rc' [Hin H]]]; [left; assumption|]. right. exists rc'. tauto.
      * intros [H|[rc' [[<-|Hin] [Hk [v [Ev Hv]]]]]]; [left; assumption| |].
        -- rewrite Eg in Ev. discriminate.
        -- right. exists rc'. eauto.
    + destruct (isValidPlacement g (fst rc) (snd rc) val) eqn:Eval; cbn [negb].
      * split.
        -- intros [H|[rc' [Hin H]]]; [left; assumption|]. right. exists rc'. tauto.
        -- intros [H|[rc' [[<-|Hin] [Hk [v [Ev Hv]]]]]]; [left; assumption| |].
           ++ rewrite Eg in Ev. inversion Ev; subst. congruence.
           ++ right. exists rc'. eauto.
      * rewrite set_add_in. split.
        -- intros [[H| ->]|[rc' [Hin H]]]; [left; assumption| |].
           ++ right. exists rc. split; [left; reflexivity|]. split; eauto.
           ++ right. exists rc'. tauto.
        -- intros [H|[rc' [[<-|Hin] [Hk H]]]]; [left; left; assumption| |].
           ++ left. right. assumption.
           ++ right. exists rc'. eauto.
Qed.

Lemma getConflicts_in (g : Board) (k : string) :
  In k (getConflicts g) <->
  exists r c, r < 9 /\ c < 9 /\ k = key r c /\ flagged g (r, c).
Proof.
  unfold getConflicts. rewrite getConflicts_fold. split.
  - intros [[]|[[r c] [Hin [Hk Hf]]]]. apply in_coords in Hin.
    exists r, c. tauto.
  - intros [r [c [Hr [Hc [Hk Hf]]]]]. right. exists (r, c).
    split; [apply in_coords; auto | auto].
Qed.

Lemma flagged_spec (g : Board) (r c : nat) :
  r < 9 -> c < 9 ->
  (flagged g (r, c) <->
   get g r c <> Null /\
   exists r' c', r' < 9 /\ c' < 9 /\ peer r c r' c' /\ get g r' c' = get g r c).
Proof.
  intros Hr Hc. unfold flagged. simpl. split.
  - intros [v [Ev Hv]]. rewrite Ev. split; [discriminate|].
    apply isValidPlacement_false; assumption.
  - intros [Hne H]. destruct (get g r c) as [|v]; [contradiction|].
    exists v. split; [reflexivity|]. apply isValidPlacement_false; assumption.
Qed.

(** C8: [getConflicts] holds the key of [(r, c)] exactly when the cell is
    filled and another cell of its row, column or box holds the same value;
    it holds nothing but keys of coordinates; it is empty on a Solution; and
    on a grid whose only clash is a value 5 placed twice in one row it holds
    exactly the keys of those two cells. *)
Theorem getConflicts_spec (g : Board) :
  wf g ->
  (forall r c, r < 9 -> c < 9 ->
     (In (key r c) (getConflicts g) <->
      get g r c <> Null /\
      exists r' c', r' < 9 /\ c' < 9 /\ peer r c r' c' /\
                    get g r' c' = get g r c)) /\
  (forall k, In k (getConflicts g) -> exists r c, r < 9 /\ c < 9 /\ k = key r c) /\
  (Solution g -> getConflicts g = []) /\
  (forall r c1 c2, r < 9 -> c1 < 9 -> c2 < 9 -> c1 <> c2 ->
     get g r c1 = Num 5 -> get g r c2 = Num 5 ->
     (forall ra ca rb cb, ra < 9 -> ca < 9 -> rb < 9 -> cb < 9 ->
        peer ra ca rb cb -> get g ra ca <> Null -> get g rb cb = get g ra ca ->
        ra = r /\ rb = r /\ ((ca = c1 /\ cb = c2) \/ (ca = c2 /\ cb = c1))) ->
     forall k, In k (getConflicts g) <-> k = key r c1 \/ k = key r c2).
Proof.
  intros Hwf.
  assert (Hmain : forall r c, r < 9 -> c < 9 ->
     (In (key r c) (getConflicts g) <->
      get g r c <> Null /\
      exists r' c', r' < 9 /\ c' < 9 /\ peer r c r' c' /\
                    get g r' c' = get g r c)).
  { intros r c Hr Hc. rewrite getConflicts_in, <- flagged_spec by assumption.
    split.
    - intros [r0 [c0 [Hr0 [Hc0 [Hk Hf]]]]].
      apply key_inj in Hk; auto. destruct Hk as [-> ->]. assumption.
    - intros Hf. exists r, c. auto. }
  split; [exact Hmain|]. split; [|split].
  - intros k Hk. rewrite getConflicts_in in Hk.
    destruct Hk as [r [c [Hr [Hc [Hk _]]]]]. eauto.
  - intros Hsol. destruct (getConflicts g) as [|k l] eqn:E; [reflexivity|].
    exfalso. assert (Hk : In k (getConflicts g)) by (rewrite E; left; reflexivity).
    rewrite getConflicts_in in Hk. destruct Hk as [r [c [Hr [Hc [_ Hf]]]]].
    apply flagged_spec in Hf; auto.
    destruct Hf as [_ [r' [c' [Hr' [Hc' [Hp Hv]]]]]].
    apply Solution_iff in Hsol. destruct Hsol as [_ [_ Hn]].
    apply (Hn r c Hr Hc r' c' Hr' Hc' Hp Hv).
  - intros r c1 c2 Hr Hc1 Hc2 Hne E1 E2 Honly k. split.
    + intros Hk. rewrite getConflicts_in in Hk.
      destruct Hk as [r0 [c0 [Hr0 [Hc0 [-> Hf]]]]].
      apply flagged_spec in Hf; auto.
      destruct Hf as [Hfill [r' [c' [Hr' [Hc' [Hp Hv]]]]]].
      destruct (Honly r0 c0 r' c' Hr0 Hc0 Hr' Hc' Hp Hfill Hv)
        as [-> [_ [[-> _]|[-> _]]]]; auto.
    + intros [->| ->]; apply Hmain; auto.
      * split; [rewrite E1; discriminate|]. exists r, c2.
        split; [assumption|]. split; [assumption|]. split; [|congruence].
        split; [right; auto | left; reflexivity].
      * split; [rewrite E2; discriminate|]. exists r, c1.
        split; [assumption|]. split; [assumption|]. split; [|congruence].
        split; [right; auto | left; reflexivity].
Qed.

(** ** The store: allocation, assignment and snapshots *)

Lemma upd_out {A : Type} (i : nat) (x : A) (l : list A) :
  length l <= i -> upd i x l = l.
Proof.
  revert i. induction l as [|h t IH]; intros [|i] H; simpl in *;
    try lia; auto.
  f_equal. apply IH. lia.
Qed.

Lemma deref_app (h x : Heap) (a : nat) :
  a < length h -> deref (h ++ x) a = deref h a.
Proof. intros H. unfold deref. apply app_nth1. assumption. Qed.

Lemma frame_refl (h : Heap) : frame h h.
Proof. split; auto. Qed.

Lemma frame_trans (h1 h2 h3 : Heap) : frame h1 h2 -> frame h2 h3 -> frame h1 h3.
Proof.
  intros [L1 D1] [L2 D2]. split; [lia|].
  intros a Ha. rewrite D2 by lia. apply D1. assumption.
Qed.

Lemma frame_app (h x : Heap) : frame h (h ++ x).
Proof.
  split; [rewrite length_app; lia|]. intros a Ha. apply deref_app. assumption.
Qed.

Lemma frame_except_refl (b : Ref) (h : Heap) : frame_except b h h.
Proof. split; auto. Qed.

Lemma frame_except_trans (b : Ref) (h1 h2 h3 : Heap) :
  frame_except b h1 h2 -> frame_except b h2 h3 -> frame_except b h1 h3.
Proof.
  intros [L1 D1] [L2 D2]. split; [lia|].
  intros a Ha Hn. rewrite D2 by (auto; lia). apply D1; assumption.
Qed.

Lemma frame_frame_except (b : Ref) (h h' : Heap) :
  frame h h' -> frame_except b h h'.
Proof. intros [L D]. split; auto. Qed.

Lemma allocated_frame (h h' : Heap) (b : Ref) :
  length h <= length h' -> allocated h b -> allocated h' b.
Proof.
  unfold allocated. rewrite !Forall_forall. intros L H a Ha.
  specialize (H a Ha). lia.
Qed.

Lemma snapshot_frame (h h' : Heap) (b : Ref) :
  frame h h' -> allocated h b -> snapshot h' b = snapshot h b.
Proof.
  intros [_ D] Hb. unfold snapshot. apply map_ext_in.
  intros a Ha. apply D. unfold allocated in Hb. rewrite Forall_forall in Hb.
  auto.
Qed.

Lemma snapshot_fresh (rows : list (list Cell)) :
  forall h : Heap, snapshot (h ++ rows) (seq (length h) (length rows)) = rows.
Proof.
  induction rows as [|row rows IH]; intros h; [reflexivity|].
  simpl. f_equal.
  - unfold deref. rewrite app_nth2 by lia. rewrite Nat.sub_diag. reflexivity.
  - specialize (IH (h ++ [row])). rewrite <- app_assoc in IH. simpl in IH.
    rewrite length_app in IH. simpl in IH. rewrite Nat.add_1_r in IH. exact IH.
Qed.

Lemma map_rows_spec (f : Cell -> Cell) (b : Ref) :
  forall h : Heap, allocated h b ->
  map_rows f h b
  = (h ++ map (fun a => map f (deref h a)) b, seq (length h) (length b)).
Proof.
  induction b as [|a rest IH]; intros h Hb; simpl.
  - rewrite app_nil_r. reflexivity.
  - inversion Hb as [|x xs Ha Hrest]; subst. unfold alloc.
    rewrite IH.
    + rewrite <- app_assoc. simpl. rewrite length_app. simpl.
      rewrite Nat.add_1_r. f_equal. f_equal. f_equal.
      apply map_ext_in. intros a' Ha'. rewrite deref_app; [reflexivity|].
      unfold allocated in Hrest. rewrite Forall_forall in Hrest. auto.
    + apply (@allocated_frame h); [rewrite length_app; lia | assumption].
Qed.

(** What a [map] over a board leaves behind: a fresh board with the mapped
    contents, next to the untouched arrays of before. *)
Lemma map_rows_result (f : Cell -> Cell) (h h1 : Heap) (b b1 : Ref) :
  allocated h b -> map_rows f h b = (h1, b1) ->
  snapshot h1 b1 = map (fun row => map f row) (snapshot h b) /\
  frame h h1 /\ allocated h1 b1 /\ NoDup b1 /\
  (forall a, In a b1 -> length h <= a).
Proof.
  intros Hb E. rewrite map_rows_spec in E by assumption.
  inversion E; subst. clear E. repeat split.
  - rewrite <- (length_map (fun a => map f (deref h a)) b).
    rewrite snapshot_fresh. unfold snapshot. rewrite map_map. reflexivity.
  - rewrite length_app. lia.
  - intros a Ha. apply deref_app. assumption.
  - unfold allocated. rewrite Forall_forall. intros a Ha.
    apply in_seq in Ha. rewrite length_app, length_map. lia.
  - apply seq_NoDup.
  - intros a Ha. apply in_seq in Ha. lia.
Qed.

Lemma write_length (h : Heap) (b : Ref) (r c : nat) (v : Cell) :
  length (write h b r c v) = length h.
Proof.
  unfold write. destruct (nth_error b r); [apply length_upd | reflexivity].
Qed.

Lemma write_other (h : Heap) (b : Ref) (r c : nat) (v : Cell) (a : nat) :
  ~ In a b -> deref (write h b r c v) a = deref h a.
Proof.
  intros Hn. unfold write. destruct (nth_error b r) as [a'|] eqn:E; [|reflexivity].
  unfold deref at 1. apply nth_upd_other. intros ->.
  apply Hn. apply (nth_error_In _ _ E).
Qed.

Lemma write_frame_except (h : Heap) (b : Ref) (r c : nat) (v : Cell) :
  frame_except b h (write h b r c v).
Proof.
  split; [rewrite write_length; lia|]. intros a _ Hn. apply write_other. assumption.
Qed.

(** An assignment through a board without shared rows is the assignment on
    its contents. *)
Lemma write_snapshot (h : Heap) (b : Ref) (r c : nat) (v : Cell) :
  NoDup b -> allocated h b ->
  snapshot (write h b r c v) b = set (snapshot h b) r c v.
Proof.
  intros Hnd Hb. unfold write, set.
  destruct (nth_error b r) as [a|] eqn:E.
  - assert (Hr : r < length b) by (apply nth_error_Some; congruence).
    assert (Ha : nth r b 0 = a) by (apply nth_error_nth; assumption).
    assert (Hlt : a < length h).
    { unfold allocated in Hb. rewrite Forall_forall in Hb.
      apply Hb. apply (nth_error_In _ _ E). }
    apply (nth_ext _ _ [] []).
    + unfold snapshot. rewrite length_upd, !length_map. reflexivity.
    + unfold snapshot. rewrite length_map. intros i Hi.
      rewrite (nth_indep _ [] (deref (upd a (upd c v (deref h a)) h) 0))
        by (rewrite length_map; assumption).
      rewrite map_nth.
      destruct (Nat.eq_dec r i) as [<-|Hne].
      * rewrite Ha. rewrite nth_upd_same by (rewrite length_map; assumption).
        unfold deref at 1. rewrite nth_upd_same by assumption.
        f_equal. rewrite (nth_indep _ [] (deref h 0)) by (rewrite length_map; assumption).
        rewrite map_nth, Ha. reflexivity.
      * rewrite nth_upd_other by assumption.
        rewrite (nth_indep _ [] (deref h 0)) by (rewrite length_map; assumption).
        rewrite map_nth. unfold deref at 1. apply nth_upd_other.
        intros Eq. apply Hne. rewrite <- Ha in Eq.
        apply (proj1 (NoDup_nth b 0) Hnd); auto.
  - apply nth_error_None in E. unfold snapshot.
    symmetry. apply upd_out. rewrite length_map. assumption.
Qed.

(** ** The solver on the store *)

Lemma same_outcome_impl {A B : Type} (R R' : A -> B -> Prop)
    (x : outcome A) (y : outcome B) :
  (forall a b, R a b -> R' a b) -> same_outcome R x y -> same_outcome R' x y.
Proof.
  intros H. destruct x, y; simpl; auto.
Qed.

Lemma hsolve_try_cons (rec : Heap -> outcome (Heap * bool)) (b : Ref)
    (row col : nat) (num : Z) (rest : list Z) (h : Heap) :
  hsolve_try rec b row col (num :: rest) h =
  let (h1, filled) := map_rows (fun v => if is_null v then Num 0 else v) h b in
  if isValid (snapshot h1 filled) row col num then
    match rec (write h1 b row col (Num num)) with
    | OutOfFuel => OutOfFuel
    | Ret (h2, true) => Ret (h2, true)
    | Ret (h2, false) => hsolve_try rec b row col rest (write h2 b row col Null)
    end
  else hsolve_try rec b row col rest h1.
Proof. reflexivity. Qed.

Lemma solve_try_cons (rec : Board -> outcome (bool * Board))
    (row col : nat) (num : Z) (rest : list Z) (b : Board) :
  solve_try rec row col (num :: rest) b =
  if isValid (null_to_zero b) row col num then
    match rec (set b row col (Num num)) with
    | OutOfFuel => OutOfFuel
    | Ret (true, b') => Ret (true, b')
    | Ret (false, b') => solve_try rec row col rest (set b' row col Null)
    end
  else solve_try rec row col rest b.
Proof. reflexivity. Qed.

Section SolveOnStore.

Variable b : Ref.
Hypothesis b_nodup : NoDup b.

Lemma agree_weaken (h h' : Heap) (x : Heap * bool) (y : bool * Board) :
  frame_except b h h' -> solve_agree b h' x y -> solve_agree b h x y.
Proof.
  intros Hf [E [Es Hf']]. split; [assumption|]. split; [assumption|].
  apply (frame_except_trans Hf Hf').
Qed.

Lemma hsolve_try_sim (rec_h : Heap -> outcome (Heap * bool))
    (rec_p : Board -> outcome (bool * Board)) (row col : nat) :
  (forall h, allocated h b ->
     same_outcome (solve_agree b h) (rec_h h) (rec_p (snapshot h b))) ->
  forall nums h, allocated h b ->
  same_outcome (solve_agree b h) (hsolve_try rec_h b row col nums h)
                         (solve_try rec_p row col nums (snapshot h b)).
Proof.
  intros Hrec. induction nums as [|num rest IH]; intros h Hb.
  - simpl. split; [reflexivity|]. split; [reflexivity|]. apply frame_except_refl.
  - rewrite hsolve_try_cons, solve_try_cons.
    destruct (map_rows (fun v => if is_null v then Num 0 else v) h b)
      as [h1 filled] eqn:Em.
    destruct (map_rows_result _ Hb Em) as [Hsnap [Hfr [_ _]]].
    rewrite Hsnap. change (map (fun row => map (fun v => if is_null v then Num 0 else v) row)
                               (snapshot h b)) with (null_to_zero (snapshot h b)).
    assert (Hb1 : allocated h1 b)
      by (apply (@allocated_frame h); [apply Hfr | assumption]).
    assert (Hs1 : snapshot h1 b = snapshot h b)
      by (apply snapshot_frame; assumption).
    destruct (isValid (null_to_zero (snapshot h b)) row col num).
    + assert (Hb2 : allocated (write h1 b row col (Num num)) b)
        by (apply (@allocated_frame h1); [rewrite write_length; lia | assumption]).
      pose proof (Hrec _ Hb2) as Hr.
      rewrite write_snapshot, Hs1 in Hr by assumption.
      assert (Hf2 : frame_except b h (write h1 b row col (Num num))).
      { apply (@frame_except_trans b h h1).
        - apply frame_frame_except. assumption.
        - apply write_frame_except. }
      destruct (rec_h (write h1 b row col (Num num))) as [|[h2 res]],
               (rec_p (set (snapshot h b) row col (Num num))) as [|[res' s']];
        simpl in Hr; try contradiction; [exact I|].
      destruct Hr as [Er [Es Hf3]]. simpl in Er, Es, Hf3. subst res' s'.
      destruct res.
      * simpl. split; [reflexivity|]. split; [reflexivity|].
        apply (frame_except_trans Hf2 Hf3).
      * assert (Hb3 : allocated h2 b)
          by (apply (@allocated_frame (write h1 b row col (Num num)));
              [apply Hf3 | assumption]).
        assert (Hb4 : allocated (write h2 b row col Null) b)
          by (apply (@allocated_frame h2); [rewrite write_length; lia | assumption]).
        pose proof (IH _ Hb4) as Hi.
        rewrite write_snapshot in Hi by assumption.
        revert Hi. apply same_outcome_impl. intros x y. apply agree_weaken.
        apply (frame_except_trans Hf2).
        apply (frame_except_trans Hf3). apply write_frame_except.
    + pose proof (IH _ Hb1) as Hi. rewrite Hs1 in Hi.
      revert Hi. apply same_outcome_impl. intros x y. apply agree_weaken.
      apply frame_frame_except. assumption.
Qed.

Lemma hsolve_sim (fuel : nat) :
  forall h, allocated h b ->
  same_outcome (solve_agree b h) (hsolve fuel b h) (solve fuel (snapshot h b)).
Proof.
  induction fuel as [|fuel IH]; intros h Hb; [exact I|].
  cbn [hsolve solve].
  destruct (first_cell is_null (snapshot h b)) as [[row col]|].
  - apply hsolve_try_sim; assumption.
  - simpl. split; [reflexivity|]. split; [reflexivity|]. apply frame_except_refl.
Qed.

End SolveOnStore.

(** ** The counter on the store *)

Lemma hcount_try_cons (rec : Heap -> Ref -> Z -> outcome (Heap * Z))
    (h : Heap) (board : Ref) (row col : nat) (limit num : Z) (rest : list Z)
    (count : Z) :
  hcount_try rec h board row col limit (num :: rest) count =
  let (h1, filled) := map_rows (fun v => v) h board in
  if isValid (snapshot h1 filled) row col num then
    let (h3, arg) :=
      map_rows (fun v => if is_zero v then Null else v)
               (write h1 filled row col (Num num)) filled in
    match rec h3 arg (limit - count)%Z with
    | OutOfFuel => OutOfFuel
    | Ret (h4, n) =>
        if (limit <=? count + n)%Z then Ret (h4, (count + n)%Z)
        else hcount_try rec h4 board row col limit rest (count + n)%Z
    end
  else hcount_try rec h1 board row col limit rest count.
Proof. reflexivity. Qed.

Lemma count_agree_weaken (h h' : Heap) (x : Heap * Z) (n : Z) :
  frame h h' -> count_agree h' x n -> count_agree h x n.
Proof.
  intros Hf [E Hf']. split; [assumption|]. apply (frame_trans Hf Hf').
Qed.

(** An assignment into a board made of new arrays leaves the old ones. *)
Lemma write_fresh_frame (h h1 : Heap) (b : Ref) (r c : nat) (v : Cell) :
  frame h h1 -> (forall a, In a b -> length h <= a) ->
  frame h (write h1 b r c v).
Proof.
  intros [L D] Hfresh. split; [rewrite write_length; assumption|].
  intros a Ha. rewrite write_other; [apply D; assumption|].
  intros Hin. specialize (Hfresh a Hin). lia.
Qed.

Lemma hcount_try_sim (rec_h : Heap -> Ref -> Z -> outcome (Heap * Z))
    (rec_p : Board -> Z -> outcome Z) (board : Ref) (row col : nat) (limit : Z) :
  (forall h arg lim, allocated h arg ->
     same_outcome (count_agree h) (rec_h h arg lim) (rec_p (snapshot h arg) lim)) ->
  forall nums h count, allocated h board ->
  same_outcome (count_agree h)
    (hcount_try rec_h h board row col limit nums count)
    (count_try rec_p (snapshot h board) row col limit nums count).
Proof.
  intros Hrec. induction nums as [|num rest IH]; intros h count Hb.
  - simpl. split; [reflexivity | apply frame_refl].
  - rewrite hcount_try_cons, count_try_cons.
    destruct (map_rows (fun v => v) h board) as [h1 filled] eqn:Em.
    destruct (map_rows_result _ Hb Em) as [Hsnap [Hfr [Hal [Hnd Hfresh]]]].
    rewrite Hsnap.
    change (map (fun row => map (fun v => v) row) (snapshot h board))
      with (copy (snapshot h board)).
    assert (Hb1 : allocated h1 board)
      by (apply (@allocated_frame h); [apply Hfr | assumption]).
    assert (Hs1 : snapshot h1 board = snapshot h board)
      by (apply snapshot_frame; assumption).
    destruct (isValid (copy (snapshot h board)) row col num).
    + assert (Hal2 : allocated (write h1 filled row col (Num num)) filled)
        by (apply (@allocated_frame h1); [rewrite write_length; lia | assumption]).
      assert (Hfr2 : frame h (write h1 filled row col (Num num)))
        by (apply write_fresh_frame; assumption).
      destruct (map_rows (fun v => if is_zero v then Null else v)
                  (write h1 filled row col (Num num)) filled)
        as [h3 arg] eqn:Em2.
      destruct (map_rows_result _ Hal2 Em2) as [Hsnap3 [Hfr3 [Hal3 _]]].
      rewrite write_snapshot, Hsnap in Hsnap3 by assumption.
      change (map (fun row => map (fun v => v) row) (snapshot h board))
        with (copy (snapshot h board)) in Hsnap3.
      change (map (fun row => map (fun v => if is_zero v then Null else v) row)
                  (set (copy (snapshot h board)) row col (Num num)))
        with (zero_to_null (set (copy (snapshot h board)) row col (Num num)))
        in Hsnap3.
      pose proof (Hrec h3 arg (limit - count)%Z Hal3) as Hr.
      rewrite Hsnap3 in Hr.
      destruct (rec_h h3 arg (limit - count)%Z) as [|[h4 n]],
               (rec_p (zero_to_null (set (copy (snapshot h board)) row col (Num num)))
                      (limit - count)%Z) as [|n'];
        simpl in Hr; try contradiction; [exact I|].
      destruct Hr as [En Hfr4]. simpl in En, Hfr4. subst n'.
      assert (Hfr5 : frame h h4).
      { apply (frame_trans Hfr2). apply (frame_trans Hfr3). assumption. }
      destruct (limit <=? count + n)%Z.
      * simpl. split; [reflexivity | assumption].
      * assert (Hb4 : allocated h4 board)
          by (apply (@allocated_frame h); [apply Hfr5 | assumption]).
        pose proof (IH h4 (count + n)%Z Hb4) as Hi.
        rewrite (snapshot_frame Hfr5 Hb) in Hi.
        revert Hi. apply same_outcome_impl. intros x y.
        apply count_agree_weaken. assumption.
    + pose proof (IH h1 count Hb1) as Hi. rewrite Hs1 in Hi.
      revert Hi. apply same_outcome_impl. intros x y.
      apply count_agree_weaken. assumption.
Qed.

Lemma hcount_sim (fuel : nat) :
  forall h board limit, allocated h board ->
  same_outcome (count_agree h) (hcountSolutions fuel h board limit)
               (countSolutions_fuel fuel (snapshot h board) limit).
Proof.
  induction fuel as [|fuel IH]; intros h board limit Hb; [exact I|].
  cbn [hcountSolutions countSolutions_fuel].
  destruct (first_cell is_null (snapshot h board)) as [[row col]|].
  - apply hcount_try_sim; [|assumption]. intros h' arg lim Harg. apply IH. assumption.
  - simpl. split; [reflexivity | apply frame_refl].
Qed.

Lemma hsolvePuzzle_sim (h : Heap) (board : Ref) :
  allocated h board ->
  same_outcome (solvePuzzle_agree h) (hsolvePuzzle h board)
               (solvePuzzle (snapshot h board)).
Proof.
  intros Hb. unfold hsolvePuzzle, solvePuzzle.
  destruct (map_rows (fun v => v) h board) as [h1 b] eqn:Em.
  destruct (map_rows_result _ Hb Em) as [Hsnap [Hfr [Hal [Hnd Hfresh]]]].
  change (map (fun row => map (fun v => v) row) (snapshot h board))
    with (copy (snapshot h board)) in Hsnap.
  pose proof (@hsolve_sim b Hnd search_fuel h1 Hal) as Hs.
  rewrite Hsnap in Hs.
  destruct (hsolve search_fuel b h1) as [|[h2 res]],
           (solve search_fuel (copy (snapshot h board))) as [|[res' s']];
    simpl in Hs; try contradiction; [exact I|].
  destruct Hs as [Er [Es [L D]]]. simpl in Er, Es, L, D. subst res' s'.
  assert (Hfr2 : frame h h2).
  { destruct Hfr as [L1 D1]. split; [lia|]. intros a Ha.
    rewrite D by (try lia; intros Hin; specialize (Hfresh a Hin); lia).
    apply D1. assumption. }
  destruct res; simpl; (split; [assumption | reflexivity]).
Qed.

(** ** The operations leave the caller's board alone *)

(** On a well-formed board the solver on the store returns. *)
Lemma hsolvePuzzle_returns (h : Heap) (board : Ref) :
  allocated h board -> wf (snapshot h board) ->
  exists h' res, hsolvePuzzle h board = Ret (h', res) /\
    frame h h' /\ snapshot h' board = snapshot h board /\
    solvePuzzle (snapshot h board) = Ret (option_map (snapshot h') res).
Proof.
  intros Hb Hwf. pose proof (hsolvePuzzle_sim Hb) as Hs.
  destruct (solvePuzzle_cases Hwf) as [[s [E _]]|[E _]]; rewrite E in Hs |- *;
    destruct (hsolvePuzzle h board) as [|[h' res]]; simpl in Hs;
    try contradiction; destruct Hs as [Hf Eo]; simpl in Hf, Eo;
    exists h', res; rewrite Eo;
    (split; [reflexivity|]; split; [assumption|]; split;
     [apply snapshot_frame; assumption | reflexivity]).
Qed.

(** C9: [solvePuzzle], [countSolutions] and [getConflicts], run on a store
    that holds the caller's board, end exactly as on the contents of that
    board (they are functions of the snapshot they are given), and, whether
    they succeed or fail, every array that existed before the call, the rows
    of the caller's board among them, is unchanged afterwards. *)
Theorem operations_leave_argument (h : Heap) (board : Ref) :
  allocated h board ->
  same_outcome
    (fun x y => frame h (fst x) /\ snapshot (fst x) board = snapshot h board /\
                option_map (snapshot (fst x)) (snd x) = y)
    (hsolvePuzzle h board) (solvePuzzle (snapshot h board)) /\
  (forall limit,
     same_outcome
       (fun x n => frame h (fst x) /\ snapshot (fst x) board = snapshot h board /\
                   snd x = n)
       (hcountSolutions search_fuel h board limit)
       (countSolutions (snapshot h board) limit)) /\
  (fst (hgetConflicts h board) = h /\
   snd (hgetConflicts h board) = getConflicts (snapshot h board)).
Proof.
  intros Hb. split; [|split].
  - generalize (hsolvePuzzle_sim Hb). apply same_outcome_impl.
    intros x y [Hf E]. split; [assumption|]. split; [|assumption].
    apply snapshot_frame; assumption.
  - intros limit. generalize (@hcount_sim search_fuel h board limit Hb).
    apply same_outcome_impl. intros x n [E Hf].
    split; [assumption|]. split; [|assumption].
    apply snapshot_frame; assumption.
  - split; reflexivity.
Qed.

Lemma sample_store_contents : snapshot sample_store sample_ref = sample_puzzle.
Proof. reflexivity. Qed.

Lemma operations_leave_argument_witness :
  allocated sample_store sample_ref /\
  same_outcome
    (fun x y => frame sample_store (fst x) /\
                snapshot (fst x) sample_ref = snapshot sample_store sample_ref /\
                option_map (snapshot (fst x)) (snd x) = y)
    (hsolvePuzzle sample_store sample_ref)
    (solvePuzzle (snapshot sample_store sample_ref)) /\
  (forall limit,
     same_outcome
       (fun x n => frame sample_store (fst x) /\
                   snapshot (fst x) sample_ref = snapshot sample_store sample_ref /\
                   snd x = n)
       (hcountSolutions search_fuel sample_store sample_ref limit)
       (countSolutions (snapshot sample_store sample_ref) limit)) /\
  (fst (hgetConflicts sample_store sample_ref) = sample_store /\
   snd (hgetConflicts sample_store sample_ref)
   = getConflicts (snapshot sample_store sample_ref)).
Proof.
  assert (H : allocated sample_store sample_ref).
  { unfold allocated, sample_ref. apply Forall_forall. intros a Ha.
    apply in_seq in Ha. vm_compute. lia. }
  split; [exact H|].
  apply (@operations_leave_argument sample_store sample_ref H).
Defined.

(** The solver on the store, run on the sample puzzle: it succeeds, returns
    a board of new rows that holds the solution, and the rows at the
    addresses 0..8 still hold the puzzle. *)
Lemma hsolvePuzzle_sample :
  match hsolvePuzzle sample_store sample_ref with
  | Ret (h', Some b') =>
      snapshot h' b' = sample_solution /\
      snapshot h' sample_ref = sample_puzzle /\
      Forall (fun a => 9 <= a) b'
  | _ => False
  end.
Proof.
  vm_compute. split; [reflexivity|]. split; [reflexivity|].
  repeat constructor.
Qed.

(** ** Examples *)

(** With every draw 0 the loop swaps [a[2]] with [a[0]], then [a[1]] with
    [a[0]]. *)
Lemma shuffle_example : shuffle (fun _ => 0) [1; 2; 3]%Z 0 = ([2; 3; 1]%Z, 2).
Proof. reflexivity. Qed.

(** A run of the generator: the puzzle of an [easy] game for one oracle has
    exactly the 40 clues of its tier. *)
Lemma generatePuzzle_example :
  match generatePuzzle (fun k => k * 7 + 3) 0 easy with
  | Ret (puzzle, solution) =>
      (clue_count puzzle =? 40)%Z && is_solution solution
  | OutOfFuel => false
  end = true.
Proof. vm_compute. reflexivity. Qed.

Lemma getConflicts_two_fives : getConflicts two_fives = ["0-0"; "0-1"]%string.
Proof. vm_compute. reflexivity. Qed.

Lemma solvePuzzle_sample : solvePuzzle sample_puzzle = Ret (Some sample_solution).
Proof. vm_compute. reflexivity. Qed.

Lemma countSolutions_sample : countSolutions sample_puzzle 2 = Ret 1%Z.
Proof. vm_compute. reflexivity. Qed.

Lemma getConflicts_spec_witness :
  wf two_fives /\
  (forall r c, r < 9 -> c < 9 ->
     (In (key r c) (getConflicts two_fives) <->
      get two_fives r c <> Null /\
      exists r' c', r' < 9 /\ c' < 9 /\ peer r c r' c' /\
                    get two_fives r' c' = get two_fives r c)) /\
  (forall k, In k (getConflicts two_fives) ->
     exists r c, r < 9 /\ c < 9 /\ k = key r c) /\
  (Solution two_fives -> getConflicts two_fives = []) /\
  (forall r c1 c2, r < 9 -> c1 < 9 -> c2 < 9 -> c1 <> c2 ->
     get two_fives r c1 = Num 5 -> get two_fives r c2 = Num 5 ->
     (forall ra ca rb cb, ra < 9 -> ca < 9 -> rb < 9 -> cb < 9 ->
        peer ra ca rb cb -> get two_fives ra ca <> Null ->
        get two_fives rb cb = get two_fives ra ca ->
        ra = r /\ rb = r /\ ((ca = c1 /\ cb = c2) \/ (ca = c2 /\ cb = c1))) ->
     forall k, In k (getConflicts two_fives) <-> k = key r c1 \/ k = key r c2).
Proof.
  assert (H : wf two_fives) by (apply wfb_spec; vm_compute; reflexivity).
  split; [exact H|]. apply (@getConflicts_spec two_fives H).
Defined.

(** * Further properties of the engine *)

(** ** [shuffle] *)

Lemma shuffle_loop_draws (rand : nat -> nat) {T : Type} (i : nat) :
  forall (a : list T) (k : nat), snd (shuffle_loop rand i a k) = k + i.
Proof.
  induction i as [|i IH]; intros a k; simpl; [lia|]. rewrite IH. lia.
Qed.

(** [shuffle] returns a rearrangement of its argument, of the same length,
    and calls [Math.random] once for every position but the first. *)
Theorem shuffle_permutes (rand : nat -> nat) {T : Type} (arr : list T) (k : nat) :
  Permutation (fst (shuffle rand arr k)) arr /\
  length (fst (shuffle rand arr k)) = length arr /\
  snd (shuffle rand arr k) = k + (length arr - 1).
Proof.
  assert (H : Permutation (fst (shuffle rand arr k)) arr)
    by apply shuffle_loop_perm.
  split; [exact H|]. split.
  - apply Permutation_length. exact H.
  - apply shuffle_loop_draws.
Qed.

(** ** [isValid] against [isValidPlacement] *)

Lemma sees_cases (r c r' c' : nat) :
  sees r c r' c' <-> (r' = r /\ c' = c) \/ peer r c r' c'.
Proof.
  unfold sees, peer. split.
  - intros H. destruct (Nat.eq_dec r' r) as [->|Hr];
      [destruct (Nat.eq_dec c' c) as [->|Hc]|]; auto.
  - intros [[-> ->]|[_ H]]; auto.
Qed.

(** The fill-time test is the edit-time test together with the test of the
    target cell itself. *)
Theorem isValid_splits (b : Board) (r c : nat) (v : Z) :
  r < 9 -> c < 9 ->
  isValid b r c v = isValidPlacement b r c v && negb (holds (get b r c) v).
Proof.
  intros Hr Hc.
  destruct (isValid b r c v) eqn:E1.
  - rewrite isValid_spec in E1 by assumption. symmetry.
    apply andb_true_iff. split.
    + apply isValidPlacement_spec; auto.
      intros r' c' Hr' Hc' Hp. apply E1; auto. apply peer_sees. assumption.
    + apply negb_true_iff, holds_false. apply E1; auto. apply sees_self.
  - destruct (isValidPlacement b r c v) eqn:E2; [|reflexivity].
    destruct (holds (get b r c) v) eqn:E3; [reflexivity|].
    rewrite isValidPlacement_spec in E2 by assumption.
    apply holds_false in E3.
    assert (Ht : isValid b r c v = true); [|congruence].
    apply isValid_spec; auto. intros r' c' Hr' Hc' Hs.
    apply sees_cases in Hs. destruct Hs as [[-> ->]|Hp]; auto.
Qed.

Lemma isValid_splits_witness :
  0 < 9 /\ 0 < 9 /\
  isValid sample_puzzle 0 0 1
  = isValidPlacement sample_puzzle 0 0 1
    && negb (holds (get sample_puzzle 0 0) 1).
Proof.
  assert (H : 0 < 9) by lia.
  split; [exact H|]. split; [exact H|].
  apply (@isValid_splits sample_puzzle 0 0 1%Z H H).
Defined.

(** ** Placements and the conflict detector *)

Lemma getConflicts_key (g : Board) (r c : nat) :
  r < 9 -> c < 9 ->
  (In (key r c) (getConflicts g) <-> flagged g (r, c)).
Proof.
  intros Hr Hc. rewrite getConflicts_in. split.
  - intros [r0 [c0 [Hr0 [Hc0 [Hk Hf]]]]].
    apply key_inj in Hk; auto. destruct Hk as [-> ->]. assumption.
  - intros Hf. exists r, c. auto.
Qed.

Lemma getConflicts_nil (g : Board) :
  getConflicts g = [] <-> forall r c, r < 9 -> c < 9 -> ~ flagged g (r, c).
Proof.
  split.
  - intros E r c Hr Hc Hf. apply (proj2 (@getConflicts_key g r c Hr Hc)) in Hf.
    rewrite E in Hf. contradiction.
  - intros H. destruct (getConflicts g) as [|k l] eqn:E; [reflexivity|].
    exfalso. assert (Hk : In k (getConflicts g)) by (rewrite E; left; reflexivity).
    rewrite getConflicts_in in Hk. destruct Hk as [r [c [Hr [Hc [_ Hf]]]]].
    apply (H r c Hr Hc Hf).
Qed.

(** Entering [v] into a cell that does not hold it makes the detector flag
    that cell exactly when the fill-time test rejects [v] there. *)
Theorem placement_flagged_iff (b : Board) (r c : nat) (v : Z) :
  shape9 b -> r < 9 -> c < 9 -> get b r c <> Num v ->
  (In (key r c) (getConflicts (set b r c (Num v))) <-> isValid b r c v = false).
Proof.
  intros Hs Hr Hc Hne. rewrite getConflicts_key, flagged_spec by assumption.
  rewrite get_set_same by assumption. split.
  - intros [_ [r' [c' [Hr' [Hc' [Hp Hv]]]]]].
    destruct (isValid b r c v) eqn:E; [|reflexivity]. exfalso.
    rewrite isValid_spec in E by assumption.
    apply (E r' c' Hr' Hc' (peer_sees Hp)).
    rewrite <- Hv. symmetry. apply get_set_other. destruct Hp; assumption.
  - intros E. split; [discriminate|].
    destruct (isValidPlacement b r c v) eqn:E2.
    + exfalso. rewrite isValidPlacement_spec in E2 by assumption.
      assert (Ht : isValid b r c v = true); [|congruence].
      apply isValid_spec; auto. intros r' c' Hr' Hc' Hsee.
      apply sees_cases in Hsee. destruct Hsee as [[-> ->]|Hp]; auto.
    + apply isValidPlacement_false in E2; auto.
      destruct E2 as [r' [c' [Hr' [Hc' [Hp Hv]]]]].
      exists r', c'. split; [assumption|]. split; [assumption|].
      split; [assumption|]. rewrite get_set_other; [assumption|].
      destruct Hp; assumption.
Qed.

Lemma placement_flagged_iff_witness :
  shape9 sample_puzzle /\ 0 < 9 /\ 0 < 9 /\ get sample_puzzle 0 0 <> Num 5 /\
  (In (key 0 0) (getConflicts (set sample_puzzle 0 0 (Num 5)))
   <-> isValid sample_puzzle 0 0 5 = false).
Proof.
  assert (H1 : shape9 sample_puzzle) by (apply shape9b_spec; vm_compute; reflexivity).
  assert (H2 : 0 < 9) by lia.
  assert (H3 : get sample_puzzle 0 0 <> Num 5) by (vm_compute; discriminate).
  split; [exact H1|]. split; [exact H2|]. split; [exact H2|]. split; [exact H3|].
  apply (@placement_flagged_iff sample_puzzle 0 0 5%Z H1 H2 H2 H3).
Defined.

(** A digit that the fill-time test accepts at an empty cell never brings a
    conflict into a board that had none. *)
Theorem valid_placement_no_conflict (b : Board) (r c : nat) (v : Z) :
  shape9 b -> r < 9 -> c < 9 -> get b r c = Null ->
  isValid b r c v = true -> getConflicts b = [] ->
  getConflicts (set b r c (Num v)) = [].
Proof.
  intros Hs Hr Hc Hb Hval Hnone.
  rewrite isValid_spec in Hval by assumption.
  rewrite getConflicts_nil in Hnone. apply (proj2 (getConflicts_nil _)).
  intros r2 c2 Hr2 Hc2 Hf. apply (proj1 (@flagged_spec _ r2 c2 Hr2 Hc2)) in Hf.
  destruct Hf as [Hfill [r3 [c3 [Hr3 [Hc3 [Hp Hv]]]]]].
  destruct (Nat.eq_dec r2 r) as [->|Hne1];
    [destruct (Nat.eq_dec c2 c) as [->|Hne2]|].
  - rewrite get_set_same in Hv by assumption.
    rewrite get_set_other in Hv by (destruct Hp; assumption).
    apply (Hval r3 c3 Hr3 Hc3 (peer_sees Hp) Hv).
  - pose proof (@get_set_other b r c r c2 (Num v) (or_intror Hne2)) as E2.
    rewrite E2 in Hv, Hfill.
    destruct (Nat.eq_dec r3 r) as [->|Hne3];
      [destruct (Nat.eq_dec c3 c) as [->|Hne4]|].
    + rewrite get_set_same in Hv by assumption.
      apply (Hval r c2 Hr2 Hc2); [|congruence].
      apply peer_sees, peer_sym. assumption.
    + rewrite get_set_other in Hv by auto.
      apply (Hnone r c2 Hr2 Hc2). apply (proj2 (@flagged_spec b _ _ Hr2 Hc2)).
      split; [assumption|]. exists r, c3. auto.
    + rewrite get_set_other in Hv by auto.
      apply (Hnone r c2 Hr2 Hc2). apply (proj2 (@flagged_spec b _ _ Hr2 Hc2)).
      split; [assumption|]. exists r3, c3. auto.
  - pose proof (@get_set_other b r c r2 c2 (Num v) (or_introl Hne1)) as E2.
    rewrite E2 in Hv, Hfill.
    destruct (Nat.eq_dec r3 r) as [->|Hne3];
      [destruct (Nat.eq_dec c3 c) as [->|Hne4]|].
    + rewrite get_set_same in Hv by assumption.
      apply (Hval r2 c2 Hr2 Hc2); [|congruence].
      apply peer_sees, peer_sym. assumption.
    + rewrite get_set_other in Hv by auto.
      apply (Hnone r2 c2 Hr2 Hc2). apply (proj2 (@flagged_spec b _ _ Hr2 Hc2)).
      split; [assumption|]. exists r, c3. auto.
    + rewrite get_set_other in Hv by auto.
      apply (Hnone r2 c2 Hr2 Hc2). apply (proj2 (@flagged_spec b _ _ Hr2 Hc2)).
      split; [assumption|]. exists r3, c3. auto.
Qed.

Lemma valid_placement_no_conflict_witness :
  shape9 sample_puzzle /\ 0 < 9 /\ 0 < 9 /\ get sample_puzzle 0 0 = Null /\
  isValid sample_puzzle 0 0 1 = true /\ getConflicts sample_puzzle = [] /\
  getConflicts (set sample_puzzle 0 0 (Num 1)) = [].
Proof.
  assert (H1 : shape9 sample_puzzle) by (apply shape9b_spec; vm_compute; reflexivity).
  assert (H2 : 0 < 9) by lia.
  assert (H3 : get sample_puzzle 0 0 = Null) by (vm_compute; reflexivity).
  assert (H4 : isValid sample_puzzle 0 0 1 = true) by (vm_compute; reflexivity).
  assert (H5 : getConflicts sample_puzzle = []) by (vm_compute; reflexivity).
  split; [exact H1|]. split; [exact H2|]. split; [exact H2|]. split; [exact H3|].
  split; [exact H4|]. split; [exact H5|].
  apply (@valid_placement_no_conflict sample_puzzle 0 0 1%Z H1 H2 H2 H3 H4 H5).
Defined.

(** Conflicts come in pairs: a flagged cell has a flagged peer, so the
    detector never reports exactly one cell. *)
Theorem conflicts_in_pairs (g : Board) :
  (forall r c, r < 9 -> c < 9 -> In (key r c) (getConflicts g) ->
     exists r' c', r' < 9 /\ c' < 9 /\ peer r c r' c' /\
                   In (key r' c') (getConflicts g)) /\
  (getConflicts g = [] \/ 2 <= length (getConflicts g)).
Proof.
  assert (Hmate : forall r c, r < 9 -> c < 9 -> In (key r c) (getConflicts g) ->
     exists r' c', r' < 9 /\ c' < 9 /\ peer r c r' c' /\
                   In (key r' c') (getConflicts g)).
  { intros r c Hr Hc Hin. apply (proj1 (@getConflicts_key g r c Hr Hc)) in Hin.
    apply (proj1 (@flagged_spec g r c Hr Hc)) in Hin.
    destruct Hin as [Hfill [r' [c' [Hr' [Hc' [Hp Hv]]]]]].
    exists r', c'. split; [assumption|]. split; [assumption|].
    split; [assumption|]. apply (proj2 (@getConflicts_key g r' c' Hr' Hc')).
    apply (proj2 (@flagged_spec g r' c' Hr' Hc')). split; [congruence|].
    exists r, c. split; [assumption|]. split; [assumption|].
    split; [apply peer_sym; assumption | congruence]. }
  split; [exact Hmate|].
  destruct (getConflicts g) as [|k l] eqn:E; [left; reflexivity|]. right.
  assert (Hk : In k (getConflicts g)) by (rewrite E; left; reflexivity).
  rewrite getConflicts_in in Hk. destruct Hk as [r [c [Hr [Hc [-> _]]]]].
  destruct (Hmate r c Hr Hc (or_introl eq_refl))
    as [r' [c' [Hr' [Hc' [Hp [Heq|Hin]]]]]].
  - exfalso. apply key_inj in Heq; auto. destruct Hp as [Hne _]. lia.
  - destruct l; [contradiction|]. simpl. lia.
Qed.

(** ** [isBoardComplete] *)

Lemma isBoardComplete_cells (board solution : Board) :
  isBoardComplete board solution = true <->
  forall r c, r < 9 -> c < 9 -> get board r c = get solution r c.
Proof.
  unfold isBoardComplete. rewrite forallb_forall. split.
  - intros H r c Hr Hc.
    specialize (H (r, c) (proj2 (in_coords r c) (conj Hr Hc))).
    apply cell_eqb_eq in H. assumption.
  - intros H [r c] Hin. apply in_coords in Hin. apply cell_eqb_eq.
    apply H; tauto.
Qed.

(** On 9x9 boards [isBoardComplete] answers [true] exactly when the two
    boards are equal. *)
Theorem isBoardComplete_iff (board solution : Board) :
  shape9 board -> shape9 solution ->
  (isBoardComplete board solution = true <-> board = solution).
Proof.
  intros Hb Hs. rewrite isBoardComplete_cells. split.
  - intros H. apply board_ext; assumption.
  - intros ->. reflexivity.
Qed.

Lemma isBoardComplete_iff_witness :
  shape9 sample_puzzle /\ shape9 sample_solution /\
  (isBoardComplete sample_puzzle sample_solution = true
   <-> sample_puzzle = sample_solution).
Proof.
  assert (H1 : shape9 sample_puzzle) by (apply shape9b_spec; vm_compute; reflexivity).
  assert (H2 : shape9 sample_solution) by (apply shape9b_spec; vm_compute; reflexivity).
  split; [exact H1|]. split; [exact H2|].
  apply (@isBoardComplete_iff sample_puzzle sample_solution H1 H2).
Defined.

(** ** The counter and the solver on the same grid *)

(** On every well-formed grid, clashing givens or not, the counter answers 0
    exactly when the solver fails; its answer lies in [0, limit], and a
    smaller limit only caps it. *)
Theorem counter_agrees_with_solver (g : Board) (limit : Z) :
  wf g -> (1 <= limit)%Z ->
  exists n, countSolutions g limit = Ret n /\ (0 <= n <= limit)%Z /\
    (n = 0%Z <-> solvePuzzle g = Ret None) /\
    (forall limit', (1 <= limit' <= limit)%Z ->
       countSolutions g limit' = Ret (Z.min limit' n)).
Proof.
  intros Hwf Hlimit.
  destruct (@count_spec search_fuel g Hwf) as [l [_ [Hin Heq]]].
  { pose proof (count_cells_le81 is_null g). unfold search_fuel. lia. }
  exists (Z.min limit (Z.of_nat (length l))).
  split; [apply Heq; assumption|]. split; [lia|]. split.
  - destruct (solvePuzzle_cases Hwf) as [[s [E Hreach]]|[E Hnone]]; rewrite E.
    + split; [|discriminate]. intros Hz. exfalso.
      apply Hin in Hreach. destruct l; [contradiction | simpl in Hz; lia].
    + split; [reflexivity|]. intros _.
      destruct l as [|x l']; [simpl; lia|]. exfalso.
      apply (Hnone x), Hin. left. reflexivity.
  - intros limit' Hl'. unfold countSolutions. rewrite Heq by lia. f_equal. lia.
Qed.

Lemma counter_agrees_with_solver_witness :
  wf clash_grid /\ (1 <= 2)%Z /\
  exists n, countSolutions clash_grid 2 = Ret n /\ (0 <= n <= 2)%Z /\
    (n = 0%Z <-> solvePuzzle clash_grid = Ret None) /\
    (forall limit', (1 <= limit' <= 2)%Z ->
       countSolutions clash_grid limit' = Ret (Z.min limit' n)).
Proof.
  assert (H1 : wf clash_grid) by (apply wfb_spec; vm_compute; reflexivity).
  assert (H2 : (1 <= 2)%Z) by lia.
  split; [exact H1|]. split; [exact H2|].
  apply (@counter_agrees_with_solver clash_grid 2 H1 H2).
Defined.

(** ** The solver on its own result *)

Lemma reachable_wf (blank : Cell) (g s : Board) : reachable blank g s -> wf s.
Proof.
  intros [Hs [Hf _]]. split; [assumption|]. intros r c Hr Hc. right.
  apply Hf; assumption.
Qed.

(** A grid returned by [solvePuzzle] is returned unchanged when it is
    solved again. *)
Theorem solvePuzzle_idempotent (g s : Board) :
  wf g -> solvePuzzle g = Ret (Some s) -> solvePuzzle s = Ret (Some s).
Proof.
  intros Hwf E.
  destruct (solvePuzzle_cases Hwf) as [[s0 [E0 Hreach]]|[E0 _]];
    rewrite E in E0; [|discriminate].
  inversion E0; subst s0. clear E0.
  pose proof (reachable_wf Hreach) as Hwfs.
  assert (Hself : forall s', reachable Null s s' <-> s' = s).
  { intros s'. apply reachable_done; [assumption|].
    intros r c Hr Hc. destruct Hreach as [_ [Hf _]].
    destruct (Hf r c Hr Hc) as [v [Ev _]]. rewrite Ev. discriminate. }
  destruct (solvePuzzle_cases Hwfs) as [[s1 [E1 Hr1]]|[_ Hnone]].
  - apply Hself in Hr1. subst s1. assumption.
  - exfalso. apply (Hnone s). apply Hself. reflexivity.
Qed.

Lemma solvePuzzle_idempotent_witness :
  wf sample_puzzle /\ solvePuzzle sample_puzzle = Ret (Some sample_solution) /\
  solvePuzzle sample_solution = Ret (Some sample_solution).
Proof.
  assert (H1 : wf sample_puzzle) by (apply wfb_spec; vm_compute; reflexivity).
  assert (H2 : solvePuzzle sample_puzzle = Ret (Some sample_solution))
    by (vm_compute; reflexivity).
  split; [exact H1|]. split; [exact H2|].
  apply (@solvePuzzle_idempotent sample_puzzle sample_solution H1 H2).
Defined.

(** ** The filler on any board *)

(** Whether [fillBoard] succeeds on a board does not depend on the random
    draws: two runs on the same board agree on the answer; a failed run
    leaves the board as it found it, a successful one a full grid that keeps
    the cells it was given. *)
Theorem fillBoard_answer_not_random (rand1 rand2 : nat -> nat)
    (fuel1 fuel2 k1 k2 : nat) (g : Board) :
  wf_with (Num 0) g ->
  count_cells is_zero g < fuel1 -> count_cells is_zero g < fuel2 ->
  exists ok s1 s2 k1' k2',
    fillBoard rand1 fuel1 k1 g = Ret (ok, s1, k1') /\
    fillBoard rand2 fuel2 k2 g = Ret (ok, s2, k2') /\
    (ok = false -> s1 = g /\ s2 = g) /\
    (ok = true -> reachable (Num 0) g s1 /\ reachable (Num 0) g s2).
Proof.
  intros Hwf H1 H2.
  destruct (@fill_spec rand1 fuel1 g k1 Hwf H1)
    as [[s1 [k1' [E1 Hr1]]]|[k1' [E1 Hn1]]];
  destruct (@fill_spec rand2 fuel2 g k2 Hwf H2)
    as [[s2 [k2' [E2 Hr2]]]|[k2' [E2 Hn2]]].
  - exists true, s1, s2, k1', k2'. split; [assumption|]. split; [assumption|].
    split; [discriminate | auto].
  - exfalso. apply (Hn2 s1 Hr1).
  - exfalso. apply (Hn1 s2 Hr2).
  - exists false, g, g, k1', k2'. split; [assumption|]. split; [assumption|].
    split; [auto | discriminate].
Qed.

Lemma fillBoard_answer_not_random_witness :
  wf_with (Num 0) blank_board /\
  count_cells is_zero blank_board < search_fuel /\
  count_cells is_zero blank_board < 100 /\
  exists ok s1 s2 k1' k2',
    fillBoard (fun _ => 0) search_fuel 0 blank_board = Ret (ok, s1, k1') /\
    fillBoard (fun k => k) 100 7 blank_board = Ret (ok, s2, k2') /\
    (ok = false -> s1 = blank_board /\ s2 = blank_board) /\
    (ok = true -> reachable (Num 0) blank_board s1 /\
                  reachable (Num 0) blank_board s2).
Proof.
  assert (H1 : count_cells is_zero blank_board < search_fuel) by (vm_compute; lia).
  assert (H2 : count_cells is_zero blank_board < 100) by (vm_compute; lia).
  split; [exact blank_board_wf|]. split; [exact H1|]. split; [exact H2|].
  apply (@fillBoard_answer_not_random (fun _ => 0) (fun k => k) search_fuel 100 0 7
           blank_board blank_board_wf H1 H2).
Defined.

(** ** The solver returns the first completion *)

Lemma find_map_seq {A : Type} (f : A -> bool) (g : nat -> A) (x : A) (n : nat) :
  forall start, find f (map g (seq start n)) = Some x ->
  exists i, start <= i < start + n /\ x = g i /\
            forall j, start <= j < i -> f (g j) = false.
Proof.
  induction n as [|n IH]; intros start H; simpl in H; [discriminate|].
  destruct (f (g start)) eqn:E.
  - inversion H; subst. exists start. split; [lia|]. split; [reflexivity|].
    intros j Hj. lia.
  - destruct (IH (S start) H) as [i [Hi [Hx Hbefore]]].
    exists i. split; [lia|]. split; [assumption|].
    intros j Hj. destruct (Nat.eq_dec j start) as [->|Hne]; [assumption|].
    apply Hbefore. lia.
Qed.

(** The scan stops at the first cell, in row-major order, that passes. *)
Lemma first_cell_first (p : Cell -> bool) (b : Board) (r c : nat) :
  first_cell p b = Some (r, c) ->
  forall r' c', r' < 9 -> c' < 9 -> 9 * r' + c' < 9 * r + c ->
  p (get b r' c') = false.
Proof.
  unfold first_cell. rewrite <- all_cells_coords. unfold all_cells.
  intros H r' c' Hr' Hc' Hlt.
  apply find_map_seq in H. destruct H as [i [Hi [Hx Hbefore]]].
  assert (Er : r = i / 9) by (apply (f_equal fst) in Hx; exact Hx).
  assert (Ec : c = i mod 9) by (apply (f_equal snd) in Hx; exact Hx).
  div_facts i 9.
  assert (Hj : 0 <= 9 * r' + c' < i) by lia.
  specialize (Hbefore _ Hj). cbn [fst snd] in Hbefore.
  div_facts (9 * r' + c') 9.
  replace ((9 * r' + c') / 9) with r' in Hbefore by lia.
  replace ((9 * r' + c') mod 9) with c' in Hbefore by lia.
  assumption.
Qed.

Lemma solve_try_lex (rec : Board -> outcome (bool * Board))
    (g : Board) (r c : nat) :
  wf g -> r < 9 -> c < 9 -> get g r c = Null ->
  (forall r' c', r' < 9 -> c' < 9 -> 9 * r' + c' < 9 * r + c ->
     get g r' c' <> Null) ->
  (forall v, digit v ->
     solve_post (set g r c (Num v)) (rec (set g r c (Num v))) /\
     forall s, rec (set g r c (Num v)) = Ret (true, s) ->
       forall s', reachable Null (set g r c (Num v)) s' -> s' = s \/ lex_lt s s') ->
  forall nums, (forall v, In v nums -> digit v) -> StronglySorted Z.lt nums ->
  forall s, solve_try rec r c nums g = Ret (true, s) ->
  forall s', reachable Null g s' ->
    (exists v, In v nums /\ get s' r c = Num v) -> s' = s \/ lex_lt s s'.
Proof.
  intros Hwf Hr Hc Hb Hbefore Hrec. pose proof Hwf as [Hs _].
  induction nums as [|num rest IH]; intros Hd Hsorted s Hrun s' Hreach' Hval.
  - simpl in Hrun. discriminate.
  - assert (Hnum : digit num) by (apply Hd; left; reflexivity).
    assert (Hd' : forall v, In v rest -> digit v)
      by (intros v Hv; apply Hd; right; assumption).
    inversion Hsorted as [|x xs Hsorted' Hall]; subst.
    rewrite Forall_forall in Hall.
    rewrite solve_try_cons in Hrun.
    rewrite isValid_null_to_zero in Hrun by assumption.
    destruct Hval as [v' [Hin' Hv']].
    destruct (isValid g r c num) eqn:Eval.
    + destruct (Hrec num Hnum) as [[[s0 [E0 Hreach0]]|[E0 Hnone]] Hlex];
        rewrite E0 in Hrun.
      * inversion Hrun; subst s0. clear Hrun.
        destruct Hin' as [<-|Hin'].
        -- apply (Hlex s E0 s').
           apply (reachable_step null_not_digit); auto.
        -- right. exists r, c. split; [assumption|]. split; [assumption|].
           apply (reachable_step null_not_digit) in Hreach0; auto.
           destruct Hreach0 as [[_ [_ [Hk _]]] Hvs].
           destruct Hreach' as [_ [_ [Hk' _]]]. split.
           ++ intros r' c' Hr' Hc' Hlt.
              rewrite Hk, Hk' by auto. reflexivity.
           ++ exists num, v'. split; [assumption|]. split; [assumption|].
              apply Hall. assumption.
      * rewrite (set_restore_eq (Num num) Hs Hr Hc Hb) in Hrun.
        apply (IH Hd' Hsorted' s Hrun s' Hreach').
        destruct Hin' as [<-|Hin']; [|eauto].
        exfalso. apply (Hnone s').
        apply (reachable_step null_not_digit); auto.
    + apply (IH Hd' Hsorted' s Hrun s' Hreach').
      destruct Hin' as [<-|Hin']; [|eauto].
      exfalso. revert Hv'.
      apply (reachable_invalid null_not_digit) with (g := g); auto.
Qed.

Lemma solve_lex (fuel : nat) :
  forall g, wf g -> count_cells is_null g < fuel ->
  forall s, solve fuel g = Ret (true, s) ->
  forall s', reachable Null g s' -> s' = s \/ lex_lt s s'.
Proof.
  induction fuel as [|fuel IH]; intros g Hwf Hfuel s Hrun s' Hreach'; [lia|].
  cbn [solve] in Hrun.
  destruct (first_cell is_null g) as [[r c]|] eqn:Efirst.
  - pose proof (first_cell_some Null _ Efirst) as [Hr [Hc Hb]].
    pose proof Hwf as [Hs _].
    assert (Hsmaller : forall v, digit v ->
              wf (set g r c (Num v)) /\
              count_cells is_null (set g r c (Num v)) < fuel).
    { intros v Hv. split; [apply wf_with_set; assumption|].
      assert (Hne : Num v <> Null) by discriminate.
      pose proof (@count_cells_set Null g r c (Num v) Hs Hr Hc Hb Hne) as Hlt.
      change (fun y => cell_eqb y Null) with is_null in Hlt. lia. }
    apply (@solve_try_lex (solve fuel) g r c Hwf Hr Hc Hb) with (nums := digits);
      auto.
    + intros r' c' Hr' Hc' Hlt.
      apply cell_eqb_neq. apply (first_cell_first _ _ Efirst); assumption.
    + intros v Hv. destruct (Hsmaller v Hv) as [Hwf' Hfuel']. split.
      * apply solve_spec; assumption.
      * apply IH; assumption.
    + intros v. apply digit_in_digits.
    + unfold digits. repeat (constructor; [|repeat constructor; lia]).
      constructor.
    + apply (reachable_value Hr Hc Hreach').
  - inversion Hrun; subst s. left.
    apply (@reachable_done Null g s' Hwf); [|assumption].
    apply first_cell_none. assumption.
Qed.

(** On a grid without clashing givens, [solvePuzzle] returns the completion
    that comes first in row-major reading order: every other completion
    holds a larger digit at the first cell where it differs. *)
Theorem solvePuzzle_first_completion (g s : Board) :
  wf g -> consistent g -> solvePuzzle g = Ret (Some s) ->
  completion g s /\
  forall s', completion g s' -> s' = s \/ lex_lt s s'.
Proof.
  intros Hwf Hcons E.
  assert (Hfuel : count_cells is_null g < search_fuel).
  { pose proof (count_cells_le81 is_null g). unfold search_fuel. lia. }
  unfold solvePuzzle in E. rewrite copy_id in E.
  destruct (solve_spec Hwf Hfuel) as [[s0 [E0 Hreach]]|[E0 _]];
    rewrite E0 in E; [|discriminate].
  inversion E; subst s0. split.
  - apply (reachable_completion _ Hcons). assumption.
  - intros s' Hs'. apply (@solve_lex search_fuel g Hwf Hfuel s E0).
    apply (reachable_completion _ Hcons). assumption.
Qed.

Lemma solvePuzzle_first_completion_witness :
  wf sample_puzzle /\ consistent sample_puzzle /\
  solvePuzzle sample_puzzle = Ret (Some sample_solution) /\
  completion sample_puzzle sample_solution /\
  forall s', completion sample_puzzle s' ->
    s' = sample_solution \/ lex_lt sample_solution s'.
Proof.
  assert (H1 : wf sample_puzzle) by (apply wfb_spec; vm_compute; reflexivity).
  assert (H2 : consistent sample_puzzle)
    by (apply consistentb_spec; vm_compute; reflexivity).
  assert (H3 : solvePuzzle sample_puzzle = Ret (Some sample_solution))
    by (vm_compute; reflexivity).
  split; [exact H1|]. split; [exact H2|]. split; [exact H3|].
  apply (@solvePuzzle_first_completion sample_puzzle sample_solution H1 H2 H3).
Defined.

(** ** More on the carving loop *)

Lemma filter_length_exact {A : Type} (P P' : A -> bool) (a : A) (l : list A) :
  (forall x y : A, {x = y} + {x <> y}) ->
  NoDup l -> In a l -> (forall y, In y l -> y <> a -> P y = P' y) ->
  P a = true -> P' a = false ->
  length (filter P l) = length (filter P' l) + 1.
Proof.
  intros dec Hnd. induction Hnd as [|h t Hnotin Hnd IH];
    intros Hin H Ha Ha'; [contradiction|]. simpl.
  destruct (dec h a) as [->|Hne].
  - rewrite Ha, Ha'. simpl.
    rewrite (@filter_length_same _ P P' t); [lia|].
    intros y Hy. apply H; [right; assumption|]. intros ->. contradiction.
  - destruct Hin as [->|Hin]; [contradiction|].
    rewrite <- (H h (or_introl eq_refl) Hne).
    assert (IH' : length (filter P t) = length (filter P' t) + 1)
      by (apply IH; auto; intros y Hy; apply H; right; assumption).
    destruct (P h); simpl; lia.
Qed.

Lemma coord_eq_dec (x y : nat * nat) : {x = y} + {x <> y}.
Proof.
  destruct x as [x1 x2], y as [y1 y2].
  destruct (Nat.eq_dec x1 y1) as [->|Hne]; [|right; congruence].
  destruct (Nat.eq_dec x2 y2) as [->|Hne]; [left; reflexivity | right; congruence].
Qed.

Lemma coord_neq (r c r' c' : nat) : (r, c) <> (r', c') -> r <> r' \/ c <> c'.
Proof.
  intros H. destruct (Nat.eq_dec r r') as [->|Hne]; [right|left; assumption].
  intros ->. apply H. reflexivity.
Qed.

(** A grid with fewer givens has more completions. *)
Lemma extends_weaken (g g' s : Board) :
  (forall r c, r < 9 -> c < 9 -> get g' r c <> Null -> get g' r c = get g r c) ->
  extends g s -> extends g' s.
Proof.
  intros H Hext r c Hr Hc Hne. rewrite (H r c Hr Hc Hne).
  apply Hext; auto. rewrite <- (H r c Hr Hc Hne). assumption.
Qed.

Lemma NoDup_coords : NoDup coords.
Proof. apply NoDup_list_prod; apply seq_NoDup. Qed.

(** Blanking a clue lowers the number of clues by exactly one. *)
Lemma clue_count_blank_exact (p : Board) (r c : nat) :
  shape9 p -> r < 9 -> c < 9 -> is_clue (get p r c) = true ->
  (clue_count (set p r c Null) + 1 = clue_count p)%Z.
Proof.
  intros Hs Hr Hc Hclue. unfold clue_count, count_cells.
  pose proof (@filter_length_exact _
    (fun rc => is_clue (get p (fst rc) (snd rc)))
    (fun rc => is_clue (get (set p r c Null) (fst rc) (snd rc)))
    (r, c) coords coord_eq_dec NoDup_coords) as H.
  rewrite H; [lia| | | |].
  - apply in_coords. auto.
  - intros [r' c'] _ Hne. simpl. rewrite get_set_other; [reflexivity|].
    destruct (Nat.eq_dec r' r) as [->|Hne1]; [right|left; assumption].
    intros ->. apply Hne. reflexivity.
  - exact Hclue.
  - simpl. rewrite get_set_same by assumption. reflexivity.
Qed.

Lemma cell_eq_dec (x y : Cell) : {x = y} + {x <> y}.
Proof.
  destruct x as [|a], y as [|b]; try (right; discriminate);
    [left; reflexivity|].
  destruct (Z.eq_dec a b) as [->|Hne]; [left; reflexivity | right; congruence].
Qed.

Lemma board_eq_dec (a b : Board) : {a = b} + {a <> b}.
Proof. apply list_eq_dec, list_eq_dec, cell_eq_dec. Qed.

(** A Solution with one cell blanked has no other completion. *)
Lemma one_blank_unique (sol s : Board) (r c : nat) :
  Solution sol -> r < 9 -> c < 9 ->
  completion (set sol r c Null) s -> s = sol.
Proof.
  intros Hsol Hr Hc [Hs Hext].
  pose proof Hsol as Hsol'. apply Solution_iff in Hsol'.
  destruct Hsol' as [Hshape [Hfull Hclash]].
  pose proof Hs as Hs'. apply Solution_iff in Hs'.
  destruct Hs' as [Hshape' [Hfull' Hclash']].
  assert (Hother : forall r' c', r' < 9 -> c' < 9 -> r' <> r \/ c' <> c ->
            get s r' c' = get sol r' c').
  { intros r' c' Hr' Hc' Hne.
    rewrite <- (@get_set_other sol r c r' c' Null Hne).
    apply Hext; auto. rewrite get_set_other by assumption.
    destruct (Hfull r' c' Hr' Hc') as [v [E _]]. rewrite E. discriminate. }
  apply board_ext; auto. intros r' c' Hr' Hc'.
  destruct (Nat.eq_dec r' r) as [->|Hne1];
    [destruct (Nat.eq_dec c' c) as [->|Hne2]|]; auto.
  destruct (Hfull' r c Hr Hc) as [v [Ev Hv]].
  destruct (@row_has sol r v Hfull Hr) as [c0 [Hc0 E0]]; auto.
  destruct (Nat.eq_dec c0 c) as [->|Hne]; [congruence|].
  exfalso. apply (Hclash' r c Hr Hc r c0 Hr Hc0).
  - split; [right; assumption | left; reflexivity].
  - rewrite Hother by auto. congruence.
Qed.

Section CarvingOnce.

Variable sol : Board.
Hypothesis sol_ok : Solution sol.

(** The two-solution test on a board that keeps only cells of the answer
    key: an answer other than 1 comes with a second completion. *)
Lemma countSolutions_second (p : Board) :
  shape9 p ->
  (forall r c, r < 9 -> c < 9 -> get p r c = Null \/ get p r c = get sol r c) ->
  exists n, countSolutions p 2 = Ret n /\
    (n = 1%Z -> forall s, completion p s -> s = sol) /\
    (n <> 1%Z -> exists s, completion p s /\ s <> sol).
Proof.
  intros Hs Hsub.
  assert (Hinv0 : carve_inv sol sol) by (apply carve_inv_init; assumption).
  assert (Hwf : wf p).
  { split; [assumption|]. intros r c Hr Hc.
    destruct (Hsub r c Hr Hc) as [E|E]; [left; assumption|].
    right. rewrite E. apply (sol_full sol_ok); assumption. }
  assert (Hcons : consistent p).
  { intros r c Hr Hc Hne r' c' Hr' Hc' Hp.
    destruct (Hsub r c Hr Hc) as [E|E]; [contradiction|].
    destruct (Hsub r' c' Hr' Hc') as [E'|E'].
    - rewrite E'. auto.
    - rewrite E, E'. apply (sol_no_clash sol_ok); assumption. }
  assert (Hsol : completion p sol).
  { split; [exact sol_ok|]. intros r c Hr Hc Hne.
    destruct (Hsub r c Hr Hc) as [E|E]; congruence. }
  destruct (@count_spec search_fuel p Hwf) as [l [ND [Hin Heq]]].
  { pose proof (count_cells_le81 is_null p). unfold search_fuel. lia. }
  exists (Z.min 2 (Z.of_nat (length l))). split; [apply Heq; lia|].
  clear Heq.
  assert (Hl : forall s, In s l <-> completion p s).
  { intros s. rewrite Hin. apply reachable_completion. assumption. }
  apply Hl in Hsol. split.
  - intros Hone s Hcomp. apply Hl in Hcomp.
    destruct l as [|x [|y l']]; simpl in Hone, Hcomp, Hsol; try lia.
    intuition congruence.
  - intros Hmany. destruct l as [|x [|y l']]; simpl in Hmany; try lia.
    + contradiction.
    + inversion ND as [|x0 xs Hnotin _]; subst.
      destruct (board_eq_dec x sol) as [->|Hne].
      * exists y. split; [apply Hl; right; left; reflexivity|].
        intros ->. apply Hnotin. left. reflexivity.
      * exists x. split; [apply Hl; left; reflexivity | assumption].
Qed.

Lemma carve_exact (cells : list (nat * nat)) (target : Z) :
  NoDup cells -> (forall rc, In rc cells -> fst rc < 9 /\ snd rc < 9) ->
  forall p removed p',
  carve_inv sol p ->
  (forall rc, In rc cells -> get p (fst rc) (snd rc) <> Null) ->
  (clue_count p = 81 - removed)%Z -> (removed <= target)%Z ->
  (forall r c, r < 9 -> c < 9 -> get p r c <> Null -> ~ In (r, c) cells ->
     exists s, completion (set p r c Null) s /\ s <> sol) ->
  carve cells target p removed = Ret p' ->
  (clue_count p' = 81 - target)%Z \/ irreducible sol p'.
Proof.
  intros Hnd. induction Hnd as [|[row col] rest Hnotin Hnd IH];
    intros Hcells p removed p' Hinv Hfilled Hcount Hrem Hdone Hrun.
  - cbn [carve] in Hrun. inversion Hrun; subst. right.
    intros r c Hr Hc Hne. apply Hdone; auto.
  - cbn [carve] in Hrun. destruct (target <=? removed)%Z eqn:Ebreak.
    + apply Z.leb_le in Ebreak. inversion Hrun; subst. left. lia.
    + apply Z.leb_gt in Ebreak.
      destruct (Hcells (row, col) (or_introl eq_refl)) as [Hr Hc]. simpl in Hr, Hc.
      assert (Hrest : forall rc, In rc rest -> fst rc < 9 /\ snd rc < 9)
        by (intros rc Hrc; apply Hcells; right; assumption).
      pose proof Hinv as [Hs [Hsub Huniq]].
      rewrite copy_id in Hrun.
      assert (Hsub1 : forall r c, r < 9 -> c < 9 ->
        get (set p row col Null) r c = Null \/
        get (set p row col Null) r c = get sol r c).
      { intros r c Hr' Hc'.
        destruct (Nat.eq_dec r row) as [->|Hne1];
          [destruct (Nat.eq_dec c col) as [->|Hne2]|].
        - left. apply get_set_same; assumption.
        - rewrite get_set_other by auto. auto.
        - rewrite get_set_other by auto. auto. }
      destruct (@countSolutions_second (set p row col Null)
                  (shape9_set row col Null Hs) Hsub1) as [n [En [Hone Hmany]]].
      rewrite En in Hrun.
      destruct (n =? 1)%Z eqn:En1; cbn [negb] in Hrun.
      * apply Z.eqb_eq in En1.
        apply (IH Hrest (set p row col Null) (removed + 1)%Z p'); auto.
        -- split; [apply shape9_set; assumption|]. split; auto.
        -- intros [r c] Hin. simpl. rewrite get_set_other.
           ++ apply (Hfilled (r, c)). right. assumption.
           ++ destruct (Nat.eq_dec r row) as [->|Hne1]; [right|left; assumption].
              intros ->. contradiction.
        -- assert (Hclue : is_clue (get p row col) = true).
           { pose proof (Hfilled (row, col) (or_introl eq_refl)) as Hne.
             simpl in Hne. destruct (Hsub row col Hr Hc) as [E|E];
               [contradiction|].
             rewrite E. apply is_clue_spec. apply (sol_full sol_ok); assumption. }
           pose proof (clue_count_blank_exact Hs Hr Hc Hclue). lia.
        -- lia.
        -- intros r c Hr' Hc' Hne Hnin.
           assert (Hrc : r <> row \/ c <> col).
           { destruct (Nat.eq_dec r row) as [->|Hne1]; [right|left; assumption].
             intros ->. apply Hne. apply get_set_same; assumption. }
           rewrite get_set_other in Hne by assumption.
           destruct (Hdone r c Hr' Hc' Hne) as [s [[Hsol Hext] Hdiff]].
           { intros [E|Hin]; [inversion E; lia | contradiction]. }
           exists s. split; [|assumption]. split; [assumption|].
           apply (@extends_weaken (set p r c Null)); [|assumption].
           intros r2 c2 Hr2 Hc2 Hne2.
           destruct (coord_eq_dec (r2, c2) (r, c)) as [E|Hn1].
           { inversion E; subst r2 c2.
             rewrite get_set_same in Hne2 by (auto using shape9_set). congruence. }
           apply coord_neq in Hn1.
           rewrite get_set_other in Hne2 |- * by assumption.
           rewrite (@get_set_other p r c r2 c2 Null Hn1).
           destruct (coord_eq_dec (r2, c2) (row, col)) as [E|Hn2].
           { inversion E; subst r2 c2.
             rewrite get_set_same in Hne2 by assumption. congruence. }
           apply coord_neq in Hn2. apply get_set_other. assumption.
      * apply Z.eqb_neq in En1. rewrite set_restore in Hrun by assumption.
        apply (IH Hrest p removed p'); auto.
        -- intros rc Hin. apply Hfilled. right. assumption.
        -- intros r c Hr' Hc' Hne Hnin.
           destruct (coord_eq_dec (r, c) (row, col)) as [E|Hne1].
           ++ inversion E; subst. apply Hmany. assumption.
           ++ apply Hdone; auto. intros [E|Hin]; [congruence | contradiction].
Qed.

End CarvingOnce.

(** The steps of a run of the generator. *)
Lemma generatePuzzle_run (rand : nat -> nat) (k : nat) (d : Difficulty) :
  exists sol k1 cells k2 p,
    Solution sol /\
    shuffle rand all_cells k1 = (cells, k2) /\
    carve cells (81 - DIFFICULTY_CLUES d)%Z sol 0%Z = Ret p /\
    generatePuzzle rand k d = Ret (p, sol).
Proof.
  destruct (fill_blank_board rand k) as [sol [k1 [E Hsol]]].
  destruct (shuffle rand all_cells k1) as [cells k2] eqn:Esh.
  assert (Hrange : forall rc, In rc cells -> fst rc < 9 /\ snd rc < 9).
  { intros rc Hin. apply all_cells_in_range.
    apply (shuffle_in _ _ _ Esh). assumption. }
  destruct (@carve_unique sol Hsol cells (81 - DIFFICULTY_CLUES d)%Z Hrange sol 0%Z
              (carve_inv_init Hsol)) as [p [Hrun _]].
  exists sol, k1, cells, k2, p. split; [assumption|]. split; [assumption|].
  split; [assumption|].
  unfold generatePuzzle. rewrite E, copy_id, Esh, Hrun. reflexivity.
Qed.

Lemma carve_run_exact (rand : nat -> nat) (k1 k2 : nat) (cells : list (nat * nat))
    (sol p : Board) (target : Z) :
  Solution sol -> shuffle rand all_cells k1 = (cells, k2) -> (0 <= target)%Z ->
  carve cells target sol 0%Z = Ret p ->
  carve_inv sol p /\
  ((clue_count p = 81 - target)%Z \/ irreducible sol p).
Proof.
  intros Hsol Esh Htarget Hrun.
  pose proof (shuffle_perm rand all_cells k1) as Hperm.
  rewrite Esh in Hperm. cbn [fst] in Hperm. rewrite all_cells_coords in Hperm.
  assert (Hrange : forall rc, In rc cells -> fst rc < 9 /\ snd rc < 9).
  { intros [r c] Hin. apply (Permutation_in _ Hperm) in Hin.
    apply in_coords in Hin. assumption. }
  split.
  - destruct (@carve_unique sol Hsol cells target Hrange sol 0%Z
                (carve_inv_init Hsol)) as [p0 [Hrun0 Hinv]].
    rewrite Hrun in Hrun0. inversion Hrun0; subst. assumption.
  - apply (@carve_exact sol Hsol cells target) with (p := sol) (removed := 0%Z);
      auto.
    + apply (Permutation_NoDup (Permutation_sym Hperm)). apply NoDup_coords.
    + apply carve_inv_init. assumption.
    + intros [r c] Hin. simpl. destruct (Hrange _ Hin) as [Hr Hc]. simpl in Hr, Hc.
      destruct (sol_full Hsol Hr Hc) as [v [E _]]. rewrite E. discriminate.
    + rewrite clue_count_full by (apply (sol_full Hsol)). lia.
    + intros r c Hr Hc _ Hnin. exfalso. apply Hnin.
      apply (Permutation_in _ (Permutation_sym Hperm)). apply in_coords. auto.
Qed.

(** A generated puzzle has exactly the clue count of its tier, or else none
    of its clues can be blanked without admitting a second completion. *)
Theorem generatePuzzle_exact_or_irreducible (rand : nat -> nat) (k : nat)
    (d : Difficulty) :
  exists puzzle solution,
    generatePuzzle rand k d = Ret (puzzle, solution) /\
    (clue_count puzzle = DIFFICULTY_CLUES d \/ irreducible solution puzzle).
Proof.
  destruct (generatePuzzle_run rand k d)
    as [sol [k1 [cells [k2 [p [Hsol [Esh [Hrun E]]]]]]]].
  exists p, sol. split; [assumption|].
  destruct (@carve_run_exact rand k1 k2 cells sol p (81 - DIFFICULTY_CLUES d)%Z)
    as [_ [Hexact|Hirr]]; auto.
  - destruct d; simpl; lia.
  - left. lia.
Qed.

(** The generated puzzle keeps only cells of its answer key, has that key as
    its only completion, and has at least one empty cell. *)
Lemma generatePuzzle_blank (rand : nat -> nat) (k : nat) (d : Difficulty) :
  exists puzzle solution,
    generatePuzzle rand k d = Ret (puzzle, solution) /\
    Solution solution /\ carve_inv solution puzzle /\
    exists r c, r < 9 /\ c < 9 /\ get puzzle r c = Null.
Proof.
  destruct (generatePuzzle_run rand k d)
    as [sol [k1 [cells [k2 [p [Hsol [Esh [Hrun E]]]]]]]].
  exists p, sol. split; [assumption|]. split; [assumption|].
  destruct (@carve_run_exact rand k1 k2 cells sol p (81 - DIFFICULTY_CLUES d)%Z)
    as [Hinv Hcases]; auto.
  { destruct d; simpl; lia. }
  split; [assumption|].
  destruct (first_cell is_null p) as [[r c]|] eqn:Efirst.
  - apply (first_cell_some Null) in Efirst. exists r, c. assumption.
  - exfalso. pose proof (@first_cell_none Null p Efirst) as Hfull.
    assert (Heq : p = sol).
    { destruct Hinv as [Hs [Hsub _]]. apply board_ext; auto.
      - destruct Hsol; assumption.
      - intros r c Hr Hc. destruct (Hsub r c Hr Hc) as [En|En]; auto.
        exfalso. apply (Hfull r c Hr Hc En). }
    subst p. destruct Hcases as [Hexact|Hirr].
    + rewrite clue_count_full in Hexact by (apply (sol_full Hsol)).
      destruct d; simpl in Hexact; lia.
    + destruct (Hirr 0 0) as [s [Hcomp Hdiff]]; try lia.
      * destruct (@sol_full sol Hsol 0 0) as [v [Ev _]]; try lia.
        rewrite Ev. discriminate.
      * apply Hdiff. apply (@one_blank_unique sol s 0 0); auto; lia.
Qed.

(** A generated puzzle shows no conflict, has at least one empty cell, and
    so is not complete yet. *)
Theorem generatePuzzle_playable (rand : nat -> nat) (k : nat) (d : Difficulty) :
  exists puzzle solution,
    generatePuzzle rand k d = Ret (puzzle, solution) /\
    getConflicts puzzle = [] /\
    (exists r c, r < 9 /\ c < 9 /\ get puzzle r c = Null) /\
    isBoardComplete puzzle solution = false.
Proof.
  destruct (generatePuzzle_blank rand k d)
    as [p [sol [E [Hsol [Hinv Hblank]]]]].
  exists p, sol. split; [assumption|].
  split; [|split; [exact Hblank|]].
  - apply (proj2 (getConflicts_nil p)). intros r c Hr Hc Hf.
    apply (proj1 (@flagged_spec p r c Hr Hc)) in Hf.
    destruct Hf as [Hfill [r' [c' [Hr' [Hc' [Hp Hv]]]]]].
    apply (carve_inv_consistent Hsol Hinv Hr Hc Hfill Hr' Hc' Hp Hv).
  - destruct Hblank as [r [c [Hr [Hc En]]]].
    destruct (isBoardComplete p sol) eqn:Ec; [|reflexivity]. exfalso.
    rewrite isBoardComplete_cells in Ec. specialize (Ec r c Hr Hc).
    destruct (sol_full Hsol Hr Hc) as [v [Ev _]]. congruence.
Qed.

(** ** Every order can come out of [shuffle] *)

Lemma nth_error_upd_same {A : Type} (i : nat) (x : A) (l : list A) :
  i < length l -> nth_error (upd i x l) i = Some x.
Proof.
  revert i; induction l as [|h t IH]; intros [|i]; simpl; intros H;
    try lia; auto.
  apply IH; lia.
Qed.

Lemma nth_error_upd_other {A : Type} (i j : nat) (x : A) (l : list A) :
  i <> j -> nth_error (upd i x l) j = nth_error l j.
Proof.
  revert i j; induction l as [|h t IH]; intros [|i] [|j]; simpl; intros H;
    try lia; auto.
Qed.

Lemma upd_app_l {A : Type} (i : nat) (x : A) (l1 l2 : list A) :
  i < length l1 -> upd i x (l1 ++ l2) = upd i x l1 ++ l2.
Proof.
  revert i; induction l1 as [|h t IH]; intros [|i]; simpl; intros H;
    try lia; auto.
  f_equal. apply IH. lia.
Qed.

Lemma swap_app_l {A : Type} (l1 l2 : list A) (i j : nat) :
  i < length l1 -> j < length l1 -> swap (l1 ++ l2) i j = swap l1 i j ++ l2.
Proof.
  intros Hi Hj. unfold swap. rewrite !nth_error_app1 by assumption.
  destruct (nth_error l1 i) as [x|]; [|reflexivity].
  destruct (nth_error l1 j) as [y|]; [|reflexivity].
  rewrite upd_app_l by assumption.
  apply upd_app_l. rewrite length_upd. assumption.
Qed.

Lemma length_swap {A : Type} (l : list A) (i j : nat) :
  length (swap l i j) = length l.
Proof. apply Permutation_length, swap_perm. Qed.

Lemma nth_error_swap {A : Type} (l : list A) (i j : nat) (x : A) :
  i < length l -> nth_error l j = Some x -> nth_error (swap l i j) i = Some x.
Proof.
  intros Hi Hj. unfold swap. rewrite Hj.
  destruct (nth_error l i) as [y|] eqn:Ei;
    [|apply nth_error_None in Ei; lia].
  destruct (Nat.eq_dec j i) as [->|Hne].
  - rewrite Ei in Hj. inversion Hj; subst.
    apply nth_error_upd_same. rewrite length_upd. assumption.
  - rewrite nth_error_upd_other by assumption.
    apply nth_error_upd_same. assumption.
Qed.

Lemma firstn_S_nth_error {A : Type} (l : list A) (n : nat) (x : A) :
  nth_error l n = Some x -> firstn (S n) l = firstn n l ++ [x].
Proof.
  revert n. induction l as [|h t IH]; intros [|n] H; simpl in *;
    try discriminate.
  - inversion H. reflexivity.
  - f_equal. apply IH. assumption.
Qed.

Lemma skipn_nth_error {A : Type} (l : list A) (n : nat) (x : A) :
  nth_error l n = Some x -> skipn n l = x :: skipn (S n) l.
Proof.
  revert n. induction l as [|h t IH]; intros [|n] H; simpl in *;
    try discriminate.
  - inversion H. reflexivity.
  - apply IH. assumption.
Qed.

(** The loop only looks at the draws from position [k] on. *)
Lemma shuffle_loop_ext (rand rand' : nat -> nat) {T : Type} (i : nat) :
  forall (a : list T) (k : nat),
  (forall m, k <= m -> rand m = rand' m) ->
  shuffle_loop rand i a k = shuffle_loop rand' i a k.
Proof.
  induction i as [|i IH]; intros a k H; simpl; [reflexivity|].
  rewrite (H k) by lia. apply IH. intros m Hm. apply H. lia.
Qed.

Lemma shuffle_loop_reach {T : Type} (i : nat) :
  forall (a p : list T) (k : nat),
  length a = length p -> i < length a ->
  Permutation (firstn (S i) a) (firstn (S i) p) ->
  skipn (S i) a = skipn (S i) p ->
  exists rand, fst (shuffle_loop rand i a k) = p.
Proof.
  induction i as [|n IH]; intros a p k Hlen Hi Hperm Hskip.
  - exists (fun _ => 0). simpl.
    destruct a as [|h t]; [simpl in Hi; lia|].
    destruct p as [|h' t']; [discriminate|].
    simpl in Hperm, Hskip. apply Permutation_length_1 in Hperm. congruence.
  - destruct (nth_error p (S n)) as [x|] eqn:Ex;
      [|apply nth_error_None in Ex; lia].
    assert (Hin : In x (firstn (S (S n)) a)).
    { apply (Permutation_in _ (Permutation_sym Hperm)).
      rewrite (firstn_S_nth_error _ _ Ex). apply in_or_app.
      right. left. reflexivity. }
    apply In_nth_error in Hin. destruct Hin as [j Hj].
    assert (Hjlt : j < S (S n)).
    { assert (Hs : nth_error (firstn (S (S n)) a) j <> None) by congruence.
      apply nth_error_Some in Hs. rewrite length_firstn in Hs. lia. }
    rewrite nth_error_firstn in Hj.
    destruct (j <? S (S n)) eqn:Ejlt; [|discriminate].
    assert (Hsplit : a = firstn (S (S n)) a ++ skipn (S (S n)) a)
      by (symmetry; apply firstn_skipn).
    assert (Hpre : length (firstn (S (S n)) a) = S (S n))
      by (rewrite length_firstn; lia).
    assert (Hswap : swap a (S n) j
                    = swap (firstn (S (S n)) a) (S n) j ++ skipn (S (S n)) a).
    { rewrite Hsplit at 1. apply swap_app_l; lia. }
    assert (Hx' : nth_error (swap a (S n) j) (S n) = Some x)
      by (apply nth_error_swap; assumption).
    assert (Hfirst : firstn (S (S n)) (swap a (S n) j)
                     = swap (firstn (S (S n)) a) (S n) j).
    { rewrite Hswap. rewrite firstn_app, length_swap, Hpre, Nat.sub_diag.
      simpl firstn at 2. rewrite app_nil_r.
      apply firstn_all2. rewrite length_swap. lia. }
    assert (Hrest : skipn (S (S n)) (swap a (S n) j) = skipn (S (S n)) a).
    { rewrite Hswap. rewrite skipn_app, length_swap, Hpre, Nat.sub_diag.
      rewrite skipn_all2 by (rewrite length_swap; lia). reflexivity. }
    destruct (IH (swap a (S n) j) p (S k)) as [rand0 Hrand0].
    + rewrite length_swap. assumption.
    + rewrite length_swap. lia.
    + apply Permutation_app_inv_r with (l := [x]).
      rewrite <- (firstn_S_nth_error _ _ Hx'), <- (firstn_S_nth_error _ _ Ex).
      rewrite Hfirst. apply (perm_trans (swap_perm _ _ _)). assumption.
    + rewrite (skipn_nth_error _ _ Hx'), (skipn_nth_error _ _ Ex).
      rewrite Hrest, Hskip. reflexivity.
    + exists (fun m => if m =? k then j else rand0 m).
      cbn [shuffle_loop]. rewrite Nat.eqb_refl.
      replace (j mod (S n + 1)) with j by (symmetry; apply Nat.mod_small; lia).
      rewrite <- Hrand0. f_equal. apply shuffle_loop_ext.
      intros m Hm. destruct (m =? k) eqn:Em; [|reflexivity].
      apply Nat.eqb_eq in Em. lia.
Qed.

(** Every rearrangement of the argument is the result of [shuffle] for some
    sequence of random draws. *)
Theorem shuffle_reaches_every_order {T : Type} (arr p : list T) (k : nat) :
  Permutation arr p -> exists rand, fst (shuffle rand arr k) = p.
Proof.
  intros Hperm. pose proof (Permutation_length Hperm) as Hlen.
  destruct arr as [|h t].
  - apply Permutation_nil in Hperm. subst p. exists (fun _ => 0). reflexivity.
  - unfold shuffle. apply shuffle_loop_reach.
    + assumption.
    + simpl. lia.
    + rewrite !firstn_all2 by (simpl in *; lia). assumption.
    + rewrite !skipn_all2 by (simpl in *; lia). reflexivity.
Qed.

Lemma shuffle_reaches_every_order_witness :
  Permutation [1; 2; 3]%Z [3; 1; 2]%Z /\
  exists rand, fst (shuffle rand [1; 2; 3]%Z 0) = [3; 1; 2]%Z.
Proof.
  assert (H : Permutation [1; 2; 3]%Z [3; 1; 2]%Z).
  { apply (perm_trans (l' := [1; 3; 2]%Z)).
    - apply perm_skip, perm_swap.
    - apply perm_swap. }
  split; [exact H|].
  apply (@shuffle_reaches_every_order Z [1; 2; 3]%Z [3; 1; 2]%Z 0 H).
Defined.

(** * The game component *)

Lemma is_null_true (x : Cell) : is_null x = true <-> x = Null.
Proof. apply cell_eqb_eq. Qed.

Lemma is_null_false (x : Cell) : is_null x = false <-> x <> Null.
Proof. apply cell_eqb_neq. Qed.

Lemma wf_set_cell (b : Board) (r c : nat) (x : Cell) :
  wf b -> r < 9 -> c < 9 ->
  (x = Null \/ exists v, x = Num v /\ digit v) -> wf (set b r c x).
Proof.
  intros [Hs Hcells] Hr Hc Hx. split; [apply shape9_set; assumption|].
  intros r' c' Hr' Hc'.
  destruct (coord_eq_dec (r', c') (r, c)) as [E|E].
  - inversion E; subst r' c'. rewrite get_set_same by assumption. exact Hx.
  - rewrite get_set_other by (apply coord_neq; exact E). apply Hcells; assumption.
Qed.

Lemma extends_set (init b : Board) (r c : nat) (x : Cell) :
  get init r c = Null -> extends init b -> extends init (set b r c x).
Proof.
  intros Hn Hext r' c' Hr' Hc' Hne.
  destruct (coord_eq_dec (r', c') (r, c)) as [E|E].
  - inversion E; subst r' c'. contradiction.
  - rewrite get_set_other by (apply coord_neq; exact E). apply Hext; assumption.
Qed.

Lemma extends_trans (a b c : Board) : extends a b -> extends b c -> extends a c.
Proof.
  intros H1 H2 r c0 Hr Hc Hne. pose proof (H1 r c0 Hr Hc Hne) as E.
  rewrite <- E. apply H2; auto. rewrite E. exact Hne.
Qed.

Lemma extends_refl (a : Board) : extends a a.
Proof. intros r c _ _ _. reflexivity. Qed.

Lemma Forall_removelast {A : Type} (P : A -> Prop) (l : list A) :
  Forall P l -> Forall P (removelast l).
Proof.
  induction 1 as [|x l Hx Hl IH]; [constructor|].
  simpl. destruct l; [constructor|]. constructor; assumption.
Qed.

Lemma last_In {A : Type} (l : list A) (d : A) : l <> [] -> In (last l d) l.
Proof.
  induction l as [|x l IH]; [congruence|]. intros _.
  destruct l as [|y l]; [left; reflexivity|].
  right. apply IH. discriminate.
Qed.

Lemma consistent_no_conflicts (g : Board) :
  getConflicts g = [] <-> consistent g.
Proof.
  rewrite getConflicts_nil. split.
  - intros H r c Hr Hc Hne r' c' Hr' Hc' Hp E.
    apply (H r c Hr Hc). apply (proj2 (@flagged_spec g r c Hr Hc)).
    split; [exact Hne|]. exists r', c'. auto.
  - intros H r c Hr Hc Hf.
    apply (proj1 (@flagged_spec g r c Hr Hc)) in Hf.
    destruct Hf as [Hne [r' [c' [Hr' [Hc' [Hp E]]]]]].
    apply (H r c Hr Hc Hne r' c' Hr' Hc' Hp E).
Qed.

Lemma arrowTarget_in_grid (k : string) (r c r' c' : nat) :
  r < 9 -> c < 9 -> arrowTarget k r c = Some (r', c') -> r' < 9 /\ c' < 9.
Proof.
  intros Hr Hc. unfold arrowTarget.
  destruct (String.eqb k "ArrowUp"); [intros E; inversion E; lia|].
  destruct (String.eqb k "ArrowDown"); [intros E; inversion E; lia|].
  destruct (String.eqb k "ArrowLeft"); [intros E; inversion E; lia|].
  destruct (String.eqb k "ArrowRight"); [intros E; inversion E; lia|].
  discriminate.
Qed.

(** [newGame] returns from every state, and its state satisfies the
    invariant with the fresh puzzle on the board, which is not yet solved. *)
Lemma newGame_ok (rand : nat -> nat) (k : nat) (d : Difficulty) (s : Game) :
  exists s', newGame rand k d s = Ret s' /\ game_ok s' /\
    board s' = initialBoard s' /\ board s' <> solution s' /\
    conflicts s' = [] /\ isComplete s' = false /\ timerRunning s' = true /\
    showComplete s' = false /\ history s' = [] /\ mistakes s' = 0%Z /\
    difficulty s' = difficulty s.
Proof.
  unfold newGame.
  destruct (generatePuzzle_blank rand k d)
    as [p [sol [E [Hsol [Hinv [r [c [Hr [Hc Hn]]]]]]]]].
  rewrite E. eexists. split; [reflexivity|].
  unfold game_ok.
  cbn [board initialBoard solution selectedCell conflicts isComplete
       timerRunning showComplete history mistakes difficulty].
  rewrite !copy_id.
  split; [|repeat split; auto].
  - split; [assumption|]. split; [assumption|].
    split; [|split; [constructor|exact I]].
    split; [apply (carve_inv_wf Hsol Hinv)|apply extends_refl].
  - intros Heq. destruct (sol_full Hsol Hr Hc) as [v [Ev _]]. congruence.
Qed.

(** Every event the interface can produce leads from a state that satisfies
    the invariant to a state that satisfies it. *)
Lemma game_ok_step (rand : nat -> nat) (e : Event) (s : Game) :
  game_ok s -> event_ok e ->
  exists s', step rand e s = Ret s' /\ game_ok s'.
Proof.
  intros Hok Hev.
  pose proof Hok as (Hsol & Hinv & [Hwf Hext] & Hhist & Hsel).
  destruct e as [num| | | | |k|d k|r c|k| | |]; cbn [step].
  - (* placeNumber *)
    eexists. split; [reflexivity|]. unfold placeNumber.
    destruct (selectedCell s) as [[r c]|] eqn:Esel; [|exact Hok].
    destruct (isComplete s); [exact Hok|].
    destruct (is_null (get (initialBoard s) r c)) eqn:En; cbn [negb];
      [|exact Hok].
    apply is_null_true in En.
    destruct (noteMode s).
    + unfold game_ok. cbn [board initialBoard solution selectedCell history].
      tauto.
    + unfold game_ok. cbn [board initialBoard solution selectedCell history].
      rewrite !copy_id.
      split; [assumption|]. split; [assumption|].
      split; [|split; [|exact Hsel]].
      * split; [|apply extends_set; assumption].
        apply wf_set_cell; try tauto.
        destruct (holds (get (board s) r c) num); [left; reflexivity|].
        right. exists num. split; [reflexivity|exact Hev].
      * apply Forall_app. split; [assumption|]. constructor; [|constructor].
        split; assumption.
  - (* erase *)
    eexists. split; [reflexivity|]. unfold erase.
    destruct (selectedCell s) as [[r c]|] eqn:Esel; [|exact Hok].
    destruct (isComplete s); [exact Hok|].
    destruct (is_null (get (initialBoard s) r c)) eqn:En; cbn [negb];
      [|exact Hok].
    apply is_null_true in En.
    destruct (match notes_get (notes s) (key r c) with
              | Some x => negb (length x =? 0)
              | None => false
              end).
    + unfold game_ok. cbn [board initialBoard solution selectedCell history].
      tauto.
    + unfold game_ok. cbn [board initialBoard solution selectedCell history].
      rewrite !copy_id.
      split; [assumption|]. split; [assumption|].
      split; [|split; [|exact Hsel]].
      * split; [|apply extends_set; assumption].
        apply wf_set_cell; try tauto.
      * apply Forall_app. split; [assumption|]. constructor; [|constructor].
        split; assumption.
  - (* undo *)
    eexists. split; [reflexivity|]. unfold undo.
    destruct (history s) as [|b0 h] eqn:Eh; [exact Hok|].
    unfold game_ok. cbn [board initialBoard solution selectedCell history].
    rewrite copy_id.
    split; [assumption|]. split; [assumption|].
    split; [|split; [|exact Hsel]].
    + rewrite Forall_forall in Hhist. apply Hhist. apply last_In. discriminate.
    + apply Forall_removelast. assumption.
  - (* hint *)
    eexists. split; [reflexivity|]. unfold hint.
    destruct (selectedCell s) as [[r c]|] eqn:Esel; [|exact Hok].
    destruct (isComplete s); [exact Hok|].
    destruct (is_null (get (initialBoard s) r c)) eqn:En; cbn [negb];
      [|exact Hok].
    apply is_null_true in En.
    unfold game_ok. cbn [board initialBoard solution selectedCell history].
    rewrite !copy_id.
    split; [assumption|]. split; [assumption|].
    split; [|split; [|exact Hsel]].
    + split; [|apply extends_set; assumption].
      apply wf_set_cell; try tauto.
      right. apply (sol_full Hsol); tauto.
    + apply Forall_app. split; [assumption|]. constructor; [|constructor].
      split; assumption.
  - (* handleSolve *)
    unfold handleSolve.
    destruct (solvePuzzle_cases Hwf) as [[s1 [E Hreach]]|[E _]]; rewrite E.
    + eexists. split; [reflexivity|].
      unfold game_ok. cbn [board initialBoard solution selectedCell history].
      rewrite copy_id.
      split; [assumption|]. split; [assumption|].
      split; [|split; assumption].
      split; [apply (reachable_wf Hreach)|].
      apply (extends_trans Hext). destruct Hreach as [_ [_ [Hk _]]]. exact Hk.
    + exists s. split; [reflexivity|exact Hok].
  - (* newGame *)
    destruct (newGame_ok rand k (difficulty s) s) as [s' [E [Hok' _]]].
    exists s'. split; assumption.
  - (* the difficulty buttons *)
    unfold chooseDifficulty.
    destruct (newGame_ok rand k d s) as [s' [E [Hok' _]]]. rewrite E.
    eexists. split; [reflexivity|].
    unfold game_ok. cbn [board initialBoard solution selectedCell history].
    exact Hok'.
  - (* a click on a cell *)
    eexists. split; [reflexivity|]. unfold cellClick, game_ok.
    cbn [board initialBoard solution selectedCell history].
    split; [assumption|]. split; [assumption|].
    split; [split; assumption|]. split; [assumption|].
    destruct (selectedCell s) as [[r0 c0]|]; [|exact Hev].
    destruct ((r0 =? r) && (c0 =? c)); [exact I|exact Hev].
  - (* an arrow key *)
    eexists. split; [reflexivity|]. unfold arrowKey.
    destruct (selectedCell s) as [[r c]|] eqn:Esel; [|exact Hok].
    destruct (arrowTarget k r c) as [[r' c']|] eqn:Et; [|exact Hok].
    unfold game_ok. cbn [board initialBoard solution selectedCell history].
    split; [assumption|]. split; [assumption|].
    split; [split; assumption|]. split; [assumption|].
    apply (@arrowTarget_in_grid k r c); tauto.
  - eexists. split; [reflexivity|]. exact Hok.
  - eexists. split; [reflexivity|]. exact Hok.
  - eexists. split; [reflexivity|]. exact Hok.
Qed.

(** In every state of a session the solution is the one completion of the
    initial board, the board and every board of the undo history are
    well-formed grids that hold every given clue, the selection lies in the
    grid, and every event leads to a next state. *)
Theorem session_invariant (rand : nat -> nat) (s : Game) :
  played rand s ->
  game_ok s /\
  forall e, event_ok e -> exists s', step rand e s = Ret s' /\ played rand s'.
Proof.
  intros Hp.
  assert (Hok : game_ok s).
  { induction Hp as [k s E|e s s' Hp IH Hev E].
    - destruct (newGame_ok rand k medium initialGame) as [s' [E' [Hok' _]]].
      congruence.
    - destruct (@game_ok_step rand e s IH Hev) as [s2 [E2 Hok2]]. congruence. }
  split; [exact Hok|]. intros e Hev.
  destruct (@game_ok_step rand e s Hok Hev) as [s' [E _]].
  exists s'. split; [exact E|]. apply (@played_step rand e s s' Hp Hev E).
Qed.

Lemma first_game_played : played (fun _ => 0) first_game.
Proof.
  unfold first_game.
  destruct (newGame_ok (fun _ => 0) 0 medium initialGame) as [s' [E _]].
  rewrite E. apply (@played_mount (fun _ => 0) 0 s' E).
Qed.

Lemma session_invariant_witness :
  played (fun _ => 0) first_game /\
  game_ok first_game /\
  forall e, event_ok e ->
    exists s', step (fun _ => 0) e first_game = Ret s' /\ played (fun _ => 0) s'.
Proof.
  split; [exact first_game_played|].
  apply (@session_invariant (fun _ => 0) first_game first_game_played).
Defined.

Lemma isBoardComplete_neq (b sol : Board) :
  isBoardComplete b sol = false -> b <> sol.
Proof.
  intros E Heq. subst b.
  assert (H : isBoardComplete sol sol = true)
    by (apply (proj2 (isBoardComplete_cells sol sol)); reflexivity).
  congruence.
Qed.

Lemma status_ok_step (rand : nat -> nat) (e : Event) (s s' : Game) :
  game_ok s -> status_ok s -> step rand e s = Ret s' -> status_ok s'.
Proof.
  intros Hok Hst.
  pose proof Hok as (Hsol & Hinv & [Hwf Hext] & Hhist & Hsel).
  pose proof Hst as (Htimer & Hshow & Hopen & Hpast & Hmis).
  destruct e as [num| | | | |k|d k|r c|k| | |]; cbn [step].
  - (* placeNumber *)
    intros E. injection E as <-. unfold placeNumber.
    destruct (selectedCell s) as [[r c]|] eqn:Esel; [|exact Hst].
    destruct (isComplete s) eqn:Ec; [exact Hst|].
    destruct (is_null (get (initialBoard s) r c)) eqn:En; cbn [negb];
      [|exact Hst].
    destruct (noteMode s).
    + unfold status_ok.
      cbn [board solution history isComplete timerRunning showComplete mistakes].
      tauto.
    + unfold status_ok.
      cbn [board solution history isComplete timerRunning showComplete mistakes].
      rewrite !copy_id.
      match goal with
      | |- context [isBoardComplete ?b ?sol] =>
          destruct (isBoardComplete b sol) eqn:Ed
      end.
      * split; [reflexivity|]. split; [auto|]. split; [discriminate|].
        split.
        -- apply Forall_app. split; [assumption|]. constructor; [|constructor].
           apply Hopen. reflexivity.
        -- match goal with
           | |- context [if ?t then _ else _] => destruct t; lia
           end.
      * split; [exact Htimer|]. split; [exact Hshow|].
        split; [intros _; apply (isBoardComplete_neq Ed)|].
        split.
        -- apply Forall_app. split; [assumption|]. constructor; [|constructor].
           apply Hopen. reflexivity.
        -- match goal with
           | |- context [if ?t then _ else _] => destruct t; lia
           end.
  - (* erase *)
    intros E. injection E as <-. unfold erase.
    destruct (selectedCell s) as [[r c]|] eqn:Esel; [|exact Hst].
    destruct (isComplete s) eqn:Ec; [exact Hst|].
    destruct (is_null (get (initialBoard s) r c)) eqn:En; cbn [negb];
      [|exact Hst].
    destruct (match notes_get (notes s) (key r c) with
              | Some x => negb (length x =? 0)
              | None => false
              end).
    + unfold status_ok.
      cbn [board solution history isComplete timerRunning showComplete mistakes].
      tauto.
    + unfold status_ok.
      cbn [board solution history isComplete timerRunning showComplete mistakes].
      rewrite !copy_id.
      split; [exact Htimer|]. split; [exact Hshow|].
      split.
      * intros _ Heq.
        destruct (sol_full Hsol (proj1 Hsel) (proj2 Hsel)) as [v [Ev _]].
        rewrite <- Heq in Ev.
        rewrite get_set_same in Ev by (destruct Hwf; tauto). discriminate.
      * split; [|exact Hmis].
        apply Forall_app. split; [assumption|]. constructor; [|constructor].
        apply Hopen. reflexivity.
  - (* undo *)
    intros E. injection E as <-. unfold undo.
    destruct (history s) as [|b0 h] eqn:Eh; [exact Hst|].
    unfold status_ok.
    cbn [board solution history isComplete timerRunning showComplete mistakes].
    rewrite copy_id.
    split; [exact Htimer|]. split; [exact Hshow|].
    split; [|split; [|exact Hmis]].
    + intros _. rewrite Forall_forall in Hpast. apply Hpast.
      apply last_In. discriminate.
    + apply Forall_removelast. assumption.
  - (* hint *)
    intros E. injection E as <-. unfold hint.
    destruct (selectedCell s) as [[r c]|] eqn:Esel; [|exact Hst].
    destruct (isComplete s) eqn:Ec; [exact Hst|].
    destruct (is_null (get (initialBoard s) r c)) eqn:En; cbn [negb];
      [|exact Hst].
    unfold status_ok.
    cbn [board solution history isComplete timerRunning showComplete mistakes].
    rewrite !copy_id.
    match goal with
    | |- context [isBoardComplete ?b ?sol] =>
        destruct (isBoardComplete b sol) eqn:Ed
    end.
    + split; [reflexivity|]. split; [auto|]. split; [discriminate|].
      split; [|exact Hmis].
      apply Forall_app. split; [assumption|]. constructor; [|constructor].
      apply Hopen. reflexivity.
    + split; [exact Htimer|]. split; [exact Hshow|].
      split; [intros _; apply (isBoardComplete_neq Ed)|].
      split; [|exact Hmis].
      apply Forall_app. split; [assumption|]. constructor; [|constructor].
      apply Hopen. reflexivity.
  - (* handleSolve *)
    unfold handleSolve.
    destruct (solvePuzzle (board s)) as [|[s1|]]; [discriminate| |].
    + intros E. injection E as <-. unfold status_ok.
      cbn [board solution history isComplete timerRunning showComplete mistakes].
      split; [reflexivity|]. split; [auto|]. split; [discriminate|].
      split; assumption.
    + intros E. injection E as <-. exact Hst.
  - (* newGame *)
    intros E.
    destruct (newGame_ok rand k (difficulty s) s)
      as [s2 [E2 [_ [_ [Hne [_ [Hc [Ht [Hs [Hh [Hm _]]]]]]]]]]].
    assert (s2 = s') by congruence. subst s2.
    unfold status_ok. rewrite Hc, Ht, Hs, Hh, Hm.
    split; [reflexivity|]. split; [discriminate|]. split; [auto|].
    split; [constructor|lia].
  - (* the difficulty buttons *)
    unfold chooseDifficulty.
    destruct (newGame_ok rand k d s)
      as [s2 [E2 [_ [_ [Hne [_ [Hc [Ht [Hs [Hh [Hm _]]]]]]]]]]].
    rewrite E2. intros E. injection E as <-.
    unfold status_ok.
    cbn [board solution history isComplete timerRunning showComplete mistakes].
    rewrite Hc, Ht, Hs, Hh, Hm.
    split; [reflexivity|]. split; [discriminate|]. split; [auto|].
    split; [constructor|lia].
  - intros E. injection E as <-. exact Hst.
  - intros E. injection E as <-. unfold arrowKey.
    destruct (selectedCell s) as [[r c]|]; [|exact Hst].
    destruct (arrowTarget k r c); exact Hst.
  - intros E. injection E as <-. exact Hst.
  - intros E. injection E as <-. exact Hst.
  - intros E. injection E as <-. unfold closeModal, status_ok.
    cbn [board solution history isComplete timerRunning showComplete mistakes].
    split; [exact Htimer|]. split; [discriminate|]. tauto.
Qed.

(** In every state of a session the clock runs exactly while the game is
    not complete, the win dialog is up only for a complete game, and a board
    that equals the solution is always marked complete. *)
Theorem session_status (rand : nat -> nat) (s : Game) :
  played rand s ->
  timerRunning s = negb (isComplete s) /\
  (showComplete s = true -> isComplete s = true) /\
  (board s = solution s -> isComplete s = true) /\
  (0 <= mistakes s)%Z.
Proof.
  intros Hp.
  assert (H : game_ok s /\ status_ok s).
  { induction Hp as [k s E|e s s' Hp [IH1 IH2] Hev E].
    - destruct (newGame_ok rand k medium initialGame)
        as [s2 [E2 [Hok [_ [Hne [_ [Hc [Ht [Hs [Hh [Hm _]]]]]]]]]]].
      assert (s2 = s) by congruence. subst s2. split; [exact Hok|].
      unfold status_ok. rewrite Hc, Ht, Hs, Hh, Hm.
      split; [reflexivity|]. split; [discriminate|]. split; [auto|].
      split; [constructor|lia].
    - split.
      + destruct (@game_ok_step rand e s IH1 Hev) as [s2 [E2 Hok2]]. congruence.
      + apply (@status_ok_step rand e s s' IH1 IH2 E). }
  destruct H as [_ (Htimer & Hshow & Hopen & _ & Hmis)].
  split; [exact Htimer|]. split; [exact Hshow|]. split; [|exact Hmis].
  intros Heq. destruct (isComplete s); [reflexivity|].
  exfalso. apply (Hopen eq_refl Heq).
Qed.

Lemma session_status_witness :
  played (fun _ => 0) first_game /\
  timerRunning first_game = negb (isComplete first_game) /\
  (showComplete first_game = true -> isComplete first_game = true) /\
  (board first_game = solution first_game -> isComplete first_game = true) /\
  (0 <= mistakes first_game)%Z.
Proof.
  split; [exact first_game_played|].
  apply (@session_status (fun _ => 0) first_game first_game_played).
Defined.

Lemma sample_game_ok : game_ok sample_game.
Proof.
  assert (Hwf : wf sample_puzzle) by (apply wfb_spec; vm_compute; reflexivity).
  assert (Hsub : forall r c, r < 9 -> c < 9 ->
            get sample_puzzle r c = Null \/
            get sample_puzzle r c = get sample_solution r c).
  { intros r c Hr Hc.
    do 9 (destruct r as [|r]; [do 9 (destruct c as [|c];
      [vm_compute; auto|]); lia|]); lia. }
  unfold game_ok, sample_game. cbn [board initialBoard solution selectedCell history].
  split; [exact sample_solution_ok|]. split.
  - split; [destruct Hwf; assumption|]. split; [exact Hsub|].
    destruct (@countSolutions_unique sample_solution sample_solution_ok
                sample_puzzle (proj1 Hwf) Hsub) as [n [E Huniq]].
    apply Huniq. rewrite countSolutions_sample in E. congruence.
  - split; [split; [exact Hwf|apply extends_refl]|].
    split; [constructor|lia].
Qed.

Lemma last_move_game_ok : game_ok last_move_game.
Proof.
  assert (Hwf : wf (set sample_solution 0 0 Null))
    by (apply wfb_spec; vm_compute; reflexivity).
  unfold game_ok, last_move_game.
  cbn [board initialBoard solution selectedCell history].
  split; [exact sample_solution_ok|]. split.
  - split; [destruct Hwf; assumption|]. split.
    + intros r c Hr Hc.
      destruct (coord_eq_dec (r, c) (0, 0)) as [E|E].
      * inversion E; subst r c. left. reflexivity.
      * right. apply get_set_other. apply coord_neq. exact E.
    + intros s Hs.
      apply (@one_blank_unique sample_solution s 0 0 sample_solution_ok);
        try lia. exact Hs.
  - split; [split; [exact Hwf|apply extends_refl]|].
    split; [constructor|lia].
Qed.

(** On a board without conflicts, auto-solve shows the solution when every
    entry made so far agrees with it, and does nothing otherwise. *)
Theorem handleSolve_outcome (s : Game) :
  game_ok s -> getConflicts (board s) = [] ->
  (extends (board s) (solution s) ->
     exists s', handleSolve s = Ret s' /\ board s' = solution s /\
       isComplete s' = true /\ timerRunning s' = false /\ conflicts s' = [] /\
       history s' = history s /\ showComplete s' = showComplete s) /\
  (~ extends (board s) (solution s) -> handleSolve s = Ret s).
Proof.
  intros (Hsol & Hinv & [Hwf Hext] & _) Hnc.
  apply (proj1 (consistent_no_conflicts (board s))) in Hnc.
  assert (Hcomp : forall s1, reachable Null (board s) s1 -> s1 = solution s).
  { intros s1 Hreach. apply (proj1 (reachable_completion s1 Hnc)) in Hreach.
    destruct Hinv as [_ [_ Huniq]]. apply Huniq.
    destruct Hreach as [H1 H2]. split; [exact H1|].
    apply (extends_trans Hext H2). }
  unfold handleSolve.
  destruct (solvePuzzle_cases Hwf) as [[s1 [E Hreach]]|[E Hnone]]; rewrite E.
  - pose proof (Hcomp s1 Hreach) as Heq. subst s1. split.
    + intros _. eexists. split; [reflexivity|].
      cbn [board isComplete timerRunning conflicts history showComplete].
      rewrite copy_id. repeat split; reflexivity.
    + intros Hno. exfalso. apply Hno.
      destruct Hreach as [_ [_ [Hk _]]]. exact Hk.
  - split; [|reflexivity]. intros Hyes. exfalso.
    apply (Hnone (solution s)).
    apply (proj2 (reachable_completion (solution s) Hnc)). split; assumption.
Qed.

Lemma handleSolve_outcome_witness :
  game_ok sample_game /\ getConflicts (board sample_game) = [] /\
  (extends (board sample_game) (solution sample_game) ->
     exists s', handleSolve sample_game = Ret s' /\
       board s' = solution sample_game /\
       isComplete s' = true /\ timerRunning s' = false /\ conflicts s' = [] /\
       history s' = history sample_game /\
       showComplete s' = showComplete sample_game) /\
  (~ extends (board sample_game) (solution sample_game) ->
     handleSolve sample_game = Ret sample_game).
Proof.
  assert (H1 : game_ok sample_game) by exact sample_game_ok.
  assert (H2 : getConflicts (board sample_game) = [])
    by (vm_compute; reflexivity).
  split; [exact H1|]. split; [exact H2|].
  apply (@handleSolve_outcome sample_game H1 H2).
Defined.

(** The conflict marks on display are those of the board on display after
    every event, as long as auto-solve is not pressed on a board that has
    conflicts. *)
Theorem conflicts_shown (rand : nat -> nat) (e : Event) (s s' : Game) :
  game_ok s -> conflicts s = getConflicts (board s) ->
  (e = Solve -> getConflicts (board s) = []) ->
  step rand e s = Ret s' -> conflicts s' = getConflicts (board s').
Proof.
  intros Hok Hshown Hsolve.
  pose proof Hok as (Hsol & Hinv & [Hwf Hext] & Hhist & Hsel).
  assert (Hnew : forall k d s2, newGame rand k d s = Ret s2 ->
            conflicts s2 = getConflicts (board s2)).
  { intros k d s2 E.
    destruct (newGame_ok rand k d s)
      as [s3 [E3 [Hok3 [Hb [_ [Hc _]]]]]].
    assert (s3 = s2) by congruence. subst s3.
    rewrite Hc. symmetry.
    apply (proj2 (consistent_no_conflicts (board s2))).
    destruct Hok3 as (Hsol3 & Hinv3 & _). rewrite Hb.
    apply (carve_inv_consistent Hsol3 Hinv3). }
  destruct e as [num| | | | |k|d k|r c|k| | |]; cbn [step].
  - intros E. injection E as <-. unfold placeNumber.
    destruct (selectedCell s) as [[r c]|]; [|exact Hshown].
    destruct (isComplete s); [exact Hshown|].
    destruct (is_null (get (initialBoard s) r c)); cbn [negb]; [|exact Hshown].
    destruct (noteMode s); cbn [board conflicts]; [exact Hshown|reflexivity].
  - intros E. injection E as <-. unfold erase.
    destruct (selectedCell s) as [[r c]|]; [|exact Hshown].
    destruct (isComplete s); [exact Hshown|].
    destruct (is_null (get (initialBoard s) r c)); cbn [negb]; [|exact Hshown].
    destruct (match notes_get (notes s) (key r c) with
              | Some x => negb (length x =? 0)
              | None => false
              end); cbn [board conflicts]; [exact Hshown|reflexivity].
  - intros E. injection E as <-. unfold undo.
    destruct (history s) as [|b0 h]; [exact Hshown|].
    cbn [board conflicts]. rewrite copy_id. reflexivity.
  - intros E. injection E as <-. unfold hint.
    destruct (selectedCell s) as [[r c]|]; [|exact Hshown].
    destruct (isComplete s); [exact Hshown|].
    destruct (is_null (get (initialBoard s) r c)); cbn [negb]; [|exact Hshown].
    cbn [board conflicts]. reflexivity.
  - specialize (Hsolve eq_refl).
    apply (proj1 (consistent_no_conflicts (board s))) in Hsolve.
    unfold handleSolve.
    destruct (solvePuzzle_cases Hwf) as [[s1 [E Hreach]]|[E Hnone]]; rewrite E.
    + intros E2. injection E2 as <-. cbn [board conflicts]. rewrite copy_id.
      symmetry. apply (proj2 (consistent_no_conflicts s1)).
      apply Solution_consistent.
      apply (proj1 (reachable_completion s1 Hsolve)) in Hreach.
      destruct Hreach; assumption.
    + intros E2. injection E2 as <-. exact Hshown.
  - apply Hnew.
  - unfold chooseDifficulty.
    destruct (newGame rand k d s) as [|s2] eqn:E2; [discriminate|].
    intros E. injection E as <-. cbn [board conflicts].
    apply (Hnew k d s2 E2).
  - intros E. injection E as <-. exact Hshown.
  - intros E. injection E as <-. unfold arrowKey.
    destruct (selectedCell s) as [[r c]|]; [|exact Hshown].
    destruct (arrowTarget k r c); exact Hshown.
  - intros E. injection E as <-. exact Hshown.
  - intros E. injection E as <-. exact Hshown.
  - intros E. injection E as <-. exact Hshown.
Qed.

Lemma conflicts_shown_witness :
  game_ok last_move_game /\
  conflicts last_move_game = getConflicts (board last_move_game) /\
  (PlaceNumber 2 = Solve -> getConflicts (board last_move_game) = []) /\
  step (fun _ => 0) (PlaceNumber 2) last_move_game
    = Ret (placeNumber 2 last_move_game) /\
  conflicts (placeNumber 2 last_move_game)
    = getConflicts (board (placeNumber 2 last_move_game)).
Proof.
  assert (H1 : game_ok last_move_game) by exact last_move_game_ok.
  assert (H2 : conflicts last_move_game = getConflicts (board last_move_game))
    by (vm_compute; reflexivity).
  assert (H3 : PlaceNumber 2 = Solve -> getConflicts (board last_move_game) = [])
    by discriminate.
  assert (H4 : step (fun _ => 0) (PlaceNumber 2) last_move_game
                 = Ret (placeNumber 2 last_move_game)) by reflexivity.
  split; [exact H1|]. split; [exact H2|]. split; [exact H3|].
  split; [exact H4|].
  apply (@conflicts_shown (fun _ => 0) (PlaceNumber 2) last_move_game
           (placeNumber 2 last_move_game) H1 H2 H3 H4).
Defined.

Lemma undo_push (s : Game) (h : list Board) (b : Board) :
  history s = h ++ [b] ->
  undo s =
  {| difficulty := difficulty s; board := b;
     initialBoard := initialBoard s; solution := solution s;
     selectedCell := selectedCell s; conflicts := getConflicts b;
     isComplete := isComplete s; timerRunning := timerRunning s;
     timerReset := timerReset s; mistakes := mistakes s;
     notes := notes s; noteMode := noteMode s; history := h;
     showComplete := showComplete s |}.
Proof.
  intros E. unfold undo. rewrite E.
  destruct (h ++ [b]) as [|x l] eqn:El.
  - destruct h; discriminate.
  - rewrite <- El. rewrite last_last, removelast_last, copy_id. reflexivity.
Qed.

(** The editing handlers either leave board and history alone or push the
    old board on the history; undo then brings back the old board, its
    conflict marks and the old history. *)
Theorem undo_restores (rand : nat -> nat) (e : Event) (s s' : Game) :
  edits e = true -> step rand e s = Ret s' ->
  (board s' = board s /\ history s' = history s) \/
  (history s' = history s ++ [board s] /\
   board (undo s') = board s /\ history (undo s') = history s /\
   conflicts (undo s') = getConflicts (board s) /\
   mistakes (undo s') = mistakes s' /\ isComplete (undo s') = isComplete s').
Proof.
  intros He.
  assert (Hpush : forall s1, history s1 = history s ++ [board s] ->
            history s1 = history s ++ [board s] /\
            board (undo s1) = board s /\ history (undo s1) = history s /\
            conflicts (undo s1) = getConflicts (board s) /\
            mistakes (undo s1) = mistakes s1 /\
            isComplete (undo s1) = isComplete s1).
  { intros s1 E. rewrite (@undo_push s1 _ _ E).
    cbn [board history conflicts mistakes isComplete]. repeat split; auto. }
  destruct e; try discriminate He; cbn [step]; intros E; injection E as <-.
  - unfold placeNumber.
    destruct (selectedCell s) as [[r c]|]; [|left; auto].
    destruct (isComplete s); [left; auto|].
    destruct (is_null (get (initialBoard s) r c)); cbn [negb]; [|left; auto].
    destruct (noteMode s); [left; auto|].
    right. apply Hpush. cbn [history]. rewrite copy_id. reflexivity.
  - unfold erase.
    destruct (selectedCell s) as [[r c]|]; [|left; auto].
    destruct (isComplete s); [left; auto|].
    destruct (is_null (get (initialBoard s) r c)); cbn [negb]; [|left; auto].
    destruct (match notes_get (notes s) (key r c) with
              | Some x => negb (length x =? 0)
              | None => false
              end); [left; auto|].
    right. apply Hpush. cbn [history]. rewrite copy_id. reflexivity.
  - unfold hint.
    destruct (selectedCell s) as [[r c]|]; [|left; auto].
    destruct (isComplete s); [left; auto|].
    destruct (is_null (get (initialBoard s) r c)); cbn [negb]; [|left; auto].
    right. apply Hpush. cbn [history]. rewrite copy_id. reflexivity.
Qed.

Lemma undo_restores_witness :
  edits (PlaceNumber 2) = true /\
  step (fun _ => 0) (PlaceNumber 2) last_move_game
    = Ret (placeNumber 2 last_move_game) /\
  ((board (placeNumber 2 last_move_game) = board last_move_game /\
    history (placeNumber 2 last_move_game) = history last_move_game) \/
   (history (placeNumber 2 last_move_game)
      = history last_move_game ++ [board last_move_game] /\
    board (undo (placeNumber 2 last_move_game)) = board last_move_game /\
    history (undo (placeNumber 2 last_move_game)) = history last_move_game /\
    conflicts (undo (placeNumber 2 last_move_game))
      = getConflicts (board last_move_game) /\
    mistakes (undo (placeNumber 2 last_move_game))
      = mistakes (placeNumber 2 last_move_game) /\
    isComplete (undo (placeNumber 2 last_move_game))
      = isComplete (placeNumber 2 last_move_game))).
Proof.
  assert (H1 : edits (PlaceNumber 2) = true) by reflexivity.
  assert (H2 : step (fun _ => 0) (PlaceNumber 2) last_move_game
                 = Ret (placeNumber 2 last_move_game)) by reflexivity.
  split; [exact H1|]. split; [exact H2|].
  apply (@undo_restores (fun _ => 0) (PlaceNumber 2) last_move_game
           (placeNumber 2 last_move_game) H1 H2).
Defined.

(** Undoing the move that completed the board brings back the unfinished
    board but leaves the game marked complete, so that the pad, the eraser
    and the hint button no longer do anything. *)
Theorem undo_after_win (s : Game) (n : Z) :
  game_ok s -> isComplete s = false -> isComplete (placeNumber n s) = true ->
  board (placeNumber n s) = solution s /\
  board (undo (placeNumber n s)) = board s /\
  board s <> solution s /\
  isComplete (undo (placeNumber n s)) = true /\
  (forall m, placeNumber m (undo (placeNumber n s)) = undo (placeNumber n s)) /\
  erase (undo (placeNumber n s)) = undo (placeNumber n s) /\
  hint (undo (placeNumber n s)) = undo (placeNumber n s).
Proof.
  intros (Hsol & Hinv & [Hwf Hext] & Hhist & Hsel) Hopen Hwin.
  assert (Hblocked : forall s2, isComplete s2 = true ->
            (forall m, placeNumber m s2 = s2) /\ erase s2 = s2 /\ hint s2 = s2).
  { intros s2 Hc. unfold placeNumber, erase, hint. rewrite Hc.
    destruct (selectedCell s2) as [[r2 c2]|]; auto. }
  unfold placeNumber in Hwin |- *.
  destruct (selectedCell s) as [[r c]|] eqn:Esel; [|congruence].
  rewrite Hopen in Hwin |- *.
  destruct (is_null (get (initialBoard s) r c)) eqn:En; cbn [negb] in Hwin |- *;
    [|congruence].
  destruct (noteMode s); [cbn [isComplete] in Hwin; congruence|].
  cbn [isComplete] in Hwin. rewrite !copy_id in Hwin |- *.
  match type of Hwin with
  | (if ?t then _ else _) = _ => destruct t eqn:Ed; [|congruence]
  end.
  pose proof (proj1 (isBoardComplete_cells _ _) Ed) as Hcells.
  match goal with
  | |- board ?s1 = _ /\ _ =>
      assert (Eh : history s1 = history s ++ [board s]) by reflexivity;
      rewrite (@undo_push s1 _ _ Eh)
  end.
  cbn [board isComplete solution].
  split.
  { apply board_ext.
    - apply shape9_set. destruct Hwf; assumption.
    - destruct Hsol; assumption.
    - exact Hcells. }
  split; [reflexivity|]. split.
  { intros Heq. specialize (Hcells r c (proj1 Hsel) (proj2 Hsel)).
    rewrite get_set_same in Hcells by (destruct Hwf; tauto).
    rewrite <- Heq in Hcells.
    destruct (holds (get (board s) r c) n) eqn:Eh2.
    - apply holds_true in Eh2. congruence.
    - apply holds_false in Eh2. congruence. }
  split; [reflexivity|].
  apply Hblocked. reflexivity.
Qed.

Lemma undo_after_win_witness :
  game_ok last_move_game /\ isComplete last_move_game = false /\
  isComplete (placeNumber 1 last_move_game) = true /\
  board (placeNumber 1 last_move_game) = solution last_move_game /\
  board (undo (placeNumber 1 last_move_game)) = board last_move_game /\
  board last_move_game <> solution last_move_game /\
  isComplete (undo (placeNumber 1 last_move_game)) = true /\
  (forall m, placeNumber m (undo (placeNumber 1 last_move_game))
             = undo (placeNumber 1 last_move_game)) /\
  erase (undo (placeNumber 1 last_move_game))
    = undo (placeNumber 1 last_move_game) /\
  hint (undo (placeNumber 1 last_move_game))
    = undo (placeNumber 1 last_move_game).
Proof.
  assert (H1 : game_ok last_move_game) by exact last_move_game_ok.
  assert (H2 : isComplete last_move_game = false) by reflexivity.
  assert (H3 : isComplete (placeNumber 1 last_move_game) = true)
    by (vm_compute; reflexivity).
  split; [exact H1|]. split; [exact H2|]. split; [exact H3|].
  apply (@undo_after_win last_move_game 1%Z H1 H2 H3).
Defined.

(** Auto-solve on a board without an empty cell marks the game complete and
    removes every conflict mark, whatever the board holds. *)
Theorem solve_on_full_board (s : Game) :
  (forall r c, r < 9 -> c < 9 -> get (board s) r c <> Null) ->
  exists s', handleSolve s = Ret s' /\ board s' = board s /\
    isComplete s' = true /\ timerRunning s' = false /\ conflicts s' = [] /\
    showComplete s' = showComplete s.
Proof.
  intros Hfull. unfold handleSolve, solvePuzzle. rewrite copy_id.
  assert (E : solve search_fuel (board s) = Ret (true, board s)).
  { unfold search_fuel. cbn [solve].
    destruct (first_cell is_null (board s)) as [[r c]|] eqn:Ef; [|reflexivity].
    exfalso. apply (first_cell_some Null) in Ef.
    destruct Ef as [Hr [Hc En]]. apply (Hfull r c Hr Hc En). }
  rewrite E. eexists. split; [reflexivity|].
  cbn [board isComplete timerRunning conflicts showComplete].
  rewrite copy_id. repeat split; reflexivity.
Qed.

Lemma solve_on_full_board_witness :
  (forall r c, r < 9 -> c < 9 -> get (board clash_game) r c <> Null) /\
  exists s', handleSolve clash_game = Ret s' /\ board s' = board clash_game /\
    isComplete s' = true /\ timerRunning s' = false /\ conflicts s' = [] /\
    showComplete s' = showComplete clash_game.
Proof.
  assert (H1 : forall r c, r < 9 -> c < 9 -> get (board clash_game) r c <> Null).
  { intros r c Hr Hc. destruct (clash_grid_full Hr Hc) as [v [E _]].
    cbn [board clash_game]. rewrite E. discriminate. }
  split; [exact H1|].
  apply (@solve_on_full_board clash_game H1).
Defined.

(** ** Notes *)

Lemma notes_get_set_same (o : Notes) (k : string) (v : list Z) :
  notes_get (notes_set o k v) k = Some v.
Proof.
  unfold notes_get, notes_set.
  induction o as [|[k0 v0] o IH]; simpl.
  - rewrite String.eqb_refl. reflexivity.
  - destruct (String.eqb k k0) eqn:E; simpl; rewrite E; [reflexivity|exact IH].
Qed.

Lemma notes_get_set_other (o : Notes) (k k' : string) (v : list Z) :
  k' <> k -> notes_get (notes_set o k v) k' = notes_get o k'.
Proof.
  intros Hne. unfold notes_get, notes_set.
  induction o as [|[k0 v0] o IH]; simpl.
  - apply String.eqb_neq in Hne. rewrite Hne. reflexivity.
  - destruct (String.eqb k k0) eqn:E; simpl.
    + apply String.eqb_eq in E. subst k0.
      apply String.eqb_neq in Hne. rewrite Hne. reflexivity.
    + destruct (String.eqb k' k0); [reflexivity|exact IH].
Qed.

Lemma nset_has_In (s : list Z) (n : Z) : nset_has s n = true <-> In n s.
Proof.
  unfold nset_has. rewrite existsb_exists. split.
  - intros [x [Hin E]]. apply Z.eqb_eq in E. subst x. exact Hin.
  - intros Hin. exists n. split; [exact Hin|apply Z.eqb_refl].
Qed.

Lemma nset_delete_In (s : list Z) (n m : Z) :
  In m (nset_delete s n) <-> In m s /\ m <> n.
Proof.
  unfold nset_delete. rewrite filter_In. split.
  - intros [Hin E]. split; [exact Hin|]. intros ->.
    rewrite Z.eqb_refl in E. discriminate.
  - intros [Hin Hne]. split; [exact Hin|].
    destruct (Z.eqb n m) eqn:E; [|reflexivity].
    apply Z.eqb_eq in E. congruence.
Qed.

Lemma nset_delete_twice (s : list Z) (n : Z) :
  nset_delete (nset_delete s n) n = nset_delete s n.
Proof.
  unfold nset_delete. induction s as [|x s IH]; [reflexivity|].
  simpl. destruct (negb (n =? x)%Z) eqn:E; simpl; [rewrite E, IH|]; auto.
Qed.

Lemma nset_add_In (s : list Z) (n m : Z) :
  In m (nset_add s n) <-> In m s \/ m = n.
Proof.
  unfold nset_add. destruct (nset_has s n) eqn:E.
  - apply nset_has_In in E. split; [auto|]. intros [H| ->]; assumption.
  - rewrite in_app_iff. simpl. split; intros [H|H]; auto.
    + destruct H as [H|[]]. auto.
Qed.

(** [cell.has(num) ? cell.delete(num) : cell.add(num)] flips the membership
    of [num] and of nothing else. *)
Lemma nset_toggle (cell : list Z) (n : Z) :
  (In n (if nset_has cell n then nset_delete cell n else nset_add cell n)
   <-> ~ In n cell) /\
  (forall m, m <> n ->
     (In m (if nset_has cell n then nset_delete cell n else nset_add cell n)
      <-> In m cell)).
Proof.
  destruct (nset_has cell n) eqn:E.
  - apply nset_has_In in E. split.
    + rewrite nset_delete_In. tauto.
    + intros m Hm. rewrite nset_delete_In. tauto.
  - assert (Hn : ~ In n cell).
    { intros H. apply nset_has_In in H. congruence. }
    split.
    + rewrite nset_add_In. tauto.
    + intros m Hm. rewrite nset_add_In. tauto.
Qed.

(** In note mode a digit of the pad toggles that digit in the notes of the
    selected cell and changes nothing else; pressing it twice gives back
    the notes the cell had. *)
Theorem note_toggle (s : Game) (r c : nat) (n : Z) :
  selectedCell s = Some (r, c) -> isComplete s = false ->
  get (initialBoard s) r c = Null -> noteMode s = true ->
  board (placeNumber n s) = board s /\
  history (placeNumber n s) = history s /\
  (In n (cell_notes (notes (placeNumber n s)) r c)
   <-> ~ In n (cell_notes (notes s) r c)) /\
  (forall m, m <> n ->
     (In m (cell_notes (notes (placeNumber n s)) r c)
      <-> In m (cell_notes (notes s) r c))) /\
  (forall k, k <> key r c ->
     notes_get (notes (placeNumber n s)) k = notes_get (notes s) k) /\
  (forall m, In m (cell_notes (notes (placeNumber n (placeNumber n s))) r c)
             <-> In m (cell_notes (notes s) r c)).
Proof.
  intros Hsel Hopen Hinit Hmode.
  assert (Hone : forall s1, selectedCell s1 = Some (r, c) ->
            isComplete s1 = false -> get (initialBoard s1) r c = Null ->
            noteMode s1 = true ->
            selectedCell (placeNumber n s1) = Some (r, c) /\
            isComplete (placeNumber n s1) = false /\
            get (initialBoard (placeNumber n s1)) r c = Null /\
            noteMode (placeNumber n s1) = true /\
            board (placeNumber n s1) = board s1 /\
            history (placeNumber n s1) = history s1 /\
            (In n (cell_notes (notes (placeNumber n s1)) r c)
             <-> ~ In n (cell_notes (notes s1) r c)) /\
            (forall m, m <> n ->
               (In m (cell_notes (notes (placeNumber n s1)) r c)
                <-> In m (cell_notes (notes s1) r c))) /\
            (forall k, k <> key r c ->
               notes_get (notes (placeNumber n s1)) k = notes_get (notes s1) k)).
  { intros s1 H1 H2 H3 H4. unfold placeNumber. rewrite H1, H2, H3, H4.
    cbn [is_null cell_eqb negb selectedCell isComplete initialBoard noteMode
         board history notes].
    split; [auto|]. split; [auto|]. split; [auto|].
    split; [auto|]. split; [reflexivity|]. split; [reflexivity|].
    unfold cell_notes at 1 3. rewrite notes_get_set_same.
    fold (cell_notes (notes s1) r c).
    destruct (nset_toggle (cell_notes (notes s1) r c) n) as [Ha Hb].
    split; [exact Ha|]. split; [exact Hb|].
    intros k Hk. apply notes_get_set_other. exact Hk. }
  destruct (Hone s Hsel Hopen Hinit Hmode)
    as (H1 & H2 & H3 & H4 & Hb & Hh & Hn & Hm & Hk).
  split; [exact Hb|]. split; [exact Hh|]. split; [exact Hn|].
  split; [exact Hm|]. split; [exact Hk|].
  destruct (Hone (placeNumber n s) H1 H2 H3 H4)
    as (_ & _ & _ & _ & _ & _ & Hn2 & Hm2 & _).
  intros m. destruct (Z.eq_dec m n) as [->|Hne].
  - rewrite Hn2, Hn.
    destruct (in_dec Z.eq_dec n (cell_notes (notes s) r c)); tauto.
  - rewrite (Hm2 m Hne). apply Hm. exact Hne.
Qed.

Lemma note_toggle_witness :
  selectedCell (toggleNoteMode sample_game) = Some (0, 0) /\
  isComplete (toggleNoteMode sample_game) = false /\
  get (initialBoard (toggleNoteMode sample_game)) 0 0 = Null /\
  noteMode (toggleNoteMode sample_game) = true /\
  board (placeNumber 4 (toggleNoteMode sample_game))
    = board (toggleNoteMode sample_game) /\
  history (placeNumber 4 (toggleNoteMode sample_game))
    = history (toggleNoteMode sample_game) /\
  (In 4%Z (cell_notes (notes (placeNumber 4 (toggleNoteMode sample_game))) 0 0)
   <-> ~ In 4%Z (cell_notes (notes (toggleNoteMode sample_game)) 0 0)) /\
  (forall m, m <> 4%Z ->
     (In m (cell_notes (notes (placeNumber 4 (toggleNoteMode sample_game))) 0 0)
      <-> In m (cell_notes (notes (toggleNoteMode sample_game)) 0 0))) /\
  (forall k, k <> key 0 0 ->
     notes_get (notes (placeNumber 4 (toggleNoteMode sample_game))) k
     = notes_get (notes (toggleNoteMode sample_game)) k) /\
  (forall m,
     In m (cell_notes
             (notes (placeNumber 4 (placeNumber 4 (toggleNoteMode sample_game))))
             0 0)
     <-> In m (cell_notes (notes (toggleNoteMode sample_game)) 0 0)).
Proof.
  assert (H1 : selectedCell (toggleNoteMode sample_game) = Some (0, 0))
    by reflexivity.
  assert (H2 : isComplete (toggleNoteMode sample_game) = false) by reflexivity.
  assert (H3 : get (initialBoard (toggleNoteMode sample_game)) 0 0 = Null)
    by reflexivity.
  assert (H4 : noteMode (toggleNoteMode sample_game) = true) by reflexivity.
  split; [exact H1|]. split; [exact H2|]. split; [exact H3|].
  split; [exact H4|].
  apply (@note_toggle (toggleNoteMode sample_game) 0 0 4%Z H1 H2 H3 H4).
Defined.

Lemma drop_note_get (n : Z) (u : Notes) (k k' : string) :
  notes_get (drop_note n u k) k' =
  if String.eqb k' k
  then option_map (fun s => nset_delete s n) (notes_get u k')
  else notes_get u k'.
Proof.
  unfold drop_note.
  destruct (String.eqb k' k) eqn:E2.
  - apply String.eqb_eq in E2. subst k'.
    destruct (notes_get u k) eqn:E; [|rewrite E; reflexivity].
    rewrite notes_get_set_same. reflexivity.
  - apply String.eqb_neq in E2.
    destruct (notes_get u k) eqn:E; [|reflexivity].
    apply notes_get_set_other. exact E2.
Qed.

Lemma fold_drop_note_get (n : Z) (ks : list string) (u : Notes) (k' : string) :
  notes_get (fold_left (drop_note n) ks u) k' =
  if existsb (String.eqb k') ks
  then option_map (fun s => nset_delete s n) (notes_get u k')
  else notes_get u k'.
Proof.
  revert u. induction ks as [|k ks IH]; intros u; [reflexivity|].
  cbn [fold_left existsb]. rewrite IH, drop_note_get.
  destruct (String.eqb k' k); cbn [orb];
    destruct (existsb (String.eqb k') ks); try reflexivity.
  destruct (notes_get u k') as [x|]; [|reflexivity].
  cbn [option_map]. rewrite nset_delete_twice. reflexivity.
Qed.

Lemma fold_left_pointwise {A B : Type} (f g : A -> B -> A) (l : list B) (a : A) :
  (forall a x, f a x = g a x) -> fold_left f l a = fold_left g l a.
Proof.
  intros H. revert a. induction l as [|x l IH]; intros a; [reflexivity|].
  simpl. rewrite H. apply IH.
Qed.

Lemma fold_left_flat {A B C : Type} (f : A -> C -> A) (g : B -> list C)
    (l : list B) (a : A) :
  fold_left f (flat_map g l) a = fold_left (fun a x => fold_left f (g x) a) l a.
Proof.
  revert a. induction l as [|x l IH]; intros a; [reflexivity|].
  simpl. rewrite fold_left_app. apply IH.
Qed.

Lemma fold_left_mapped {A B C : Type} (f : A -> C -> A) (g : B -> C)
    (l : list B) (a : A) :
  fold_left f (map g l) a = fold_left (fun a x => f a (g x)) l a.
Proof.
  revert a. induction l as [|x l IH]; intros a; [reflexivity|].
  simpl. apply IH.
Qed.

(** The keys [clear_notes] visits, in the order of its loops. *)
Lemma clear_notes_flat (prev : Notes) (r c : nat) (n : Z) :
  clear_notes prev r c n =
  fold_left (drop_note n)
    (flat_map (fun i => [key r i; key i c]) (seq 0 9) ++
     flat_map (fun rr => map (key rr) (seq (c / 3 * 3) 3)) (seq (r / 3 * 3) 3))
    prev.
Proof.
  unfold clear_notes. rewrite fold_left_app, !fold_left_flat.
  apply fold_left_pointwise. intros a rr. rewrite fold_left_mapped. reflexivity.
Qed.

Lemma cleared_keys (r c : nat) (k : string) :
  r < 9 -> c < 9 ->
  (In k (flat_map (fun i => [key r i; key i c]) (seq 0 9) ++
         flat_map (fun rr => map (key rr) (seq (c / 3 * 3) 3))
                  (seq (r / 3 * 3) 3))
   <-> exists r' c', r' < 9 /\ c' < 9 /\ sees r c r' c' /\ k = key r' c').
Proof.
  intros Hr Hc. rewrite in_app_iff, !in_flat_map. split.
  - intros [[i [Hi Hk]]|[rr [Hrr Hk]]].
    + apply in_seq in Hi. destruct Hk as [Hk|[Hk|[]]].
      * exists r, i. unfold sees. repeat split; auto; lia.
      * exists i, c. unfold sees. repeat split; auto; lia.
    + apply in_map_iff in Hk. destruct Hk as [cc [Hk Hcc]].
      apply in_box in Hrr. apply in_box in Hcc.
      exists rr, cc. unfold sees.
      split; [apply (@box_lt9 r rr Hr Hrr)|]. split; [apply (@box_lt9 c cc Hc Hcc)|].
      split; [right; right; split; assumption|]. symmetry. exact Hk.
  - intros [r' [c' [Hr' [Hc' [Hsees Hk]]]]]. subst k.
    destruct Hsees as [E|[E|[E1 E2]]].
    + subst r'. left. exists c'. split; [apply in_seq; lia|]. left. reflexivity.
    + subst c'. left. exists r'. split; [apply in_seq; lia|].
      right. left. reflexivity.
    + right. exists r'. split; [apply in_box; exact E1|].
      apply in_map. apply in_box. exact E2.
Qed.

Lemma existsb_eqb_In (k : string) (ks : list string) :
  existsb (String.eqb k) ks = true <-> In k ks.
Proof.
  rewrite existsb_exists. split.
  - intros [x [Hin E]]. apply String.eqb_eq in E. subst x. exact Hin.
  - intros Hin. exists k. split; [exact Hin|apply String.eqb_refl].
Qed.

(** Placing a digit removes it from the notes of every cell of the row, the
    column and the box of the selected cell; no other digit leaves any
    note, and the notes of all other cells stay as they are. *)
Theorem placeNumber_clears_notes (s : Game) (r c : nat) (n : Z) :
  shape9 (board s) -> selectedCell s = Some (r, c) -> r < 9 -> c < 9 ->
  isComplete s = false -> get (initialBoard s) r c = Null ->
  noteMode s = false -> get (board s) r c <> Num n ->
  get (board (placeNumber n s)) r c = Num n /\
  (forall r' c', r' < 9 -> c' < 9 -> sees r c r' c' ->
     ~ In n (cell_notes (notes (placeNumber n s)) r' c')) /\
  (forall r' c' m, r' < 9 -> c' < 9 -> m <> n ->
     (In m (cell_notes (notes (placeNumber n s)) r' c')
      <-> In m (cell_notes (notes s) r' c'))) /\
  (forall r' c', r' < 9 -> c' < 9 -> ~ sees r c r' c' ->
     cell_notes (notes (placeNumber n s)) r' c' = cell_notes (notes s) r' c').
Proof.
  intros Hs Hsel Hr Hc Hopen Hinit Hmode Hcell.
  apply holds_false in Hcell.
  unfold placeNumber. rewrite Hsel, Hopen, Hinit, Hmode.
  cbn [is_null cell_eqb negb board notes]. rewrite !copy_id, Hcell.
  rewrite get_set_same by assumption.
  cbn [is_null cell_eqb negb]. split; [reflexivity|].
  assert (Hget : forall r' c',
            notes_get (clear_notes (notes s) r c n) (key r' c') =
            if existsb (String.eqb (key r' c'))
                 (flat_map (fun i => [key r i; key i c]) (seq 0 9) ++
                  flat_map (fun rr => map (key rr) (seq (c / 3 * 3) 3))
                           (seq (r / 3 * 3) 3))
            then option_map (fun x => nset_delete x n)
                   (notes_get (notes s) (key r' c'))
            else notes_get (notes s) (key r' c')).
  { intros r' c'. rewrite clear_notes_flat. apply fold_drop_note_get. }
  split; [|split].
  - intros r' c' Hr' Hc' Hsees. unfold cell_notes. rewrite Hget.
    assert (E : existsb (String.eqb (key r' c'))
                  (flat_map (fun i => [key r i; key i c]) (seq 0 9) ++
                   flat_map (fun rr => map (key rr) (seq (c / 3 * 3) 3))
                            (seq (r / 3 * 3) 3)) = true).
    { apply (proj2 (existsb_eqb_In _ _)).
      apply (proj2 (@cleared_keys r c (key r' c') Hr Hc)).
      exists r', c'. auto. }
    rewrite E.
    destruct (notes_get (notes s) (key r' c')) as [x|]; cbn [option_map].
    + rewrite nset_delete_In. tauto.
    + intros [].
  - intros r' c' m Hr' Hc' Hm. unfold cell_notes. rewrite Hget.
    destruct (existsb (String.eqb (key r' c')) _); [|reflexivity].
    destruct (notes_get (notes s) (key r' c')) as [x|]; cbn [option_map].
    + rewrite nset_delete_In. tauto.
    + reflexivity.
  - intros r' c' Hr' Hc' Hno. unfold cell_notes. rewrite Hget.
    destruct (existsb (String.eqb (key r' c')) _) eqn:E; [|reflexivity].
    exfalso. apply Hno.
    apply (proj1 (existsb_eqb_In _ _)) in E.
    apply (proj1 (@cleared_keys r c (key r' c') Hr Hc)) in E.
    destruct E as [r2 [c2 [Hr2 [Hc2 [Hsees Hk]]]]].
    apply key_inj in Hk; auto. destruct Hk as [-> ->]. exact Hsees.
Qed.

Lemma placeNumber_clears_notes_witness :
  shape9 (board sample_game) /\ selectedCell sample_game = Some (0, 0) /\
  0 < 9 /\ 0 < 9 /\ isComplete sample_game = false /\
  get (initialBoard sample_game) 0 0 = Null /\
  noteMode sample_game = false /\ get (board sample_game) 0 0 <> Num 1 /\
  get (board (placeNumber 1 sample_game)) 0 0 = Num 1 /\
  (forall r' c', r' < 9 -> c' < 9 -> sees 0 0 r' c' ->
     ~ In 1%Z (cell_notes (notes (placeNumber 1 sample_game)) r' c')) /\
  (forall r' c' m, r' < 9 -> c' < 9 -> m <> 1%Z ->
     (In m (cell_notes (notes (placeNumber 1 sample_game)) r' c')
      <-> In m (cell_notes (notes sample_game) r' c'))) /\
  (forall r' c', r' < 9 -> c' < 9 -> ~ sees 0 0 r' c' ->
     cell_notes (notes (placeNumber 1 sample_game)) r' c'
     = cell_notes (notes sample_game) r' c').
Proof.
  assert (H1 : shape9 (board sample_game))
    by (apply shape9b_spec; vm_compute; reflexivity).
  assert (H2 : selectedCell sample_game = Some (0, 0)) by reflexivity.
  assert (H3 : 0 < 9) by lia.
  assert (H4 : isComplete sample_game = false) by reflexivity.
  assert (H5 : get (initialBoard sample_game) 0 0 = Null) by reflexivity.
  assert (H6 : noteMode sample_game = false) by reflexivity.
  assert (H7 : get (board sample_game) 0 0 <> Num 1) by (vm_compute; discriminate).
  split; [exact H1|]. split; [exact H2|]. split; [exact H3|].
  split; [exact H3|]. split; [exact H4|]. split; [exact H5|].
  split; [exact H6|]. split; [exact H7|].
  apply (@placeNumber_clears_notes sample_game 0 0 1%Z H1 H2 H3 H3 H4 H5 H6 H7).
Defined.

(** * The board component *)

Lemma isConflict_spec (s : Game) (r c : nat) :
  conflicts s = getConflicts (board s) -> r < 9 -> c < 9 ->
  (isConflict s r c = true <->
   get (board s) r c <> Null /\
   exists r' c', r' < 9 /\ c' < 9 /\ peer r c r' c' /\
     get (board s) r' c' = get (board s) r c).
Proof.
  intros Hshown Hr Hc. unfold isConflict. rewrite existsb_eqb_In, Hshown.
  split.
  - intros H. apply (proj1 (@getConflicts_key (board s) r c Hr Hc)) in H.
    apply (proj1 (@flagged_spec (board s) r c Hr Hc)). exact H.
  - intros H. apply (proj2 (@getConflicts_key (board s) r c Hr Hc)).
    apply (proj2 (@flagged_spec (board s) r c Hr Hc)). exact H.
Qed.

(** With the conflict set of the board at hand, the board component draws a
    given clue in the initial colour, and the clue is the digit of the
    solution; an entry of the player is drawn in the conflict colour
    exactly when a cell of its row, column or box holds the same digit, and
    in the colour for correct entries only when it is the digit of the
    solution; a cell with the conflict background has a partner in its
    row, column or box that has it too or is the selected cell; the
    background for related cells goes to cells of the row, column or box
    of the selected cell only. *)
Theorem board_colours (s : Game) (r c : nat) :
  game_ok s -> conflicts s = getConflicts (board s) -> r < 9 -> c < 9 ->
  (get (initialBoard s) r c <> Null ->
     cell_text s r c = InitialColor /\
     get (board s) r c = get (solution s) r c) /\
  (cell_text s r c = ConflictColor <->
     get (initialBoard s) r c = Null /\ get (board s) r c <> Null /\
     exists r' c', r' < 9 /\ c' < 9 /\ peer r c r' c' /\
       get (board s) r' c' = get (board s) r c) /\
  (cell_text s r c = CorrectColor ->
     get (initialBoard s) r c = Null /\
     get (board s) r c = get (solution s) r c) /\
  (cell_bg s r c = ConflictBg ->
     exists r' c', r' < 9 /\ c' < 9 /\ peer r c r' c' /\
       (cell_bg s r' c' = ConflictBg \/ cell_bg s r' c' = SelectedBg)) /\
  (cell_bg s r c = RelatedBg ->
     exists r0 c0, selectedCell s = Some (r0, c0) /\ peer r0 c0 r c).
Proof.
  intros (Hsol & Hinv & [Hwf Hext] & _ & Hsel) Hshown Hr Hc.
  pose proof (@isConflict_spec s r c Hshown Hr Hc) as Hconf.
  split; [|split; [|split; [|split]]].
  - intros Hne. split.
    + unfold cell_text, isInitial.
      apply is_null_false in Hne. rewrite Hne. reflexivity.
    + rewrite (Hext r c Hr Hc Hne).
      destruct Hinv as [_ [Hsub _]].
      destruct (Hsub r c Hr Hc) as [E|E]; [contradiction|exact E].
  - unfold cell_text, isInitial.
    destruct (is_null (get (initialBoard s) r c)) eqn:En; cbn [negb].
    + apply is_null_true in En.
      destruct (isConflict s r c) eqn:Ec.
      * split; [intros _|reflexivity]. split; [exact En|].
        apply (proj1 Hconf). reflexivity.
      * split.
        -- destruct (isCorrect s r c); discriminate.
        -- intros [_ H]. apply (proj2 Hconf) in H. discriminate.
    + apply is_null_false in En. split; [discriminate|]. tauto.
  - unfold cell_text, isInitial, isCorrect.
    destruct (is_null (get (initialBoard s) r c)) eqn:En; cbn [negb];
      [|discriminate].
    apply is_null_true in En.
    destruct (isConflict s r c); [discriminate|].
    destruct (is_null (get (board s) r c)); cbn [negb andb]; [discriminate|].
    destruct (cell_eqb (get (board s) r c) (get (solution s) r c)) eqn:E;
      [|discriminate].
    apply cell_eqb_eq in E. auto.
  - unfold cell_bg at 1.
    destruct (isSelected s r c); [discriminate|].
    destruct (isConflict s r c) eqn:Ec.
    + intros _.
      destruct (proj1 Hconf eq_refl) as [Hne [r' [c' [Hr' [Hc' [Hp Hv]]]]]].
      exists r', c'. split; [exact Hr'|]. split; [exact Hc'|].
      split; [exact Hp|].
      assert (Ec' : isConflict s r' c' = true).
      { apply (proj2 (@isConflict_spec s r' c' Hshown Hr' Hc')).
        split; [congruence|]. exists r, c.
        split; [exact Hr|]. split; [exact Hc|].
        split; [apply peer_sym; exact Hp|]. congruence. }
      unfold cell_bg. rewrite Ec'. destruct (isSelected s r' c'); auto.
    + destruct (isSameNum s r c && negb false); [discriminate|].
      destruct (isRelated s r c); discriminate.
  - unfold cell_bg, isSelected, isRelated.
    destruct (selectedCell s) as [[r0 c0]|].
    + destruct ((r0 =? r) && (c0 =? c)) eqn:E1; [discriminate|].
      destruct (isConflict s r c); [discriminate|].
      destruct (isSameNum s r c && negb false); [discriminate|].
      destruct ((r0 =? r) || (c0 =? c)
                || ((r0 / 3 =? r / 3) && (c0 / 3 =? c / 3))) eqn:E2;
        [|discriminate].
      intros _. exists r0, c0. split; [reflexivity|]. split.
      * apply andb_false_iff in E1.
        destruct E1 as [E1|E1]; apply Nat.eqb_neq in E1; auto.
      * apply orb_true_iff in E2. destruct E2 as [E2|E2].
        -- apply orb_true_iff in E2.
           destruct E2 as [E2|E2]; apply Nat.eqb_eq in E2; auto.
        -- apply andb_true_iff in E2. destruct E2 as [Ea Eb].
           apply Nat.eqb_eq in Ea. apply Nat.eqb_eq in Eb. auto.
    + destruct (isConflict s r c); [discriminate|].
      destruct (isSameNum s r c && negb false); discriminate.
Qed.

Lemma board_colours_witness :
  game_ok clash_game /\
  conflicts clash_game = getConflicts (board clash_game) /\ 0 < 9 /\ 1 < 9 /\
  (get (initialBoard clash_game) 0 1 <> Null ->
     cell_text clash_game 0 1 = InitialColor /\
     get (board clash_game) 0 1 = get (solution clash_game) 0 1) /\
  (cell_text clash_game 0 1 = ConflictColor <->
     get (initialBoard clash_game) 0 1 = Null /\
     get (board clash_game) 0 1 <> Null /\
     exists r' c', r' < 9 /\ c' < 9 /\ peer 0 1 r' c' /\
       get (board clash_game) r' c' = get (board clash_game) 0 1) /\
  (cell_text clash_game 0 1 = CorrectColor ->
     get (initialBoard clash_game) 0 1 = Null /\
     get (board clash_game) 0 1 = get (solution clash_game) 0 1) /\
  (cell_bg clash_game 0 1 = ConflictBg ->
     exists r' c', r' < 9 /\ c' < 9 /\ peer 0 1 r' c' /\
       (cell_bg clash_game r' c' = ConflictBg \/
        cell_bg clash_game r' c' = SelectedBg)) /\
  (cell_bg clash_game 0 1 = RelatedBg ->
     exists r0 c0, selectedCell clash_game = Some (r0, c0) /\ peer r0 c0 0 1).
Proof.
  assert (H1 : game_ok clash_game).
  { destruct last_move_game_ok as (Hsol & Hinv & [Hwf Hext] & _ & Hsel).
    unfold game_ok, clash_game in *.
    cbn [board initialBoard solution selectedCell history] in *.
    split; [exact Hsol|]. split; [exact Hinv|].
    assert (Hok : wf clash_grid /\
                  extends (set sample_solution 0 0 Null) clash_grid).
    { split; [exact clash_grid_wf|].
      intros r c Hr Hc Hne. unfold clash_grid.
      destruct (coord_eq_dec (r, c) (0, 0)) as [E|E].
      - inversion E; subst r c. exfalso. apply Hne. reflexivity.
      - rewrite !get_set_other by (apply coord_neq; exact E). reflexivity. }
    split; [exact Hok|]. split; [|exact Hsel].
    constructor; [|constructor]. split; assumption. }
  assert (H2 : conflicts clash_game = getConflicts (board clash_game))
    by reflexivity.
  assert (H3 : 0 < 9) by lia.
  assert (H4 : 1 < 9) by lia.
  split; [exact H1|]. split; [exact H2|]. split; [exact H3|].
  split; [exact H4|].
  apply (@board_colours clash_game 0 1 H1 H2 H3 H4).
Defined.

(** * The number pad *)













(** * The timer *)

Lemma string_length_app (s t : string) :
  String.length (s ++ t) = String.length s + String.length t.
Proof. induction s as [|a s IH]; simpl; [reflexivity|]. rewrite IH. reflexivity. Qed.

Lemma length_padStart0 (n : nat) (s : string) :
  String.length (padStart0 n s) = Nat.max n (String.length s).
Proof.
  unfold padStart0. rewrite string_length_app.
  assert (E : forall j, String.length (string_of_list_ascii (repeat "0"%char j)) = j).
  { induction j as [|j IH]; simpl; [reflexivity|]. rewrite IH. reflexivity. }
  rewrite E. lia.
Qed.

Lemma read_nat_padStart0 (n k : nat) :
  read_nat (padStart0 n (String_of_nat k)) = Some k.
Proof.
  unfold padStart0, read_nat.
  induction (n - String.length (String_of_nat k)) as [|j IH].
  - simpl. unfold String_of_nat. rewrite NilEmpty.usu. simpl.
    rewrite Unsigned.of_to. reflexivity.
  - cbn [repeat string_of_list_ascii append NilEmpty.uint_of_string].
    destruct (NilEmpty.uint_of_string
                (string_of_list_ascii (repeat "0"%char j) ++ String_of_nat k))
      as [d|]; [|discriminate].
    cbn [option_map] in IH. injection IH as IH.
    cbn. f_equal. exact IH.
Qed.

Lemma append_same_tail (s1 s2 t1 t2 : string) :
  (s1 ++ t1)%string = (s2 ++ t2)%string ->
  String.length t1 = String.length t2 -> s1 = s2 /\ t1 = t2.
Proof.
  revert s2. induction s1 as [|a s1 IH]; intros [|b s2] E Hl; simpl in E.
  - auto.
  - exfalso. apply (f_equal String.length) in E. simpl in E.
    rewrite string_length_app in E. lia.
  - exfalso. apply (f_equal String.length) in E. simpl in E.
    rewrite string_length_app in E. lia.
  - injection E as Ea E. destruct (IH s2 E Hl) as [-> ->]. subst b. auto.
Qed.

(** The timer shows minutes and seconds as decimal numerals around a colon;
    the seconds always take two characters and the minutes at least two
    (exactly two below 100 minutes); the two numerals read back as the
    minutes and the seconds, so that different times give different texts. *)
Theorem timer_text_reads (seconds : nat) :
  (exists mm ss,
     timer_text seconds = (mm ++ ":" ++ ss)%string /\
     String.length ss = 2 /\ 2 <= String.length mm /\
     (seconds < 100 * 60 -> String.length mm = 2) /\
     read_nat mm = Some (seconds / 60) /\
     read_nat ss = Some (seconds mod 60)) /\
  (forall other, timer_text other = timer_text seconds -> other = seconds).
Proof.
  assert (Hlen : forall k, k < 100 ->
            String.length (padStart0 2 (String_of_nat k)) = 2).
  { intros k Hk.
    do 100 (destruct k as [|k]; [reflexivity|]). lia. }
  assert (Hss : forall n, String.length (padStart0 2 (String_of_nat (n mod 60))) = 2).
  { intros n. apply Hlen. pose proof (Nat.mod_upper_bound n 60). lia. }
  split.
  - exists (padStart0 2 (String_of_nat (seconds / 60))),
           (padStart0 2 (String_of_nat (seconds mod 60))).
    split; [reflexivity|]. split; [apply Hss|].
    split; [rewrite length_padStart0; lia|].
    split.
    + intros Hlt. apply Hlen.
      apply Nat.Div0.div_lt_upper_bound. lia.
    + split; apply read_nat_padStart0.
  - intros other E. unfold timer_text in E.
    apply append_same_tail in E.
    + destruct E as [Emm Ess].
      apply append_same_tail in Ess; [|rewrite !Hss; reflexivity].
      destruct Ess as [_ Ess].
      apply (f_equal read_nat) in Emm. apply (f_equal read_nat) in Ess.
      rewrite !read_nat_padStart0 in Emm, Ess.
      assert (Ed : other / 60 = seconds / 60) by congruence.
      assert (Em : other mod 60 = seconds mod 60) by congruence.
      rewrite (Nat.div_mod_eq other 60), (Nat.div_mod_eq seconds 60).
      rewrite Ed, Em. reflexivity.
    + rewrite !string_length_app, !Hss. reflexivity.
Qed.

(** * The mistake counter *)

Lemma extends_solution_consistent (b sol : Board) :
  Solution sol -> extends b sol -> consistent b.
Proof.
  intros Hsol Hext r c Hr Hc Hne r' c' Hr' Hc' Hp E.
  assert (Hne' : get b r' c' <> Null) by congruence.
  rewrite <- (Hext r c Hr Hc Hne), <- (Hext r' c' Hr' Hc' Hne') in E.
  apply (sol_no_clash Hsol Hr Hc Hr' Hc' Hp E).
Qed.

Lemma extends_solution_no_conflicts (b sol : Board) :
  Solution sol -> extends b sol -> getConflicts b = [].
Proof.
  intros Hsol Hext. apply (proj2 (consistent_no_conflicts b)).
  apply (extends_solution_consistent Hsol Hext).
Qed.

Lemma extends_set_solution (b sol : Board) (r c : nat) (x : Cell) :
  shape9 b -> r < 9 -> c < 9 ->
  (x = Null \/ x = get sol r c) -> extends b sol -> extends (set b r c x) sol.
Proof.
  intros Hs Hr Hc Hx Hext r' c' Hr' Hc'.
  destruct (coord_eq_dec (r', c') (r, c)) as [E|E].
  - inversion E; subst r' c'. rewrite get_set_same by assumption.
    destruct Hx as [->| ->]; [intros H; contradiction|reflexivity].
  - rewrite get_set_other by (apply coord_neq; exact E). apply Hext; assumption.
Qed.

Lemma solved_is_solution (s : Game) (s1 : Board) :
  game_ok s -> extends (board s) (solution s) ->
  solvePuzzle (board s) = Ret (Some s1) -> s1 = solution s.
Proof.
  intros (Hsol & Hinv & [Hwf Hext] & _) Hright E.
  pose proof (extends_solution_consistent Hsol Hright) as Hcons.
  destruct (solvePuzzle_cases Hwf) as [[s2 [E2 Hreach]]|[E2 _]];
    [|congruence].
  assert (s2 = s1) by congruence. subst s2.
  apply (proj1 (reachable_completion s1 Hcons)) in Hreach.
  destruct Hinv as [_ [_ Huniq]]. apply Huniq.
  destruct Hreach as [H1 H2]. split; [exact H1|].
  apply (extends_trans Hext H2).
Qed.

Lemma clean_step (rand : nat -> nat) (e : Event) (s s' : Game) :
  game_ok s -> (0 <= mistakes s)%Z -> clean s ->
  step rand e s = Ret s' -> clean s'.
Proof.
  intros Hok Hmis Hclean.
  pose proof Hok as (Hsol & Hinv & [Hwf Hext] & Hhist & Hsel).
  destruct e as [num| | | | |k|d k|r c|k| | |]; cbn [step].
  - (* placeNumber *)
    intros E. injection E as <-. unfold placeNumber.
    destruct (selectedCell s) as [[r c]|] eqn:Esel; [|exact Hclean].
    destruct (isComplete s) eqn:Ec; [exact Hclean|].
    destruct (is_null (get (initialBoard s) r c)) eqn:En; cbn [negb];
      [|exact Hclean].
    destruct (noteMode s); [exact Hclean|].
    unfold clean. cbn [board solution history conflicts mistakes].
    rewrite !copy_id.
    rewrite get_set_same by (destruct Hwf; tauto).
    intros Hzero.
    assert (Hx : (if holds (get (board s) r c) num then Null else Num num)
                 = Null \/
                 (if holds (get (board s) r c) num then Null else Num num)
                 = get (solution s) r c).
    { destruct (holds (get (board s) r c) num); [left; reflexivity|].
      right.
      destruct (cell_eqb (Num num) (get (solution s) r c)) eqn:E.
      - apply cell_eqb_eq in E. exact E.
      - cbn [is_null cell_eqb negb andb] in Hzero. lia. }
    assert (Hm0 : mistakes s = 0%Z).
    { match type of Hzero with
      | (if ?t then _ else _) = _ => destruct t; lia
      end. }
    destruct (Hclean Hm0) as (Hright & Hpast & _).
    assert (Hnew : extends
                     (set (board s) r c
                        (if holds (get (board s) r c) num then Null
                         else Num num)) (solution s)).
    { apply extends_set_solution; try tauto. destruct Hwf; assumption. }
    split; [exact Hnew|]. split.
    + apply Forall_app. split; [assumption|]. constructor; [|constructor].
      exact Hright.
    + apply (extends_solution_no_conflicts Hsol Hnew).
  - (* erase *)
    intros E. injection E as <-. unfold erase.
    destruct (selectedCell s) as [[r c]|] eqn:Esel; [|exact Hclean].
    destruct (isComplete s) eqn:Ec; [exact Hclean|].
    destruct (is_null (get (initialBoard s) r c)) eqn:En; cbn [negb];
      [|exact Hclean].
    destruct (match notes_get (notes s) (key r c) with
              | Some x => negb (length x =? 0)
              | None => false
              end); [exact Hclean|].
    unfold clean. cbn [board solution history conflicts mistakes].
    rewrite !copy_id. intros Hm0.
    destruct (Hclean Hm0) as (Hright & Hpast & _).
    assert (Hnew : extends (set (board s) r c Null) (solution s)).
    { apply extends_set_solution; try tauto. destruct Hwf; assumption. }
    split; [exact Hnew|]. split.
    + apply Forall_app. split; [assumption|]. constructor; [|constructor].
      exact Hright.
    + apply (extends_solution_no_conflicts Hsol Hnew).
  - (* undo *)
    intros E. injection E as <-. unfold undo.
    destruct (history s) as [|b0 h] eqn:Eh; [exact Hclean|].
    unfold clean. cbn [board solution history conflicts mistakes].
    rewrite copy_id. intros Hm0.
    destruct (Hclean Hm0) as (Hright & Hpast & _).
    assert (Hprev : extends (last (b0 :: h) []) (solution s)).
    { rewrite Forall_forall in Hpast. apply Hpast. rewrite Eh.
      apply last_In. discriminate. }
    split; [exact Hprev|]. split.
    + apply Forall_removelast. rewrite <- Eh. assumption.
    + apply (extends_solution_no_conflicts Hsol Hprev).
  - (* hint *)
    intros E. injection E as <-. unfold hint.
    destruct (selectedCell s) as [[r c]|] eqn:Esel; [|exact Hclean].
    destruct (isComplete s) eqn:Ec; [exact Hclean|].
    destruct (is_null (get (initialBoard s) r c)) eqn:En; cbn [negb];
      [|exact Hclean].
    unfold clean. cbn [board solution history conflicts mistakes].
    rewrite !copy_id. intros Hm0.
    destruct (Hclean Hm0) as (Hright & Hpast & _).
    assert (Hnew : extends (set (board s) r c (get (solution s) r c))
                     (solution s)).
    { apply extends_set_solution; try tauto. destruct Hwf; assumption. }
    split; [exact Hnew|]. split.
    + apply Forall_app. split; [assumption|]. constructor; [|constructor].
      exact Hright.
    + apply (extends_solution_no_conflicts Hsol Hnew).
  - (* handleSolve *)
    unfold handleSolve.
    destruct (solvePuzzle (board s)) as [|[s1|]] eqn:E1; [discriminate| |].
    + intros E. injection E as <-.
      unfold clean. cbn [board solution history conflicts mistakes].
      rewrite copy_id. intros Hm0.
      destruct (Hclean Hm0) as (Hright & Hpast & _).
      rewrite (@solved_is_solution s s1 Hok Hright E1).
      split; [apply extends_refl|]. split; [exact Hpast|reflexivity].
    + intros E. injection E as <-. exact Hclean.
  - (* newGame *)
    intros E.
    destruct (newGame_ok rand k (difficulty s) s)
      as [s2 [E2 [Hok2 [Hb [_ [Hc [_ [_ [_ [Hh _]]]]]]]]]].
    assert (s2 = s') by congruence. subst s2.
    destruct Hok2 as (Hsol2 & Hinv2 & _).
    intros _. rewrite Hb, Hh, Hc.
    split; [apply (carve_inv_extends Hsol2 Hinv2)|].
    split; [constructor|reflexivity].
  - (* the difficulty buttons *)
    unfold chooseDifficulty.
    destruct (newGame_ok rand k d s)
      as [s2 [E2 [Hok2 [Hb [_ [Hc [_ [_ [_ [Hh _]]]]]]]]]].
    rewrite E2. intros E. injection E as <-.
    destruct Hok2 as (Hsol2 & Hinv2 & _).
    unfold clean. cbn [board solution history conflicts mistakes].
    intros _. rewrite Hb, Hh, Hc.
    split; [apply (carve_inv_extends Hsol2 Hinv2)|].
    split; [constructor|reflexivity].
  - intros E. injection E as <-. exact Hclean.
  - intros E. injection E as <-. unfold arrowKey.
    destruct (selectedCell s) as [[r c]|]; [|exact Hclean].
    destruct (arrowTarget k r c); exact Hclean.
  - intros E. injection E as <-. exact Hclean.
  - intros E. injection E as <-. exact Hclean.
  - intros E. injection E as <-. exact Hclean.
Qed.

(** While the mistake counter of a session shows 0, every entry on the
    board is the digit of the solution, no conflict is on display or on the
    board, and auto-solve ends the game with the solution on the board. *)
Theorem no_mistakes_all_correct (rand : nat -> nat) (s : Game) :
  played rand s -> mistakes s = 0%Z ->
  extends (board s) (solution s) /\
  conflicts s = [] /\ getConflicts (board s) = [] /\
  exists s', handleSolve s = Ret s' /\ board s' = solution s /\
             isComplete s' = true.
Proof.
  intros Hp.
  assert (H : game_ok s /\ status_ok s /\ clean s).
  { induction Hp as [k s E|e s s' Hp (IH1 & IH2 & IH3) Hev E].
    - destruct (newGame_ok rand k medium initialGame)
        as [s2 [E2 [Hok [Hb [Hne [Hc [Hd [Ht [Hs [Hh [Hm _]]]]]]]]]]].
      assert (s2 = s) by congruence. subst s2. split; [exact Hok|]. split.
      + unfold status_ok. rewrite Hd, Ht, Hs, Hh, Hm.
        split; [reflexivity|]. split; [discriminate|]. split; [auto|].
        split; [constructor|lia].
      + destruct Hok as (Hsol2 & Hinv2 & _).
        intros _. rewrite Hb, Hh, Hc.
        split; [apply (carve_inv_extends Hsol2 Hinv2)|].
        split; [constructor|reflexivity].
    - split; [|split].
      + destruct (@game_ok_step rand e s IH1 Hev) as [s2 [E2 Hok2]]. congruence.
      + apply (@status_ok_step rand e s s' IH1 IH2 E).
      + destruct IH2 as (_ & _ & _ & _ & Hmis).
        apply (@clean_step rand e s s' IH1 Hmis IH3 E). }
  destruct H as (Hok & _ & Hclean). intros Hm0.
  destruct (Hclean Hm0) as (Hright & _ & Hshown).
  pose proof Hok as (Hsol & Hinv & [Hwf Hext] & _).
  split; [exact Hright|]. split; [exact Hshown|].
  split; [apply (extends_solution_no_conflicts Hsol Hright)|].
  unfold handleSolve.
  destruct (solvePuzzle_cases Hwf) as [[s1 [E Hreach]]|[E Hnone]].
  - rewrite E. rewrite (@solved_is_solution s s1 Hok Hright E).
    eexists. split; [reflexivity|]. cbn [board isComplete].
    rewrite copy_id. auto.
  - exfalso. apply (Hnone (solution s)).
    apply (proj2 (reachable_completion (solution s)
                    (extends_solution_consistent Hsol Hright))).
    split; assumption.
Qed.

Lemma no_mistakes_all_correct_witness :
  played (fun _ => 0) first_game /\ mistakes first_game = 0%Z /\
  extends (board first_game) (solution first_game) /\
  conflicts first_game = [] /\ getConflicts (board first_game) = [] /\
  exists s', handleSolve first_game = Ret s' /\
             board s' = solution first_game /\ isComplete s' = true.
Proof.
  assert (H1 : played (fun _ => 0) first_game) by exact first_game_played.
  assert (H2 : mistakes first_game = 0%Z).
  { unfold first_game.
    destruct (newGame_ok (fun _ => 0) 0 medium initialGame)
      as [s' [E [_ [_ [_ [_ [_ [_ [_ [_ [Hm _]]]]]]]]]]].
    rewrite E. exact Hm. }
  split; [exact H1|]. split; [exact H2|].
  apply (@no_mistakes_all_correct (fun _ => 0) first_game H1 H2).
Defined.
